(** * Value-at-Risk estimation (Var.py): embedding and verified properties

    The module [Var.py] defines the class [VaRCalculator]: it downloads an
    adjusted-close price series, derives simple returns with
    [pct_change().dropna()], and offers three Value-at-Risk estimators
    (parametric, historical, Monte Carlo) plus a summary over a list of
    confidence levels.

    Number model.  Python floats are embedded as exact rationals extended
    with the three IEEE special values: [Fin q], [PInf], [NInf], [NaN].
    The estimators are embedded in exact arithmetic: rounding, overflow and
    the sign of zero are not modelled there; the special values follow
    IEEE 754 (x/0 is infinite, 0/0 and inf-inf are NaN, NaN propagates).
    The one place where rounding decides what the user reads is the row
    label [int(cl * 100)], where a truncation follows the product: there the
    level and the product are rounded to binary64 ([binary64], round to
    nearest, ties to even, overflow to infinity), and [int] refuses an
    infinite or NaN operand as Python does.  The square root of a rational
    is a parameter [sqrtQ] of the development; the one property assumed of
    it, and only by the results that say so, is that its value is never
    negative.

    Ambient state.  [numpy.random] is a global generator; it is embedded as
    an explicit state [rng] threaded through a state-and-exception monad.

    Libraries.  [np.percentile] (default linear method), [np.random.normal],
    [pct_change], [dropna], [mean] and [std] are embedded from their
    documented behaviour.  The downloaded frame is reduced to its adjusted
    close column of finite prices; the one-column objects pandas builds from
    it ([mean()], [std()] and the value [var_parametric] returns, read back
    with [.values[0]]) are embedded as their single entry. *)

From Stdlib Require PrimFloat FloatOps SpecFloat Uint63.
From Stdlib Require Import QArith Qabs Qround Qminmax Qpower Lqa Lia ZArith.
From Stdlib Require Import String Ascii Bool DecimalString List Sorted Permutation.
Import ListNotations.

Local Open Scope string_scope.
Local Open Scope Q_scope.

(** ** Floats *)

Inductive float : Type :=
| Fin (q : Q)
| PInf
| NInf
| NaN.

Definition isnan (x : float) : bool :=
  match x with NaN => true | _ => false end.

Definition Fopp (x : float) : float :=
  match x with
  | Fin q => Fin (- q)
  | PInf => NInf
  | NInf => PInf
  | NaN => NaN
  end.

Definition Fadd (x y : float) : float :=
  match x, y with
  | NaN, _ | _, NaN => NaN
  | Fin a, Fin b => Fin (a + b)
  | PInf, NInf | NInf, PInf => NaN
  | PInf, _ | _, PInf => PInf
  | NInf, _ | _, NInf => NInf
  end.

Definition Fsub (x y : float) : float := Fadd x (Fopp y).

(** Sign of an operand, for products and quotients with an infinity. *)
Definition Fsign (x : float) : option comparison :=
  match x with
  | Fin q => Some (q ?= 0)
  | PInf => Some Gt
  | NInf => Some Lt
  | NaN => None
  end.

Definition signed_inf (s t : comparison) : float :=
  match s, t with
  | Eq, _ | _, Eq => NaN
  | Gt, Gt | Lt, Lt => PInf
  | _, _ => NInf
  end.

Definition Fmul (x y : float) : float :=
  match x, y with
  | Fin a, Fin b => Fin (a * b)
  | _, _ =>
      match Fsign x, Fsign y with
      | Some s, Some t => signed_inf s t
      | _, _ => NaN
      end
  end.

Definition Fdiv (x y : float) : float :=
  match x, y with
  | NaN, _ | _, NaN => NaN
  | Fin a, Fin b =>
      match b ?= 0 with
      | Eq => signed_inf (a ?= 0) Gt
      | _ => Fin (a / b)
      end
  | Fin _, _ => Fin 0
  | _, Fin b => signed_inf (match Fsign x with Some s => s | None => Eq end)
                           (match b ?= 0 with Lt => Lt | _ => Gt end)
  | _, _ => NaN
  end.

Definition Fabs (x : float) : float :=
  match x with
  | Fin q => Fin (Qabs q)
  | PInf | NInf => PInf
  | NaN => NaN
  end.

(** [x >= 0] as Python evaluates it: false on NaN. *)
Definition Fnonneg (x : float) : bool :=
  match x with
  | Fin q => Qle_bool 0 q
  | PInf => true
  | NInf | NaN => false
  end.

(** The order numpy sorts by: NaN is placed last. *)
Definition Fleb (x y : float) : bool :=
  match x, y with
  | _, NaN => true
  | NaN, _ => false
  | NInf, _ => true
  | _, NInf => false
  | _, PInf => true
  | PInf, _ => false
  | Fin a, Fin b => Qle_bool a b
  end.

Definition Fsum (l : list float) : float := fold_left Fadd l (Fin 0).

Definition of_nat (n : nat) : Q := inject_Z (Z.of_nat n).

(** ** binary64 rounding

    The value a binary64 operation returns is its exact result rounded to
    the nearest number [m * 2^e] with [m < 2^53] and [e >= -1074], ties to
    the even [m]; a result that rounds to [2^1024] or beyond is infinite. *)

Definition pow2 (e : Z) : Q := 2 ^ e.

(** The exponent of a positive rational: the [j] with [2^j <= q < 2^(j+1)]. *)
Definition ilog2 (q : Q) : Z :=
  let j := (Z.log2 (Qnum q) - Z.log2 (Zpos (Qden q)))%Z in
  if Qle_bool (pow2 j) q then j else (j - 1)%Z.

Definition round_half_even (x : Q) : Z :=
  let f := Qfloor x in
  match (x - inject_Z f ?= 1 # 2)%Q with
  | Lt => f
  | Gt => (f + 1)%Z
  | Eq => if Z.even f then f else (f + 1)%Z
  end.

(** Rounding of a positive rational. *)
Definition round_magnitude (q : Q) : float :=
  let e := Z.max (ilog2 q - 52) (-1074) in
  let m := round_half_even (q / pow2 e) in
  let r := inject_Z m * pow2 e in
  if Qle_bool (pow2 1024) r then PInf else Fin (Qred r).

(** The binary64 nearest to a rational: the float a decimal literal
    denotes, and the result of an operation whose exact value it is. *)
Definition binary64 (q : Q) : float :=
  match q ?= 0 with
  | Eq => Fin 0
  | Gt => round_magnitude q
  | Lt => Fopp (round_magnitude (- q))
  end.

Definition Fround (x : float) : float :=
  match x with
  | Fin q => binary64 q
  | _ => x
  end.

(** The product [x * y] of two floats as the machine returns it. *)
Definition float_mul (x y : float) : float := Fround (Fmul x y).

(** The finite binary64 numbers: [m * 2^e] with a significand below [2^53],
    an exponent not below that of the subnormals and a magnitude below
    [2^1024]. *)
Definition representable (r : Q) : Prop :=
  exists m e : Z,
    r == inject_Z m * pow2 e /\ (Z.abs m < 2 ^ 53)%Z /\ (-1074 <= e)%Z /\
    Qabs r < pow2 1024.

(** [r] is a binary64 number nearest to the rational [q]. *)
Definition nearest_binary64 (q r : Q) : Prop :=
  representable r /\
  forall r', representable r' -> Qabs (r - q) <= Qabs (r' - q).

(** ** Exceptions and results *)

Inductive exc_class : Type := ValueError | IndexError | OverflowError.

Record exception : Type := mkExc { exc_type : exc_class; exc_msg : string }.

Inductive result (A : Type) : Type :=
| OK (a : A)
| Raise (e : exception).
Arguments OK {A} a.
Arguments Raise {A} e.

Definition result_bind {A B : Type} (r : result A) (k : A -> result B) : result B :=
  match r with
  | OK a => k a
  | Raise e => Raise e
  end.

(** ** numpy: [np.percentile] with the default method (linear)

    An array of floats is a list.  The selection [arr.partition(...)] leaves
    the same values at the requested positions as a full sort, so it is
    embedded as an insertion sort by [Fleb]. *)

Definition ndarray : Type := list float.

Fixpoint insert_sorted (x : float) (l : ndarray) : ndarray :=
  match l with
  | [] => [x]
  | y :: l' => if Fleb x y then x :: y :: l' else y :: insert_sorted x l'
  end.

Definition np_sort (arr : ndarray) : ndarray := fold_right insert_sorted [] arr.

(** [arr[i]] with Python's negative indexes; out of range raises. *)
Definition take (arr : ndarray) (i : Z) : result float :=
  let n := Z.of_nat (length arr) in
  let j := (if i <? 0 then n + i else i)%Z in
  if ((0 <=? j) && (j <? n))%Z
  then OK (nth (Z.to_nat j) arr NaN)
  else Raise (mkExc IndexError "index out of bounds").

(** [_get_indexes]: floor of the virtual index and its successor; at or
    above the last position both become -1, below zero both become 0. *)
Definition _get_indexes (virtual_index : Q) (valid_values_count : nat) : Z * Z :=
  let previous_index := Qfloor virtual_index in
  let next_index := (previous_index + 1)%Z in
  let '(previous_index, next_index) :=
    if Qle_bool (of_nat valid_values_count - 1) virtual_index
    then ((-1)%Z, (-1)%Z) else (previous_index, next_index) in
  if Qle_bool 0 virtual_index then (previous_index, next_index) else (0%Z, 0%Z).

(** [_lerp(a, b, t)]: [a + (b-a)*t], recomputed as [b - (b-a)*(1-t)] where
    [t >= 0.5]. *)
Definition _lerp (a b : float) (t : Q) : float :=
  let diff_b_a := Fsub b a in
  if Qle_bool (1 # 2) t
  then Fsub b (Fmul diff_b_a (Fin (1 - t)))
  else Fadd a (Fmul diff_b_a (Fin t)).

(** [_quantile] for method linear: virtual index [(n-1)*q], interpolation
    between the two neighbours, and NaN when the sorted array ends in NaN. *)
Definition _quantile (arr : ndarray) (quantile : Q) : result float :=
  let values_count := length arr in
  let virtual_index := (of_nat values_count - 1) * quantile in
  let '(previous_index, next_index) := _get_indexes virtual_index values_count in
  let arr := np_sort arr in
  result_bind (take arr (-1)) (fun last =>
  result_bind (take arr previous_index) (fun previous =>
  result_bind (take arr next_index) (fun next =>
  let gamma := virtual_index - inject_Z previous_index in
  let result := _lerp previous next gamma in
  if isnan last then OK last else OK result))).

Definition _quantile_is_valid (q : Q) : bool := Qle_bool 0 q && Qle_bool q 1.

Definition np_percentile (a : ndarray) (q : Q) : result float :=
  let q := q / 100 in
  if _quantile_is_valid q then _quantile a q
  else Raise (mkExc ValueError "Percentiles must be in the range [0, 100]").

(** ** numpy: reductions, [np.linspace], [np.argmax], [np.histogram] *)

(** [np.minimum] and [np.maximum] on two floats: NaN wins. *)
Definition Fmin (x y : float) : float :=
  if isnan x then x else if isnan y then y else if Fleb x y then x else y.

Definition Fmax (x y : float) : float :=
  if isnan x then x else if isnan y then y else if Fleb x y then y else x.

(** [a.min()] and [a.max()]: an empty array has no minimum. *)
Definition np_min (a : ndarray) : result float :=
  match a with
  | [] => Raise (mkExc ValueError
      "zero-size array to reduction operation minimum which has no identity")
  | x :: l => OK (fold_left Fmin l x)
  end.

Definition np_max (a : ndarray) : result float :=
  match a with
  | [] => Raise (mkExc ValueError
      "zero-size array to reduction operation maximum which has no identity")
  | x :: l => OK (fold_left Fmax l x)
  end.

(** [y[-1] = v]. *)
Definition set_last (y : ndarray) (v : float) : ndarray :=
  match y with
  | [] => []
  | _ => (removelast y ++ [v])%list
  end.

Definition Fis_zero (x : float) : bool :=
  match x with Fin q => Qeq_bool q 0 | _ => false end.

(** [np.linspace(start, stop, num)] with the end point included: the
    indexes [0 .. num-1] times the step, plus [start]; a zero step goes
    through [index / div * delta]; the last entry is overwritten by [stop]. *)
Definition np_linspace (start stop : float) (num : nat) : ndarray :=
  let div := (Z.of_nat num - 1)%Z in
  let delta := Fsub stop start in
  let y := map (fun i => Fin (of_nat i)) (seq 0 num) in
  let y :=
    if (0 <? div)%Z then
      let step := Fdiv delta (Fin (inject_Z div)) in
      if Fis_zero step
      then map (fun v => Fmul (Fdiv v (Fin (inject_Z div))) delta) y
      else map (fun v => Fmul v step) y
    else map (fun v => Fmul v delta) y in
  let y := map (fun v => Fadd v start) y in
  if (1 <? num)%nat then set_last y stop else y.

(** [np.argmax]: the first position of the greatest entry, a NaN counting
    as greatest; an empty array is refused. *)
Fixpoint argmax_from (best_index : nat) (best : float) (i : nat) (l : ndarray) : nat :=
  match l with
  | [] => best_index
  | x :: l' =>
      if negb (Fleb x best)
      then argmax_from i x (S i) l'
      else argmax_from best_index best (S i) l'
  end.

Definition np_argmax (a : ndarray) : result nat :=
  match a with
  | [] => Raise (mkExc ValueError "attempt to get argmax of an empty sequence")
  | x :: l => OK (argmax_from 0 x 1 l)
  end.

(** [sa.searchsorted(v, 'left')] and [sa.searchsorted(v, 'right')] on a
    sorted array: the number of leading entries below [v], respectively not
    above [v]. *)
Fixpoint searchsorted_left (sa : ndarray) (v : float) : Z :=
  match sa with
  | [] => 0
  | x :: l => if negb (Fleb v x) then 1 + searchsorted_left l v else 0
  end%Z.

Fixpoint searchsorted_right (sa : ndarray) (v : float) : Z :=
  match sa with
  | [] => 0
  | x :: l => if Fleb x v then 1 + searchsorted_right l v else 0
  end%Z.

(** [a > b] on floats: false when either is NaN. *)
Definition Fgt (x y : float) : bool :=
  negb (isnan x) && negb (isnan y) && negb (Fleb x y).

Definition np_diff (l : list Z) : list Z :=
  map (fun '(a, b) => (b - a)%Z) (combine l (tl l)).

(** [np.histogram(a, bins=bin_edges)] with explicit edges: the edges must
    not decrease; the counts are the differences of the cumulative counts,
    every bin half-open except the last one, which is closed. *)
Definition np_histogram (a bin_edges : ndarray) : result (list Z) :=
  if existsb (fun '(lo, hi) => Fgt lo hi) (combine (removelast bin_edges) (tl bin_edges))
  then Raise (mkExc ValueError
                "`bins` must increase monotonically, when an array")
  else
    let sa := np_sort a in
    let cum_n :=
      (map (searchsorted_left sa) (removelast bin_edges)
       ++ map (searchsorted_right sa) (skipn (length bin_edges - 1) bin_edges))%list in
    OK (np_diff cum_n).

(** The cumulative counts [np.histogram] takes the differences of. *)
Definition cumulative_counts (sa bin_edges : ndarray) : list Z :=
  (map (searchsorted_left sa) (removelast bin_edges)
   ++ map (searchsorted_right sa) (skipn (length bin_edges - 1) bin_edges))%list.

Definition Zsum (l : list Z) : Z := fold_right Z.add 0%Z l.

(** ** pandas: a single-column series *)

Definition Series : Type := list float.

Definition shift (s : Series) : Series :=
  match s with
  | [] => []
  | _ => NaN :: removelast s
  end.

(** [pct_change()]: [s / s.shift(1) - 1], element by element. *)
Definition pct_change (s : Series) : Series :=
  map (fun '(cur, prev) => Fsub (Fdiv cur prev) (Fin 1)) (combine s (shift s)).

Definition dropna (s : Series) : Series := filter (fun x => negb (isnan x)) s.

Definition empty (s : Series) : bool :=
  match s with [] => true | _ => false end.

(** [Series.mean()]: NaN entries are skipped; the mean of nothing is NaN. *)
Definition Series_mean (s : Series) : float :=
  let values := dropna s in
  Fdiv (Fsum values) (Fin (of_nat (length values))).

(** The frame returned by the market-data provider, reduced to the column
    the program reads; its rows are finite prices. *)
Record DataFrame : Type := mkFrame { Adj_Close : list Q }.

Definition frame_empty (df : DataFrame) : bool :=
  match Adj_Close df with [] => true | _ => false end.

Definition column_Adj_Close (df : DataFrame) : Series := map Fin (Adj_Close df).

(** ** The estimator *)

Record VaRCalculator : Type := mkVaRCalculator {
  ticker : string;
  start_date : string;
  end_date : string;
  data : Series;
  returns : Series
}.

(** One row of the summary table. *)
Record SummaryRow : Type := mkRow {
  Confidence_Level : string;
  Parametric_VaR : float;
  Historical_VaR : float;
  Monte_Carlo_VaR : float
}.

(** ** Distribucion.py: what [DistributionPlot] computes

    The frame after [download_data]: one row per date, holding the adjusted
    close and the log return. *)
Definition LogFrame : Type := list (float * float).

(** The attributes [compute_statistics] sets. *)
Record Statistics : Type := mkStatistics {
  mean_return : float;
  std_return : float;
  skewness : float;
  excess_kurtosis : float;
  mode_val : float;
  all_min : float;
  all_max : float
}.

(** The attributes [prepare_plot_data] sets. *)
Record PlotData : Type := mkPlotData {
  bin_edges : ndarray;
  xvals : ndarray;
  pdf_normal_scaled : ndarray;
  pdf_kde_scaled : ndarray
}.

Definition kde_grid_size : nat := Z.to_nat 2000.

(** What the script writes to standard output: a table or a text. *)
Inductive printed : Type :=
| print_frame (summary : list SummaryRow)
| print_str (s : string).

(** [int(x)] truncates a finite float toward zero and refuses the others:
    [OverflowError] on an infinity, [ValueError] on NaN.  [f"{n}"] prints
    the decimal numeral. *)
Definition int (x : float) : result Z :=
  match x with
  | Fin q => OK (Z.quot (Qnum q) (Zpos (Qden q)))
  | PInf | NInf =>
      Raise (mkExc OverflowError "cannot convert float infinity to integer")
  | NaN => Raise (mkExc ValueError "cannot convert float NaN to integer")
  end.

Definition format_int (n : Z) : string := NilZero.string_of_int (Z.to_int n).

(** The key [f"{int(cl*100)}%"] of a summary row.  The level reaches the
    method as a float, the binary64 nearest to the rational [cl]; the
    product is the machine's. *)
Definition level_label (cl : Q) : result string :=
  result_bind (int (float_mul (binary64 cl) (Fin 100))) (fun n =>
  OK (format_int n ++ "%")).

(** The error [int] raises on an infinite product. *)
Definition float_overflow_error : exception :=
  mkExc OverflowError "cannot convert float infinity to integer".

(** The same label computed with the kernel's binary64 operations, for
    levels written as a quotient of two small integers. *)
Module Prim.

Definition of_Z (z : Z) : PrimFloat.float := PrimFloat.of_uint63 (Uint63.of_Z z).

Definition to_float (f : PrimFloat.float) : float :=
  match FloatOps.Prim2SF f with
  | SpecFloat.S754_zero _ => Fin 0
  | SpecFloat.S754_finite s m e =>
      Fin (Qred ((if s then -1 else 1) * inject_Z (Zpos m) * pow2 e))
  | SpecFloat.S754_infinity s => if s then NInf else PInf
  | SpecFloat.S754_nan => NaN
  end.

Definition label_of (n d : Z) : result string :=
  let cl := PrimFloat.div (of_Z n) (of_Z d) in
  result_bind (int (to_float (PrimFloat.mul cl (of_Z 100)))) (fun k =>
  OK (format_int k ++ "%")).

(** The product of the floats [m1 * 2^e1] and [m2 * 2^e2]. *)
Definition product (m1 e1 m2 e2 : Z) : float :=
  to_float (PrimFloat.mul (FloatOps.Z.ldexp (of_Z m1) e1)
                          (FloatOps.Z.ldexp (of_Z m2) e2)).

End Prim.

Definition float_eqb (x y : float) : bool :=
  match x, y with
  | Fin a, Fin b => Qeq_bool a b
  | PInf, PInf | NInf, NInf | NaN, NaN => true
  | _, _ => false
  end.

Definition default_confidence_level : Q := 5 # 100.
Definition default_simulations : nat := Z.to_nat 10000.
Definition default_confidence_levels : list Q := [1 # 100; 5 # 100; 1 # 10].
Definition standard_sample_size : nat := Z.to_nat 100000.

(** ** Reference definitions on rationals

    The textbook quantities the estimators are compared with: the linearly
    interpolated percentile of a sample, its mean, and its variance with
    the unbiased [n-1] denominator. *)

Definition Qsum (l : list Q) : Q := fold_left Qplus l 0.

Fixpoint insertQ (x : Q) (l : list Q) : list Q :=
  match l with
  | [] => [x]
  | y :: l' => if Qle_bool x y then x :: y :: l' else y :: insertQ x l'
  end.

Definition sortQ (l : list Q) : list Q := fold_right insertQ [] l.

(** Value at fractional rank [h] of an ascending sample: between the order
    statistics at [floor h] and [floor h + 1]; past the end the upper
    neighbour is the lower one. *)
Definition interpolate (s : list Q) (h : Q) : Q :=
  let k := Z.to_nat (Qfloor h) in
  let lo := nth k s 0 in
  let hi := nth (S k) s lo in
  lo + (h - inject_Z (Qfloor h)) * (hi - lo).

(** The [p]-th percentile, [p] in [0, 100]: rank [(n-1) * p/100]. *)
Definition linear_percentile (xs : list Q) (p : Q) : Q :=
  interpolate (sortQ xs) ((of_nat (length xs) - 1) * (p / 100)).

Definition sample_mean (xs : list Q) : Q := Qsum xs / of_nat (length xs).

Definition sample_variance (xs : list Q) : Q :=
  let mu := sample_mean xs in
  Qsum (map (fun x => (x - mu) * (x - mu)) xs) / (of_nat (length xs) - 1).

Definition minimum (xs : list Q) : Q := fold_right Qmin (hd 0 xs) xs.
Definition maximum (xs : list Q) : Q := fold_right Qmax (hd 0 xs) xs.

(** Number of entries of a sample that satisfy a test. *)
Definition count (f : Q -> bool) (l : list Q) : nat := length (filter f l).

(** The tests [x < v] and [x <= v]. *)
Definition below (v : Q) : Q -> bool := fun x => negb (Qle_bool v x).
Definition at_most (v : Q) : Q -> bool := fun x => Qle_bool x v.

(** Simple returns of consecutive prices, starting after [prev]. *)
Fixpoint simple_returns (prev : Q) (prices : list Q) : list Q :=
  match prices with
  | [] => []
  | p :: rest => (p / prev - 1) :: simple_returns p rest
  end.

(** Ratios of consecutive prices, starting after [prev]. *)
Fixpoint price_ratios (prev : Q) (prices : list Q) : list Q :=
  match prices with
  | [] => []
  | p :: rest => (p / prev) :: price_ratios p rest
  end.

(** A confidence level of the data model: a left-tail probability strictly
    between 0 and 1. *)
Definition valid_confidence_level (cl : Q) : Prop := 0 < cl /\ cl < 1.

(** ** Concrete instances for the examples *)

Definition example_returns : list Q :=
  [1 # 100; -2 # 100; 15 # 1000; -5 # 1000; 2 # 100;
   -1 # 100; 5 # 1000; -3 # 100; 12 # 1000; -8 # 1000].

(** A generator whose state is a counter and whose draws cycle through
    seven values between -3/2 and 3/2. *)
Definition cycle_normal (g : nat) : Q * nat :=
  ((Z.of_nat (g mod 7) - 3) # 2, S g).

(** A square root truncated to three decimals. *)
Definition sqrt_milli (q : Q) : Q :=
  Z.sqrt (Qfloor (q * 1000000)) # 1000.

(** A price path starting at [p] whose simple returns are [rs]. *)
Fixpoint prices_from (p : Q) (rs : list Q) : list Q :=
  p :: match rs with
       | [] => []
       | r :: rest => prices_from (p * (1 + r)) rest
       end.

(** An estimator holding the return series [rs]. *)
Definition estimator_of (rs : list Q) : VaRCalculator :=
  mkVaRCalculator "SPY" "2024-01-01" "2025-01-01"
    (map Fin (prices_from 100 rs)) (map Fin rs).

(** A provider with no data for the ticker NONE and one price otherwise. *)
Definition sparse_provider : string -> string -> string -> DataFrame :=
  fun ticker _ _ => if String.eqb ticker "NONE" then mkFrame [] else mkFrame [100].

(** A provider for the call without an end date. *)
Definition provider_from (prices : list Q) : string -> string -> DataFrame :=
  fun _ _ => mkFrame prices.

(** Stand-ins for the functions of scipy: a logarithm replaced by its
    first-order term, constant moments, a kernel estimate peaked at zero and
    a flat density. *)
Definition log_linear (q : Q) : Q := q - 1.
Definition flat_moment (s : list float) : float := Fin 0.
Definition kde_peak_at_zero (data : list float) : result (float -> float) :=
  OK (fun x => Fopp (Fabs x)).
Definition flat_pdf (x mean std : float) : float := Fin 1.

(** Two rows of prices and log returns. *)
Definition example_frame : list (float * float) :=
  [(Fin 101, Fin (1 # 100)); (Fin 99, Fin (-2 # 100))].

Definition provider_of (prices : list Q) : string -> string -> string -> DataFrame :=
  fun _ _ _ => mkFrame prices.

Section Estimator.

#[local] Set Default Proof Using "Type".

(** The square root on non-negative rationals, as the floating-point unit
    computes it; it is applied to the reduced fraction, so its value
    depends on the number only. *)
Variable sqrtQ : Q -> Q.

(** The floating-point square root is never negative; only the proofs that
    name this hypothesis depend on it. *)
Hypothesis sqrtQ_nonneg : forall q, 0 <= sqrtQ q.

(** The state of the global generator and one standard-normal draw. *)
Variable rng : Type.
Variable standard_normal : rng -> Q * rng.

(** [yf.download(ticker, start, end, ...)]. *)
Variable yf_download : string -> string -> string -> DataFrame.

Definition Fsqrt (x : float) : float :=
  match x with
  | Fin q => match q ?= 0 with Lt => NaN | _ => Fin (sqrtQ (Qred q)) end
  | PInf => PInf
  | NInf | NaN => NaN
  end.

(** [Series.std()]: [ddof = 1]; NaN when at most one value is present. *)
Definition Series_std (s : Series) : float :=
  let values := dropna s in
  let count := length values in
  if (count <=? 1)%nat then NaN
  else
    let avg := Fdiv (Fsum values) (Fin (of_nat count)) in
    let sqr := map (fun x => let d := Fsub avg x in Fmul d d) values in
    Fsqrt (Fdiv (Fsum sqr) (Fin (of_nat count - 1))).

(** The textbook sample standard deviation, with this square root. *)
Definition sample_std (xs : list Q) : Q := sqrtQ (Qred (sample_variance xs)).

(** *** State and exceptions *)

Definition M (A : Type) : Type := rng -> result (A * rng).

Definition ret {A : Type} (a : A) : M A := fun g => OK (a, g).

Definition bind {A B : Type} (m : M A) (k : A -> M B) : M B :=
  fun g => match m g with
           | OK (a, g') => k a g'
           | Raise e => Raise e
           end.

Definition lift {A : Type} (r : result A) : M A :=
  fun g => match r with
           | OK a => OK (a, g)
           | Raise e => Raise e
           end.

Notation "x <- m ;; k" := (bind m (fun x => k))
  (at level 61, m at next level, right associativity).

(** [n] successive standard-normal draws. *)
Fixpoint draws (n : nat) (g : rng) : list Q * rng :=
  match n with
  | O => ([], g)
  | S n' =>
      let (z, g1) := standard_normal g in
      let (zs, g2) := draws n' g1 in
      (z :: zs, g2)
  end.

(** [np.random.normal(loc, scale, size)]: [loc + scale * z] for each
    standard draw [z]; a negative scale is refused. *)
Definition np_random_normal (loc scale : float) (size : nat) : M ndarray :=
  fun g =>
    match Fsign scale with
    | Some Lt => Raise (mkExc ValueError "scale < 0")
    | _ =>
        let (zs, g') := draws size g in
        OK (map (fun z => Fadd loc (Fmul scale (Fin z))) zs, g')
    end.

(** *** Construction *)

Definition _download_data (ticker start_date end_date : string) : result Series :=
  let asset := yf_download ticker start_date end_date in
  if frame_empty asset
  then Raise (mkExc ValueError
                ("No se encontraron datos para " ++ ticker ++ " en el periodo dado."))
  else OK (column_Adj_Close asset).

Definition _calculate_returns (data : Series) : result Series :=
  let returns := dropna (pct_change data) in
  if empty returns
  then Raise (mkExc ValueError
                "Serie de retornos vacía. Ajusta el período o activo seleccionado.")
  else OK returns.

Definition __init__ (ticker start_date end_date : string) : result VaRCalculator :=
  result_bind (_download_data ticker start_date end_date) (fun data =>
  result_bind (_calculate_returns data) (fun returns =>
  OK (mkVaRCalculator ticker start_date end_date data returns))).

(** *** The three estimators *)

Definition var_parametric (self : VaRCalculator) (confidence_level : Q) : M float :=
  let mean := Series_mean (returns self) in
  let std_dev := Series_std (returns self) in
  sample <- np_random_normal (Fin 0) (Fin 1) standard_sample_size ;;
  z <- lift (np_percentile sample (confidence_level * 100)) ;;
  let var := Fadd mean (Fmul std_dev z) in
  ret (Fabs var).

Definition var_historical (self : VaRCalculator) (confidence_level : Q) : M float :=
  var <- lift (np_percentile (returns self) (confidence_level * 100)) ;;
  ret (Fabs var).

Definition var_monte_carlo (self : VaRCalculator) (confidence_level : Q)
    (simulations : nat) : M float :=
  let mean := Series_mean (returns self) in
  let std_dev := Series_std (returns self) in
  simulated_returns <- np_random_normal mean std_dev simulations ;;
  var <- lift (np_percentile simulated_returns (confidence_level * 100)) ;;
  ret (Fabs var).

(** The arrays the two sampled estimators take their percentile of. *)
Definition standard_sample (g : rng) : ndarray :=
  map (fun z => Fadd (Fin 0) (Fmul (Fin 1) (Fin z)))
      (fst (draws standard_sample_size g)).

Definition simulated_sample (self : VaRCalculator) (simulations : nat) (g : rng)
    : ndarray :=
  map (fun z => Fadd (Series_mean (returns self))
                     (Fmul (Series_std (returns self)) (Fin z)))
      (fst (draws simulations g)).

(** *** Summary: the loop appends one row per level

    The row is a dict literal, evaluated from left to right: the label is
    formed first, then the parametric, historical and Monte Carlo values. *)

Fixpoint summary_loop (self : VaRCalculator) (confidence_levels : list Q)
    (summary : list SummaryRow) : M (list SummaryRow) :=
  match confidence_levels with
  | [] => ret summary
  | cl :: rest =>
      label <- lift (level_label cl) ;;
      p <- var_parametric self cl ;;
      h <- var_historical self cl ;;
      m <- var_monte_carlo self cl default_simulations ;;
      summary_loop self rest (summary ++ [mkRow label p h m])
  end.

Definition get_var_summary (self : VaRCalculator) (confidence_levels : list Q)
    : M (list SummaryRow) :=
  summary_loop self confidence_levels [].

(** The script at the end of the module: build the estimator for SPY over
    2024, print its summary; a [ValueError] raised on the way is caught and
    its message printed, any other exception escapes. *)
Definition main (g : rng) : result (list printed) :=
  let ticker := "SPY" in
  let start_date := "2024-01-01" in
  let end_date := "2025-01-01" in
  let body :=
    result_bind (__init__ ticker start_date end_date) (fun var_calc =>
      match get_var_summary var_calc default_confidence_levels g with
      | OK (summary, _) => OK [print_frame summary]
      | Raise e => Raise e
      end) in
  match body with
  | OK out => OK out
  | Raise e =>
      match exc_type e with
      | ValueError => OK [print_str (exc_msg e)]
      | _ => Raise e
      end
  end.

(** The error [np.percentile] raises on a percentile outside [0, 100]. *)
Definition percentile_range_error : exception :=
  mkExc ValueError "Percentiles must be in the range [0, 100]".

(** *** Distribucion.py

    The methods of [DistributionPlot] are embedded as functions of the
    attributes they read, which [run] has set by the time it calls them.
    The functions of scipy are parameters: the natural logarithm on positive
    rationals, the sample skewness and kurtosis, the Gaussian kernel density
    estimate (which may refuse its data) and the normal density. *)
Variable logQ : Q -> Q.
Variable skew : Series -> float.
Variable kurtosis : Series -> float.
Variable gaussian_kde : ndarray -> result (float -> float).
Variable norm_pdf : float -> float -> float -> float.

(** [yf.download(ticker, start=start_date)]. *)
Variable yf_download_from : string -> string -> DataFrame.

(** [np.log]: minus infinity at zero, NaN below. *)
Definition Flog (x : float) : float :=
  match x with
  | Fin q =>
      match q ?= 0 with
      | Gt => Fin (logQ (Qred q))
      | Eq => NInf
      | Lt => NaN
      end
  | PInf => PInf
  | NInf | NaN => NaN
  end.

(** [download_data]: the prices are finite, so the first [dropna] keeps
    every row; the log return of a row is the logarithm of the ratio to the
    previous close, and the rows where it is NaN are dropped. *)
Definition download_data (ticker start_date : string) : LogFrame :=
  let df := yf_download_from ticker start_date in
  let adj_close := column_Adj_Close df in
  let log_return :=
    map (fun '(cur, prev) => Flog (Fdiv cur prev))
        (combine adj_close (shift adj_close)) in
  filter (fun row => negb (isnan (snd row))) (combine adj_close log_return).

Definition compute_statistics (df : LogFrame) : result Statistics :=
  let log_ret := map snd df in
  let mean_return := Series_mean log_ret in
  let std_return := Series_std log_ret in
  let skewness := skew log_ret in
  let excess_kurtosis := kurtosis log_ret in
  let data := log_ret in
  result_bind (np_min data) (fun all_min =>
  result_bind (np_max data) (fun all_max =>
  let x_kde := np_linspace all_min all_max kde_grid_size in
  result_bind (gaussian_kde data) (fun kde =>
  let pdf_kde := map kde x_kde in
  result_bind (np_argmax pdf_kde) (fun idx_mode =>
  result_bind (take x_kde (Z.of_nat idx_mode)) (fun mode_val =>
  OK (mkStatistics mean_return std_return skewness excess_kurtosis
                   mode_val all_min all_max)))))).

Definition prepare_plot_data (df : LogFrame) (stats : Statistics) (num_bins : nat)
    : result PlotData :=
  let data := map snd df in
  let bin_edges := np_linspace (all_min stats) (all_max stats) (num_bins + 1) in
  let xvals := np_linspace (all_min stats) (all_max stats) kde_grid_size in
  let pdf_normal :=
    map (fun x => norm_pdf x (mean_return stats) (std_return stats)) xvals in
  result_bind (gaussian_kde data) (fun kde =>
  let pdf_kde := map kde xvals in
  let total_points := Fin (of_nat (length data)) in
  let bin_width :=
    Fdiv (Fsub (all_max stats) (all_min stats)) (Fin (of_nat num_bins)) in
  OK (mkPlotData bin_edges xvals
        (map (fun v => Fmul (Fmul v total_points) bin_width) pdf_normal)
        (map (fun v => Fmul (Fmul v total_points) bin_width) pdf_kde))).

(** The width [prepare_plot_data] scales the two densities by. *)
Definition bin_width (stats : Statistics) (num_bins : nat) : float :=
  Fdiv (Fsub (all_max stats) (all_min stats)) (Fin (of_nat num_bins)).

(** The two construction failures, under the names the specification
    gives them. *)
Definition DataUnavailableError (ticker : string) : exception :=
  mkExc ValueError
    ("No se encontraron datos para " ++ ticker ++ " en el periodo dado.").

Definition EmptyReturnsError : exception :=
  mkExc ValueError
    "Serie de retornos vacía. Ajusta el período o activo seleccionado.".

(** A row as the loop computes it for level [cl]. *)
Definition row_computed (self : VaRCalculator) (cl : Q) (row : SummaryRow) : Prop :=
  level_label cl = OK (Confidence_Level row) /\
  (exists g g', var_parametric self cl g = OK (Parametric_VaR row, g')) /\
  (exists g, var_historical self cl g = OK (Historical_VaR row, g)) /\
  (exists g g', var_monte_carlo self cl default_simulations g
                = OK (Monte_Carlo_VaR row, g')).

(** The integer part of a rational that is not negative. *)
Definition integer_part (p : Q) (k : Z) : Prop :=
  inject_Z k <= p /\ p < inject_Z k + 1.


(** ** Lemmas: binary64 rounding and the row label *)

Lemma pow2_pos (e : Z) : 0 < pow2 e.
Proof. unfold pow2. apply Qpower_0_lt. reflexivity. Qed.

Lemma pow2_add (a b : Z) : pow2 (a + b) == pow2 a * pow2 b.
Proof. unfold pow2. apply Qpower_plus. discriminate. Qed.

Lemma pow2_inject (k : Z) : (0 <= k)%Z -> pow2 k == inject_Z (2 ^ k).
Proof. intros Hk. unfold pow2. now rewrite (Zpower_Qpower 2 k Hk). Qed.

Lemma pow2_lt (a b : Z) : (a < b)%Z -> pow2 a < pow2 b.
Proof. intros H. unfold pow2. apply Qpower_lt_compat_l; [exact H | reflexivity]. Qed.

Lemma round_half_even_range (x : Q) :
  (Qfloor x <= round_half_even x <= Qfloor x + 1)%Z.
Proof.
  unfold round_half_even.
  destruct (x - inject_Z (Qfloor x) ?= 1 # 2); [destruct (Z.even (Qfloor x))| |]; lia.
Qed.

Lemma round_half_even_nonneg (x : Q) : 0 <= x -> (0 <= round_half_even x)%Z.
Proof.
  intros Hx. pose proof (round_half_even_range x) as [Hl _].
  pose proof (Qfloor_resp_le 0 x Hx) as H0. change (Qfloor 0) with 0%Z in H0. lia.
Qed.

Lemma round_half_even_le (x : Q) (N : Z) :
  x <= inject_Z N -> (round_half_even x <= N)%Z.
Proof.
  intros Hx.
  pose proof (Qfloor_resp_le _ _ Hx) as Hf. rewrite Qfloor_Z in Hf.
  destruct (Z.eq_dec (Qfloor x) N) as [E|E].
  - unfold round_half_even. rewrite E.
    destruct (x - inject_Z N ?= 1 # 2) eqn:C; [| lia |].
    + apply Qeq_alt in C. lra.
    + apply Qgt_alt in C. lra.
  - pose proof (round_half_even_range x). lia.
Qed.

Lemma ilog2_le (q : Q) (k : Z) :
  0 < q -> (0 <= k)%Z -> q <= pow2 k -> (ilog2 q <= k)%Z.
Proof.
  intros Hq Hk Hle.
  assert (Hj : (Z.log2 (Qnum q) - Z.log2 (Zpos (Qden q)) <= k)%Z).
  { rewrite (pow2_inject k Hk) in Hle.
    destruct q as [n d]. unfold Qle, Qlt in *. cbn [Qnum Qden inject_Z] in *.
    rewrite Z.mul_1_r in *.
    assert (Hlog : (Z.log2 n <= Z.log2 (Zpos d * 2 ^ k))%Z).
    { apply Z.log2_le_mono. lia. }
    rewrite Z.log2_mul_pow2 in Hlog by lia. lia. }
  unfold ilog2. destruct (Qle_bool _ q); lia.
Qed.

Lemma round_magnitude_bounded (q : Q) (k : Z) :
  0 < q -> (0 <= k < 1024)%Z -> q <= pow2 k ->
  exists r, round_magnitude q = Fin r /\ 0 <= r /\ r <= pow2 k.
Proof.
  intros Hq Hk Hle.
  unfold round_magnitude.
  set (e := Z.max (ilog2 q - 52) (-1074)).
  assert (He : (e <= k)%Z).
  { pose proof (ilog2_le q k Hq (proj1 Hk) Hle). unfold e. lia. }
  pose proof (pow2_pos e) as Hpe.
  set (m := round_half_even (q / pow2 e)).
  assert (Hx : 0 <= q / pow2 e).
  { apply Qle_shift_div_l; [exact Hpe | lra]. }
  assert (Hm0 : (0 <= m)%Z) by (now apply round_half_even_nonneg).
  assert (Hsplit : pow2 k == pow2 (k - e) * pow2 e).
  { rewrite <- pow2_add. now replace (k - e + e)%Z with k by lia. }
  assert (HmN : (m <= 2 ^ (k - e))%Z).
  { apply round_half_even_le. rewrite <- pow2_inject by lia.
    apply Qle_shift_div_r; [exact Hpe | now rewrite <- Hsplit]. }
  assert (Hr0 : 0 <= inject_Z m * pow2 e).
  { apply Qmult_le_0_compat; [| lra].
    change 0 with (inject_Z 0). now rewrite <- Zle_Qle. }
  assert (Hrk : inject_Z m * pow2 e <= pow2 k).
  { rewrite Hsplit. apply Qmult_le_compat_r; [| lra].
    rewrite (pow2_inject (k - e)) by lia. now rewrite <- Zle_Qle. }
  assert (Hov : Qle_bool (pow2 1024) (inject_Z m * pow2 e) = false).
  { destruct (Qle_bool (pow2 1024) (inject_Z m * pow2 e)) eqn:E; [|reflexivity].
    apply Qle_bool_imp_le in E.
    pose proof (pow2_lt k 1024 (proj2 Hk)). lra. }
  rewrite Hov. eexists. split; [reflexivity|].
  rewrite Qred_correct. split; assumption.
Qed.

Lemma binary64_bounded (q : Q) (k : Z) :
  0 <= q -> (0 <= k < 1024)%Z -> q <= pow2 k ->
  exists r, binary64 q = Fin r /\ 0 <= r /\ r <= pow2 k.
Proof.
  intros Hq Hk Hle. unfold binary64.
  destruct (q ?= 0) eqn:C.
  - exists 0. split; [reflexivity|]. split; [lra|]. pose proof (pow2_pos k). lra.
  - apply Qlt_alt in C. lra.
  - apply Qgt_alt in C. now apply round_magnitude_bounded.
Qed.

Lemma ilog2_spec (q : Q) :
  0 < q -> pow2 (ilog2 q) <= q /\ q < pow2 (ilog2 q + 1).
Proof.
  intros Hq. destruct q as [n d].
  assert (Hn : (0 < n)%Z) by (unfold Qlt in Hq; cbn in Hq; lia).
  set (a := Z.log2 n). set (b := Z.log2 (Zpos d)).
  assert (Ha : (2 ^ a <= n < 2 ^ (a + 1))%Z).
  { unfold a. rewrite Z.add_1_r. exact (Z.log2_spec n Hn). }
  assert (Hb : (2 ^ b <= Zpos d < 2 ^ (b + 1))%Z).
  { unfold b. rewrite Z.add_1_r. exact (Z.log2_spec (Zpos d) eq_refl). }
  assert (Ha0 : (0 <= a)%Z) by apply Z.log2_nonneg.
  assert (Hb0 : (0 <= b)%Z) by apply Z.log2_nonneg.
  assert (Eq : n # d == inject_Z n / inject_Z (Zpos d)) by apply Qmake_Qdiv.
  assert (Hd : 0 < inject_Z (Zpos d)) by reflexivity.
  assert (Hqd : (n # d) * inject_Z (Zpos d) == inject_Z n).
  { rewrite Eq. field. lra. }
  assert (An : pow2 a <= inject_Z n /\ inject_Z n < pow2 (a + 1)).
  { rewrite !pow2_inject by lia. rewrite <- Zle_Qle, <- Zlt_Qlt. exact Ha. }
  assert (Ad : pow2 b <= inject_Z (Zpos d) /\ inject_Z (Zpos d) < pow2 (b + 1)).
  { rewrite !pow2_inject by lia. rewrite <- Zle_Qle, <- Zlt_Qlt. exact Hb. }
  assert (Up : n # d < pow2 (a - b + 1)).
  { apply (Qmult_lt_r _ _ (inject_Z (Zpos d)) Hd). rewrite Hqd.
    assert (E : pow2 (a + 1) == pow2 (a - b + 1) * pow2 b).
    { rewrite <- pow2_add. now replace (a - b + 1 + b)%Z with (a + 1)%Z by lia. }
    pose proof (pow2_pos (a - b + 1)) as P.
    assert (pow2 (a - b + 1) * pow2 b <= pow2 (a - b + 1) * inject_Z (Zpos d))
      by (apply Qmult_le_l; [exact P | apply Ad]).
    lra. }
  assert (Lo : pow2 (a - b - 1) <= n # d).
  { apply (Qmult_le_r _ _ (inject_Z (Zpos d)) Hd). rewrite Hqd.
    assert (E : pow2 a == pow2 (a - b - 1) * pow2 (b + 1)).
    { rewrite <- pow2_add. now replace (a - b - 1 + (b + 1))%Z with a by lia. }
    pose proof (pow2_pos (a - b - 1)) as P.
    assert (pow2 (a - b - 1) * inject_Z (Zpos d) <= pow2 (a - b - 1) * pow2 (b + 1))
      by (apply Qmult_le_l; [exact P | apply Qlt_le_weak, Ad]).
    lra. }
  unfold ilog2. cbn [Qnum Qden]. fold a b.
  destruct (Qle_bool (pow2 (a - b)) (n # d)) eqn:E.
  - apply Qle_bool_iff in E. split; assumption.
  - replace (a - b - 1 + 1)%Z with (a - b)%Z by lia. split; [exact Lo|].
    apply Qnot_le_lt. intros H. apply Qle_bool_iff in H. congruence.
Qed.

Lemma round_half_even_near (x : Q) :
  Qabs (inject_Z (round_half_even x) - x) <= 1 # 2.
Proof.
  pose proof (Qfloor_le x) as Hl. pose proof (Qlt_floor x) as Hu.
  rewrite inject_Z_plus in Hu. change (inject_Z 1) with 1 in Hu.
  unfold round_half_even.
  destruct (x - inject_Z (Qfloor x) ?= 1 # 2) eqn:C.
  - apply Qeq_alt in C.
    destruct (Z.even (Qfloor x)); [|rewrite inject_Z_plus; change (inject_Z 1) with 1];
      apply Qabs_case; intros; lra.
  - apply Qlt_alt in C. apply Qabs_case; intros; lra.
  - apply Qgt_alt in C. rewrite inject_Z_plus. change (inject_Z 1) with 1.
    apply Qabs_case; intros; lra.
Qed.

(** [binary64] rounds to nearest: a finite result [m * 2^e] has at most 53
    significant bits, an exponent not below that of the subnormals, the
    smallest exponent the magnitude allows, and lies within half a unit in
    the last place of the rational. *)
Lemma round_magnitude_nearest (q r : Q) :
  0 < q -> round_magnitude q = Fin r ->
  exists (m e : Z),
    r == inject_Z m * pow2 e /\
    (0 <= m <= 2 ^ 53)%Z /\ (-1074 <= e)%Z /\
    (e = (-1074)%Z \/ pow2 (e + 52) <= q) /\
    Qabs (r - q) <= pow2 e * (1 # 2).
Proof.
  intros Hq. unfold round_magnitude.
  set (e := Z.max (ilog2 q - 52) (-1074)).
  set (m := round_half_even (q / pow2 e)).
  destruct (Qle_bool (pow2 1024) (inject_Z m * pow2 e)); [discriminate|].
  intros E. injection E as <-.
  pose proof (pow2_pos e) as Hpe.
  destruct (ilog2_spec q Hq) as [Hlo Hup].
  assert (Hx : 0 <= q / pow2 e) by (apply Qle_shift_div_l; [exact Hpe | lra]).
  exists m, e. split; [exact (Qred_correct _)|]. split; [split|split; [|split]].
  - now apply round_half_even_nonneg.
  - apply round_half_even_le. rewrite <- pow2_inject by lia.
    apply Qle_shift_div_r; [exact Hpe|]. rewrite <- pow2_add.
    apply Qlt_le_weak. eapply Qlt_le_trans; [exact Hup|].
    destruct (Z.eq_dec (ilog2 q + 1) (53 + e)) as [-> | Hne]; [lra|].
    apply Qlt_le_weak, pow2_lt. unfold e in *. lia.
  - unfold e. lia.
  - destruct (Z.eq_dec e (-1074)) as [He | He]; [now left | right].
    replace (e + 52)%Z with (ilog2 q) by (unfold e in *; lia). exact Hlo.
  - pose proof (Qred_correct (inject_Z m * pow2 e)) as Er. rewrite Er.
    pose proof (round_half_even_near (q / pow2 e)) as Hn. fold m in Hn.
    assert (Eq : inject_Z m * pow2 e - q == (inject_Z m - q / pow2 e) * pow2 e)
      by (field; lra).
    rewrite Eq, Qabs_Qmult, (Qabs_pos (pow2 e)) by lra.
    rewrite (Qmult_comm (pow2 e)). apply Qmult_le_compat_r; [exact Hn | lra].
Qed.

Lemma pow2_le (a b : Z) : (a <= b)%Z -> pow2 a <= pow2 b.
Proof.
  intros H. destruct (Z.eq_dec a b) as [-> | Hne]; [lra|].
  apply Qlt_le_weak, pow2_lt. lia.
Qed.

(** Among the multiples of [2^e], the one [round_half_even] selects is
    nearest to [q]. *)
Lemma round_half_even_nearest_multiple (q : Q) (e n : Z) :
  Qabs (inject_Z (round_half_even (q / pow2 e)) * pow2 e - q)
  <= Qabs (inject_Z n * pow2 e - q).
Proof.
  pose proof (pow2_pos e) as Hpe.
  set (x := q / pow2 e). set (m := round_half_even x).
  assert (Em : inject_Z m * pow2 e - q == (inject_Z m - x) * pow2 e)
    by (unfold x; field; lra).
  assert (En : inject_Z n * pow2 e - q == (inject_Z n - x) * pow2 e)
    by (unfold x; field; lra).
  rewrite Em, En, !Qabs_Qmult, (Qabs_pos (pow2 e)) by lra.
  apply Qmult_le_compat_r; [|lra].
  pose proof (round_half_even_near x) as Hn. fold m in Hn.
  destruct (Z.eq_dec n m) as [-> | Hne]; [lra|].
  assert (H1 : inject_Z n - inject_Z m <= -1 \/ 1 <= inject_Z n - inject_Z m).
  { destruct (Z_lt_le_dec n m) as [L | L]; [left | right].
    - assert (A : inject_Z n + 1 <= inject_Z m)
        by (change 1 with (inject_Z 1); rewrite <- inject_Z_plus, <- Zle_Qle; lia).
      lra.
    - assert (A : inject_Z m + 1 <= inject_Z n)
        by (change 1 with (inject_Z 1); rewrite <- inject_Z_plus, <- Zle_Qle; lia).
      lra. }
  revert Hn.
  apply (Qabs_case (inject_Z m - x)); intros A;
    apply (Qabs_case (inject_Z n - x)); intros C; lra.
Qed.

Lemma round_magnitude_nearest_binary64 (q r : Q) :
  0 < q -> round_magnitude q = Fin r -> nearest_binary64 q r.
Proof.
  intros Hq. unfold round_magnitude.
  set (e := Z.max (ilog2 q - 52) (-1074)).
  set (m := round_half_even (q / pow2 e)).
  destruct (Qle_bool (pow2 1024) (inject_Z m * pow2 e)) eqn:Ov; [discriminate|].
  intros E.
  assert (Er : r == inject_Z m * pow2 e).
  { injection E as E'. rewrite <- E'. exact (Qred_correct _). }
  clear E.
  pose proof (pow2_pos e) as Hpe.
  destruct (ilog2_spec q Hq) as [Hlo Hup].
  assert (Hx : 0 <= q / pow2 e) by (apply Qle_shift_div_l; [exact Hpe | lra]).
  assert (Hm0 : (0 <= m)%Z) by now apply round_half_even_nonneg.
  assert (Hm53 : (m <= 2 ^ 53)%Z).
  { apply round_half_even_le. rewrite <- pow2_inject by lia.
    apply Qle_shift_div_r; [exact Hpe|]. rewrite <- pow2_add.
    apply Qlt_le_weak. eapply Qlt_le_trans; [exact Hup|].
    apply pow2_le. unfold e. lia. }
  assert (He : (-1074 <= e)%Z) by (unfold e; lia).
  assert (Hr0 : 0 <= r).
  { rewrite Er. apply Qmult_le_0_compat; [|lra].
    change 0 with (inject_Z 0). now rewrite <- Zle_Qle. }
  assert (Hfin : Qabs r < pow2 1024).
  { rewrite Qabs_pos by exact Hr0. rewrite Er. apply Qnot_le_lt. intros H.
    apply Qle_bool_iff in H. congruence. }
  split.
  - destruct (Z.eq_dec m (2 ^ 53)) as [Em | Hne].
    + exists (2 ^ 52)%Z, (e + 1)%Z. split; [|split; [|split]].
      * rewrite Er, Em, pow2_add.
        change (pow2 1) with 2.
        change (inject_Z (2 ^ 53)) with (inject_Z (2 ^ 52) * 2). ring.
      * reflexivity.
      * lia.
      * exact Hfin.
    + exists m, e. split; [exact Er|]. split; [lia|]. split; assumption.
  - intros r' [m' [e' [Er' [Hm' [He' _]]]]].
    rewrite Er.
    destruct (Z_le_gt_dec e e') as [Le | Gt].
    + (* a multiple of 2^e *)
      assert (Emul : r' == inject_Z (m' * 2 ^ (e' - e)) * pow2 e).
      { rewrite Er', inject_Z_mult, <- pow2_inject by lia.
        rewrite <- Qmult_assoc, <- pow2_add.
        now replace (e' - e + e)%Z with e' by lia. }
      rewrite Emul. apply round_half_even_nearest_multiple.
    + (* below the binade of q *)
      assert (Ej : e = (ilog2 q - 52)%Z) by (unfold e in *; lia).
      eapply Qle_trans; [apply (round_half_even_nearest_multiple q e (2 ^ 52))|].
      assert (E52 : inject_Z (2 ^ 52) * pow2 e == pow2 (ilog2 q)).
      { rewrite <- (pow2_inject 52) by lia. rewrite <- pow2_add.
        now replace (52 + e)%Z with (ilog2 q) by lia. }
      rewrite E52.
      assert (Hr' : r' < pow2 (ilog2 q)).
      { rewrite Er'.
        assert (Hm'' : inject_Z m' < pow2 53).
        { rewrite (pow2_inject 53) by lia. rewrite <- Zlt_Qlt. lia. }
        pose proof (pow2_pos e') as Hpe'.
        assert (A : inject_Z m' * pow2 e' < pow2 53 * pow2 e')
          by (apply Qmult_lt_compat_r; assumption).
        rewrite <- pow2_add in A.
        eapply Qlt_le_trans; [exact A|]. apply pow2_le. lia. }
      rewrite Qabs_neg by lra. rewrite Qabs_neg by lra. lra.
Qed.

Lemma binary64_nearest (q r : Q) :
  0 <= q -> binary64 q = Fin r -> nearest_binary64 q r.
Proof.
  intros Hq. unfold binary64. destruct (q ?= 0) eqn:C.
  - apply Qeq_alt in C. intros E. injection E as <-. split.
    + exists 0%Z, 0%Z. split; [reflexivity|]. split; [reflexivity|].
      split; [lia | reflexivity].
    + intros r' _. rewrite C. change (0 - 0) with 0. apply Qabs_nonneg.
  - apply Qlt_alt in C. lra.
  - apply Qgt_alt in C. now apply round_magnitude_nearest_binary64.
Qed.

(** The product [cl * 100] of a level in [[0, 1]] is a finite float, never
    negative: a binary64 nearest to the exact product of 100 and a binary64
    nearest to the level. *)
Lemma level_product_finite (cl : Q) :
  0 <= cl <= 1 ->
  exists c p,
    binary64 cl = Fin c /\ float_mul (Fin c) (Fin 100) = Fin p /\
    nearest_binary64 cl c /\ nearest_binary64 (c * 100) p /\ 0 <= p.
Proof.
  intros [H0 H1].
  destruct (binary64_bounded cl 0 H0) as [c [Ec [Hc0 Hc1]]]; [lia | exact H1 |].
  change (pow2 0) with 1 in Hc1.
  destruct (binary64_bounded (c * 100) 7) as [p [Ep [Hp0 _]]];
    [lra | lia | change (pow2 7) with 128; lra |].
  exists c, p. split; [exact Ec|]. split; [exact Ep|].
  split; [now apply binary64_nearest|].
  split; [apply binary64_nearest; [lra | exact Ep] | exact Hp0].
Qed.

Lemma int_Fin_nonneg (p : Q) :
  0 <= p ->
  exists k : Z, int (Fin p) = OK k /\ inject_Z k <= p /\ p < inject_Z k + 1.
Proof.
  intros Hp. exists (Qfloor p). split; [|split].
  - unfold int, Qfloor. destruct p as [n d]. cbn [Qnum Qden].
    f_equal. apply Z.quot_div_nonneg; [| reflexivity].
    unfold Qle in Hp. cbn in Hp. lia.
  - apply Qfloor_le.
  - pose proof (Qlt_floor p) as H. rewrite inject_Z_plus in H. exact H.
Qed.

Lemma integer_part_unique (p : Q) (j k : Z) :
  inject_Z j <= p -> p < inject_Z j + 1 ->
  inject_Z k <= p -> p < inject_Z k + 1 -> j = k.
Proof.
  intros H1 H2 H3 H4.
  assert (A : inject_Z j < inject_Z (k + 1)) by (rewrite inject_Z_plus; change (inject_Z 1) with 1; lra).
  assert (B : inject_Z k < inject_Z (j + 1)) by (rewrite inject_Z_plus; change (inject_Z 1) with 1; lra).
  rewrite <- Zlt_Qlt in A, B. lia.
Qed.

Lemma level_label_valid (cl : Q) :
  0 <= cl <= 1 ->
  exists c p k,
    binary64 cl = Fin c /\ float_mul (Fin c) (Fin 100) = Fin p /\
    nearest_binary64 cl c /\ nearest_binary64 (c * 100) p /\
    integer_part p k /\
    level_label cl = OK (NilZero.string_of_int (Z.to_int k) ++ "%").
Proof.
  intros Hcl.
  destruct (level_product_finite cl Hcl) as [c [p [Ec [Ep [Nc [Np Hp]]]]]].
  destruct (int_Fin_nonneg p Hp) as [k [Ek [Hk1 Hk2]]].
  exists c, p, k. repeat (split; [assumption|]).
  split; [split; assumption|].
  unfold level_label. rewrite Ec, Ep, Ek. reflexivity.
Qed.

(** A level whose product with 100 is finite has a label; an infinite
    product has none. *)
Lemma level_label_finite (cl p : Q) :
  float_mul (binary64 cl) (Fin 100) = Fin p -> exists l, level_label cl = OK l.
Proof. intros E. unfold level_label. rewrite E. cbn. eexists. reflexivity. Qed.

Lemma level_label_infinite (cl : Q) :
  float_mul (binary64 cl) (Fin 100) = PInf \/
  float_mul (binary64 cl) (Fin 100) = NInf ->
  level_label cl = Raise float_overflow_error.
Proof. intros [E|E]; unfold level_label; rewrite E; reflexivity. Qed.

(** On every whole-percent level the label agrees with the one the kernel's
    binary64 division and product give. *)
Lemma level_label_agrees_with_primitive_floats :
  forallb (fun k =>
    match level_label (inject_Z (Z.of_nat k) / 100),
          Prim.label_of (Z.of_nat k) 100 with
    | OK a, OK b => String.eqb a b
    | _, _ => false
    end) (seq 0 101) = true.
Proof. vm_compute. reflexivity. Qed.

(** The rounded product agrees with the kernel's on operands that exercise
    the corners of the format: ordinary values, a tie and a non-tie among
    the subnormals, underflow to zero, the largest finite value and
    overflow. *)
Lemma float_mul_agrees_with_primitive_floats :
  forallb (fun '(m1, e1, m2, e2) =>
    float_eqb (float_mul (Fin (inject_Z m1 * pow2 e1)) (Fin (inject_Z m2 * pow2 e2)))
              (Prim.product m1 e1 m2 e2))
    [(5224175567749775, -54, 100, 0); (2702159776422298, -54, 100, 0);
     (1, -600, 3, -475); (1, -600, 1, -475); (1, -600, 1, -474);
     (3, -600, 1, -476); (5, -600, 1, -476); (7, -600, 9, -480);
     (9007199254740991, 970, 2, 0); (9007199254740991, 971, 2, 0);
     (9007199254740991, 0, 9007199254740991, 0);
     (6004799503160661, -54, 3, 0); (1, 1023, 1, -1074)]%Z = true.
Proof. vm_compute. reflexivity. Qed.

(** The labels of a few levels: binary64 gives 28.999999999999996 for
    [0.29 * 100], and 15.0 for [0.15 * 100] although the float [0.15] lies
    below 15/100. *)
Lemma level_label_examples :
  map level_label [1 # 100; 5 # 100; 1 # 10; 15 # 100; 29 # 100; 57 # 100; 58 # 100; 1]
  = map OK ["1%"; "5%"; "10%"; "15%"; "28%"; "56%"; "57%"; "100%"].
Proof. vm_compute. reflexivity. Qed.

(** ** Lemmas: the float layer on finite values *)

Lemma insert_sorted_length (x : float) (l : ndarray) :
  length (insert_sorted x l) = S (length l).
Proof.
  induction l as [|y l IH]; simpl; [reflexivity|].
  destruct (Fleb x y); simpl; [reflexivity | now rewrite IH].
Qed.

Lemma np_sort_length (l : ndarray) : length (np_sort l) = length l.
Proof.
  unfold np_sort.
  induction l as [|x l IH]; simpl; [reflexivity|].
  now rewrite insert_sorted_length, IH.
Qed.

Lemma insertQ_length (x : Q) (l : list Q) : length (insertQ x l) = S (length l).
Proof.
  induction l as [|y l IH]; simpl; [reflexivity|].
  destruct (Qle_bool x y); simpl; [reflexivity | now rewrite IH].
Qed.

Lemma sortQ_length (l : list Q) : length (sortQ l) = length l.
Proof.
  unfold sortQ.
  induction l as [|x l IH]; simpl; [reflexivity|].
  now rewrite insertQ_length, IH.
Qed.

Lemma insert_sorted_Fin (x : Q) (l : list Q) :
  insert_sorted (Fin x) (map Fin l) = map Fin (insertQ x l).
Proof.
  induction l as [|y l IH]; simpl; [reflexivity|].
  destruct (Qle_bool x y); simpl; [reflexivity | now rewrite IH].
Qed.

Lemma np_sort_Fin (l : list Q) : np_sort (map Fin l) = map Fin (sortQ l).
Proof.
  unfold np_sort, sortQ.
  induction l as [|x l IH]; simpl; [reflexivity|].
  now rewrite IH, insert_sorted_Fin.
Qed.

Lemma take_nonneg (arr : ndarray) (i : Z) :
  (0 <= i < Z.of_nat (length arr))%Z ->
  take arr i = OK (nth (Z.to_nat i) arr NaN).
Proof.
  intros [H0 H1]. unfold take.
  destruct (Z.ltb_spec i 0); [lia|].
  destruct (Z.leb_spec 0 i); [|lia].
  destruct (Z.ltb_spec i (Z.of_nat (length arr))); [reflexivity | lia].
Qed.

Lemma take_last (arr : ndarray) :
  arr <> [] -> take arr (-1) = OK (nth (length arr - 1) arr NaN).
Proof.
  intros Hne. unfold take.
  assert (1 <= length arr)%nat by (destruct arr; simpl; [congruence | lia]).
  change (-1 <? 0)%Z with true. cbv iota.
  destruct (Z.leb_spec 0 (Z.of_nat (length arr) + -1)); [|lia].
  destruct (Z.ltb_spec (Z.of_nat (length arr) + -1) (Z.of_nat (length arr))); [|lia].
  simpl. do 2 f_equal. lia.
Qed.

Lemma of_nat_pred (n : nat) :
  (1 <= n)%nat -> inject_Z (Z.of_nat n - 1) == of_nat n - 1.
Proof.
  intros _. unfold of_nat, Z.sub. rewrite inject_Z_plus. reflexivity.
Qed.

(** Inside the valid range the two indexes are either both the last
    position or a position and its successor, both in bounds. *)
Lemma get_indexes_cases (h : Q) (n : nat) :
  (1 <= n)%nat -> 0 <= h -> h <= of_nat n - 1 ->
  (_get_indexes h n = ((-1)%Z, (-1)%Z) /\ h == of_nat n - 1) \/
  (_get_indexes h n = (Qfloor h, (Qfloor h + 1)%Z) /\
   (0 <= Qfloor h)%Z /\ (Qfloor h + 1 < Z.of_nat n)%Z).
Proof.
  intros Hn H0 H1. unfold _get_indexes.
  assert (Hz : Qle_bool 0 h = true) by now apply Qle_bool_iff.
  destruct (Qle_bool (of_nat n - 1) h) eqn:Hb; rewrite Hz.
  - left. split; [reflexivity|]. apply Qle_bool_iff in Hb. lra.
  - right. split; [reflexivity|].
    assert (Hlt : h < of_nat n - 1).
    { apply Qnot_le_lt. intro Hc. apply Qle_bool_iff in Hc. congruence. }
    split.
    + change 0%Z with (Qfloor 0). now apply Qfloor_resp_le.
    + pose proof (Qfloor_le h) as Hf.
      assert (Hq : inject_Z (Qfloor h) < inject_Z (Z.of_nat n - 1)).
      { rewrite of_nat_pred by assumption. lra. }
      rewrite <- Zlt_Qlt in Hq. lia.
Qed.

Lemma of_nat_ge_1 (n : nat) : (1 <= n)%nat -> 1 <= of_nat n.
Proof.
  intros H. unfold of_nat. change 1 with (inject_Z 1).
  rewrite <- Zle_Qle. lia.
Qed.

Lemma rank_range (n : nat) (q : Q) :
  (1 <= n)%nat -> 0 <= q -> q <= 1 ->
  0 <= (of_nat n - 1) * q /\ (of_nat n - 1) * q <= of_nat n - 1.
Proof.
  intros Hn H0 H1. pose proof (of_nat_ge_1 n Hn) as Hc.
  generalize dependent (of_nat n). intros c Hc.
  assert (A : 0 <= (c - 1) * q) by (apply Qmult_le_0_compat; lra).
  assert (B : 0 <= (c - 1) * (1 - q)) by (apply Qmult_le_0_compat; lra).
  split; lra.
Qed.

Lemma nonempty_length {A : Type} (l : list A) : l <> [] -> (1 <= length l)%nat.
Proof. destruct l; simpl; [congruence | lia]. Qed.

Lemma quantile_valid_iff (q : Q) :
  _quantile_is_valid q = true <-> 0 <= q /\ q <= 1.
Proof.
  unfold _quantile_is_valid. split.
  - intros H. apply andb_true_iff in H as [A B].
    split; now apply Qle_bool_iff.
  - intros [A B]. apply andb_true_iff. split; now apply Qle_bool_iff.
Qed.

(** On a non-empty array and a percentile in range, [np.percentile]
    returns a value: every index it reads is in bounds. *)
Lemma np_percentile_total (arr : ndarray) (p : Q) :
  arr <> [] -> 0 <= p / 100 -> p / 100 <= 1 ->
  exists v, np_percentile arr p = OK v.
Proof.
  intros Hne H0 H1. unfold np_percentile.
  replace (_quantile_is_valid (p / 100)) with true
    by (symmetry; now apply quantile_valid_iff).
  unfold _quantile.
  pose proof (nonempty_length arr Hne) as Hn.
  destruct (rank_range (length arr) (p / 100) Hn H0 H1) as [Ha Hb].
  assert (Hs : np_sort arr <> []).
  { intro Hc. apply (f_equal (@length float)) in Hc.
    rewrite np_sort_length in Hc. simpl in Hc. lia. }
  destruct (get_indexes_cases _ _ Hn Ha Hb) as [[-> _] | [-> [Hk0 Hk1]]].
  - rewrite (take_last _ Hs). cbn [result_bind].
    destruct (isnan _); eexists; reflexivity.
  - rewrite (take_last _ Hs). cbn [result_bind].
    rewrite !take_nonneg by (rewrite np_sort_length; lia). cbn [result_bind].
    destruct (isnan _); eexists; reflexivity.
Qed.

Lemma nth_map_Fin (s : list Q) (i : nat) :
  (i < length s)%nat -> nth i (map Fin s) NaN = Fin (nth i s 0).
Proof.
  intros H. rewrite (nth_indep _ NaN (Fin 0)) by now rewrite length_map.
  apply map_nth.
Qed.

Lemma lerp_Fin (a b t : Q) :
  exists x, _lerp (Fin a) (Fin b) t = Fin x /\ x == a + t * (b - a).
Proof.
  unfold _lerp. destruct (Qle_bool (1 # 2) t); simpl;
    eexists; (split; [reflexivity | ring]).
Qed.

(** Refinement: on finite data [np.percentile] computes the linearly
    interpolated percentile. *)
Lemma np_percentile_Fin (qs : list Q) (p : Q) :
  qs <> [] -> 0 <= p / 100 -> p / 100 <= 1 ->
  exists x, np_percentile (map Fin qs) p = OK (Fin x) /\
            x == linear_percentile qs p.
Proof.
  intros Hne H0 H1. unfold np_percentile, linear_percentile.
  replace (_quantile_is_valid (p / 100)) with true
    by (symmetry; now apply quantile_valid_iff).
  unfold _quantile. rewrite length_map.
  pose proof (nonempty_length qs Hne) as Hn.
  set (n := length qs) in *.
  set (h := (of_nat n - 1) * (p / 100)).
  destruct (rank_range n (p / 100) Hn H0 H1) as [Ha Hb]. fold h in Ha, Hb.
  rewrite np_sort_Fin.
  assert (Hlen : length (sortQ qs) = n) by apply sortQ_length.
  assert (Hs : map Fin (sortQ qs) <> []).
  { intro Hc. apply (f_equal (@length float)) in Hc.
    rewrite length_map, Hlen in Hc. simpl in Hc. lia. }
  rewrite (take_last _ Hs), length_map, Hlen. cbn [result_bind].
  rewrite nth_map_Fin by lia. cbn [isnan].
  destruct (get_indexes_cases h n Hn Ha Hb) as [[-> Hh] | [-> [Hk0 Hk1]]].
  - rewrite (take_last _ Hs), length_map, Hlen. cbn [result_bind].
    rewrite nth_map_Fin by lia.
    destruct (lerp_Fin (nth (n - 1) (sortQ qs) 0) (nth (n - 1) (sortQ qs) 0)
                (h - inject_Z (-1))) as [x [-> Hx]].
    exists x. split; [reflexivity|].
    unfold interpolate.
    assert (Hfl : Qfloor h = (Z.of_nat n - 1)%Z).
    { rewrite (Qfloor_comp _ _ Hh), <- of_nat_pred by assumption.
      apply Qfloor_Z. }
    rewrite Hfl.
    replace (Z.to_nat (Z.of_nat n - 1)) with (n - 1)%nat by lia.
    rewrite (nth_overflow _ _ (n := S (n - 1))) by lia.
    rewrite Hx. ring.
  - rewrite !take_nonneg by (rewrite length_map, Hlen; lia). cbn [result_bind].
    rewrite !nth_map_Fin by lia.
    destruct (lerp_Fin (nth (Z.to_nat (Qfloor h)) (sortQ qs) 0)
                (nth (Z.to_nat (Qfloor h + 1)) (sortQ qs) 0)
                (h - inject_Z (Qfloor h))) as [x [-> Hx]].
    exists x. split; [reflexivity|].
    unfold interpolate.
    replace (Z.to_nat (Qfloor h + 1)) with (S (Z.to_nat (Qfloor h))) in Hx by lia.
    rewrite (nth_indep _ (nth (Z.to_nat (Qfloor h)) (sortQ qs) 0) 0) by lia.
    rewrite Hx. ring.
Qed.

(** ** Lemmas: order statistics and monotonicity of the percentile *)

Lemma insertQ_Forall (P : Q -> Prop) (x : Q) (l : list Q) :
  P x -> Forall P l -> Forall P (insertQ x l).
Proof.
  intros Hx Hl. induction Hl as [|y l Hy Hl IH]; simpl.
  - constructor; [assumption | constructor].
  - destruct (Qle_bool x y); repeat constructor; assumption.
Qed.

Lemma insertQ_sorted (x : Q) (l : list Q) :
  StronglySorted Qle l -> StronglySorted Qle (insertQ x l).
Proof.
  intros Hs. induction Hs as [|y l Hs IH Hy]; simpl.
  - repeat constructor.
  - destruct (Qle_bool x y) eqn:E.
    + apply Qle_bool_iff in E. constructor.
      * now constructor.
      * constructor; [assumption|].
        eapply Forall_impl; [|exact Hy]. intros z Hz. lra.
    + assert (y <= x).
      { apply Qlt_le_weak, Qnot_le_lt. intro Hc.
        apply Qle_bool_iff in Hc. congruence. }
      constructor; [assumption|]. now apply insertQ_Forall.
Qed.

Lemma sortQ_sorted (l : list Q) : StronglySorted Qle (sortQ l).
Proof.
  unfold sortQ. induction l as [|x l IH]; simpl.
  - constructor.
  - now apply insertQ_sorted.
Qed.

Lemma sorted_nth_le (s : list Q) :
  StronglySorted Qle s ->
  forall i j, (i <= j)%nat -> (j < length s)%nat -> nth i s 0 <= nth j s 0.
Proof.
  intros Hs. induction Hs as [|a l Hs IH Ha]; intros i j Hij Hj.
  - simpl in Hj. lia.
  - destruct i as [|i], j as [|j]; simpl in *; try lia.
    + lra.
    + rewrite Forall_forall in Ha. apply Ha, nth_In. lia.
    + apply IH; lia.
Qed.

(** The upper neighbour is never below the lower one. *)
Lemma upper_ge_lower (s : list Q) (k : nat) :
  StronglySorted Qle s -> nth k s 0 <= nth (S k) s (nth k s 0).
Proof.
  intros Hs. destruct (Nat.lt_ge_cases (S k) (length s)) as [Hlt | Hge].
  - rewrite (nth_indep _ (nth k s 0) 0) by assumption.
    apply sorted_nth_le; [assumption | lia | assumption].
  - rewrite (nth_overflow _ _ Hge). lra.
Qed.

Lemma fraction_range (h : Q) :
  0 <= h - inject_Z (Qfloor h) /\ h - inject_Z (Qfloor h) <= 1.
Proof.
  pose proof (Qfloor_le h) as H1. pose proof (Qlt_floor h) as H2.
  rewrite inject_Z_plus in H2. change (inject_Z 1) with 1 in H2.
  generalize dependent (inject_Z (Qfloor h)). intros f H1 H2. split; lra.
Qed.

Lemma interpolate_bounds (s : list Q) (h : Q) :
  StronglySorted Qle s ->
  let k := Z.to_nat (Qfloor h) in
  nth k s 0 <= interpolate s h /\ interpolate s h <= nth (S k) s (nth k s 0).
Proof.
  intros Hs k. unfold interpolate. fold k.
  pose proof (upper_ge_lower s k Hs) as Hd.
  destruct (fraction_range h) as [G0 G1].
  generalize dependent (nth (S k) s (nth k s 0)). intros hi Hd.
  generalize dependent (h - inject_Z (Qfloor h)). intros t G0 G1.
  assert (A : 0 <= t * (hi - nth k s 0)) by (apply Qmult_le_0_compat; lra).
  assert (B : 0 <= (1 - t) * (hi - nth k s 0)) by (apply Qmult_le_0_compat; lra).
  split; lra.
Qed.

Lemma interpolate_mono (s : list Q) (h1 h2 : Q) :
  StronglySorted Qle s -> 0 <= h1 -> h1 <= h2 ->
  (Z.to_nat (Qfloor h2) < length s)%nat ->
  interpolate s h1 <= interpolate s h2.
Proof.
  intros Hs H0 H12 Hk2.
  assert (F1 : (0 <= Qfloor h1)%Z)
    by (change 0%Z with (Qfloor 0); now apply Qfloor_resp_le).
  pose proof (Qfloor_resp_le _ _ H12) as F12.
  destruct (Z.eq_dec (Qfloor h1) (Qfloor h2)) as [E | NE].
  - unfold interpolate. rewrite E.
    set (k := Z.to_nat (Qfloor h2)).
    pose proof (upper_ge_lower s k Hs) as Hd.
    generalize dependent (nth (S k) s (nth k s 0)). intros hi Hd.
    assert (A : 0 <= (h2 - h1) * (hi - nth k s 0))
      by (apply Qmult_le_0_compat; lra).
    lra.
  - destruct (interpolate_bounds s h1 Hs) as [_ U1].
    destruct (interpolate_bounds s h2 Hs) as [L2 _].
    cbv zeta in U1, L2.
    assert (Hlt : (S (Z.to_nat (Qfloor h1)) <= Z.to_nat (Qfloor h2))%nat) by lia.
    rewrite (nth_indep _ (nth (Z.to_nat (Qfloor h1)) s 0) 0) in U1 by lia.
    pose proof (sorted_nth_le s Hs _ _ Hlt Hk2) as Hmid.
    lra.
Qed.

Lemma rank_floor_in_range (n : nat) (h : Q) :
  (1 <= n)%nat -> 0 <= h -> h <= of_nat n - 1 -> (Z.to_nat (Qfloor h) < n)%nat.
Proof.
  intros Hn H0 H1.
  assert (F0 : (0 <= Qfloor h)%Z)
    by (change 0%Z with (Qfloor 0); now apply Qfloor_resp_le).
  pose proof (Qfloor_resp_le _ _ H1) as F1.
  rewrite <- of_nat_pred, Qfloor_Z in F1 by assumption. lia.
Qed.

(** The percentile is monotone in [p] over [0, 100]. *)
Lemma linear_percentile_mono (qs : list Q) (p1 p2 : Q) :
  qs <> [] -> 0 <= p1 / 100 -> p1 <= p2 -> p2 / 100 <= 1 ->
  linear_percentile qs p1 <= linear_percentile qs p2.
Proof.
  intros Hne H0 H12 H1. unfold linear_percentile.
  pose proof (nonempty_length qs Hne) as Hn.
  assert (Hq : p1 / 100 <= p2 / 100).
  { unfold Qdiv. apply Qmult_le_compat_r; [assumption | discriminate]. }
  destruct (rank_range (length qs) (p1 / 100) Hn H0) as [A1 B1]; [lra|].
  destruct (rank_range (length qs) (p2 / 100) Hn) as [A2 B2]; [lra | lra |].
  pose proof (of_nat_ge_1 _ Hn) as Hc.
  apply interpolate_mono.
  - apply sortQ_sorted.
  - assumption.
  - generalize dependent (of_nat (length qs)). intros c _ _ _ _ Hc.
    assert (A : 0 <= (c - 1) * (p2 / 100 - p1 / 100))
      by (apply Qmult_le_0_compat; lra).
    lra.
  - rewrite sortQ_length. now apply rank_floor_in_range.
Qed.

Lemma linear_percentile_comp (qs : list Q) (p1 p2 : Q) :
  qs <> [] -> 0 <= p1 / 100 -> p1 / 100 <= 1 -> p1 == p2 ->
  linear_percentile qs p1 == linear_percentile qs p2.
Proof.
  intros Hne H0 H1 E.
  assert (E' : p1 / 100 == p2 / 100) by now rewrite E.
  apply Qle_antisym; apply linear_percentile_mono; try assumption; lra.
Qed.

(** ** Lemmas: the extreme percentiles *)

Lemma insertQ_In (x y : Q) (l : list Q) : In x (insertQ y l) <-> x = y \/ In x l.
Proof.
  induction l as [|z l IH]; simpl.
  - split; (intros [H | []]; left; congruence).
  - destruct (Qle_bool y z); simpl.
    + split; (intros [H | H]; [left; congruence | right; exact H]).
    + split.
      * intros [H | H]; [right; left; exact H|].
        apply IH in H as [H | H]; [left; exact H | right; right; exact H].
      * intros [H | [H | H]];
          [right; apply IH; left; exact H | left; exact H
          | right; apply IH; right; exact H].
Qed.

Lemma sortQ_In (x : Q) (l : list Q) : In x (sortQ l) <-> In x l.
Proof.
  unfold sortQ. induction l as [|y l IH]; simpl; [reflexivity|]. split.
  - intros H. apply insertQ_In in H as [H | H];
      [left; congruence | right; now apply IH].
  - intros [H | H]; apply insertQ_In;
      [left; congruence | right; now apply IH].
Qed.

Lemma fold_min_le (d : Q) (xs : list Q) :
  fold_right Qmin d xs <= d /\ forall x, In x xs -> fold_right Qmin d xs <= x.
Proof.
  induction xs as [|y xs [IHd IHx]]; simpl.
  - split; [lra | intros x []].
  - split.
    + eapply Qle_trans; [apply Q.le_min_r | exact IHd].
    + intros x [<- | Hin]; [apply Q.le_min_l|].
      eapply Qle_trans; [apply Q.le_min_r | now apply IHx].
Qed.

Lemma fold_min_attained (d : Q) (xs : list Q) :
  fold_right Qmin d xs == d \/ exists y, In y xs /\ fold_right Qmin d xs == y.
Proof.
  induction xs as [|y xs IH]; simpl; [left; reflexivity|].
  destruct (Q.min_dec y (fold_right Qmin d xs)) as [E | E].
  - right. exists y. split; [now left | exact E].
  - destruct IH as [IH | [z [Hz IH]]].
    + left. now rewrite E.
    + right. exists z. split; [now right | now rewrite E].
Qed.

Lemma fold_max_ge (d : Q) (xs : list Q) :
  d <= fold_right Qmax d xs /\ forall x, In x xs -> x <= fold_right Qmax d xs.
Proof.
  induction xs as [|y xs [IHd IHx]]; simpl.
  - split; [lra | intros x []].
  - split.
    + eapply Qle_trans; [exact IHd | apply Q.le_max_r].
    + intros x [<- | Hin]; [apply Q.le_max_l|].
      eapply Qle_trans; [now apply IHx | apply Q.le_max_r].
Qed.

Lemma fold_max_attained (d : Q) (xs : list Q) :
  fold_right Qmax d xs == d \/ exists y, In y xs /\ fold_right Qmax d xs == y.
Proof.
  induction xs as [|y xs IH]; simpl; [left; reflexivity|].
  destruct (Q.max_dec y (fold_right Qmax d xs)) as [E | E].
  - right. exists y. split; [now left | exact E].
  - destruct IH as [IH | [z [Hz IH]]].
    + left. now rewrite E.
    + right. exists z. split; [now right | now rewrite E].
Qed.

Lemma minimum_spec (xs : list Q) :
  xs <> [] ->
  (forall x, In x xs -> minimum xs <= x) /\
  exists y, In y xs /\ minimum xs == y.
Proof.
  intros Hne. unfold minimum. split.
  - apply fold_min_le.
  - destruct (fold_min_attained (hd 0 xs) xs) as [E | H]; [|exact H].
    exists (hd 0 xs). split; [|exact E].
    destruct xs; [congruence | now left].
Qed.

Lemma maximum_spec (xs : list Q) :
  xs <> [] ->
  (forall x, In x xs -> x <= maximum xs) /\
  exists y, In y xs /\ maximum xs == y.
Proof.
  intros Hne. unfold maximum. split.
  - apply fold_max_ge.
  - destruct (fold_max_attained (hd 0 xs) xs) as [E | H]; [|exact H].
    exists (hd 0 xs). split; [|exact E].
    destruct xs; [congruence | now left].
Qed.

Lemma sorted_first_is_minimum (xs : list Q) :
  xs <> [] -> nth 0 (sortQ xs) 0 == minimum xs.
Proof.
  intros Hne. pose proof (nonempty_length xs Hne) as Hn.
  destruct (minimum_spec xs Hne) as [Hle [y [Hy Ey]]].
  assert (Hin : In (nth 0 (sortQ xs) 0) (sortQ xs))
    by (apply nth_In; rewrite sortQ_length; lia).
  apply Qle_antisym.
  - apply (proj2 (sortQ_In y xs)) in Hy.
    apply In_nth with (d := 0) in Hy as [j [Hj Ej]].
    rewrite Ey, <- Ej.
    apply sorted_nth_le; [apply sortQ_sorted | lia | assumption].
  - apply Hle. now apply sortQ_In.
Qed.

Lemma sorted_last_is_maximum (xs : list Q) :
  xs <> [] -> nth (length xs - 1) (sortQ xs) 0 == maximum xs.
Proof.
  intros Hne. pose proof (nonempty_length xs Hne) as Hn.
  destruct (maximum_spec xs Hne) as [Hle [y [Hy Ey]]].
  assert (Hin : In (nth (length xs - 1) (sortQ xs) 0) (sortQ xs))
    by (apply nth_In; rewrite sortQ_length; lia).
  apply Qle_antisym.
  - apply Hle. now apply sortQ_In.
  - apply (proj2 (sortQ_In y xs)) in Hy.
    apply In_nth with (d := 0) in Hy as [j [Hj Ej]].
    rewrite Ey, <- Ej. rewrite sortQ_length in Hj.
    apply sorted_nth_le; [apply sortQ_sorted | lia | rewrite sortQ_length; lia].
Qed.

Lemma linear_percentile_0 (xs : list Q) :
  xs <> [] -> linear_percentile xs 0 == minimum xs.
Proof.
  intros Hne. rewrite <- sorted_first_is_minimum by assumption.
  unfold linear_percentile, interpolate.
  assert (Hh : (of_nat (length xs) - 1) * (0 / 100) == 0) by (unfold Qdiv; ring).
  rewrite (Qfloor_comp _ _ Hh). change (Qfloor 0) with 0%Z.
  change (Z.to_nat 0) with 0%nat. rewrite Hh. change (inject_Z 0) with 0. ring.
Qed.

Lemma linear_percentile_100 (xs : list Q) :
  xs <> [] -> linear_percentile xs 100 == maximum xs.
Proof.
  intros Hne. pose proof (nonempty_length xs Hne) as Hn.
  rewrite <- sorted_last_is_maximum by assumption.
  unfold linear_percentile, interpolate.
  assert (Hh : (of_nat (length xs) - 1) * (100 / 100)
               == inject_Z (Z.of_nat (length xs) - 1)).
  { rewrite of_nat_pred by assumption. field. }
  rewrite (Qfloor_comp _ _ Hh), Qfloor_Z.
  replace (Z.to_nat (Z.of_nat (length xs) - 1)) with (length xs - 1)%nat by lia.
  rewrite (nth_overflow _ _ (n := S (length xs - 1)))
    by (rewrite sortQ_length; lia).
  ring.
Qed.

(** ** Lemmas: the historical estimator *)

Lemma percent_round_trip (cl : Q) : cl * 100 / 100 == cl.
Proof. field. Qed.

Lemma percent_in_range (cl : Q) :
  0 <= cl -> cl <= 1 -> 0 <= cl * 100 / 100 /\ cl * 100 / 100 <= 1.
Proof. intros H0 H1. rewrite percent_round_trip. split; assumption. Qed.

(** The call is a pure function of the return series and the level: it
    reads no random state and leaves it as it found it. *)
Lemma var_historical_pure (self : VaRCalculator) (cl : Q) (g : rng) :
  var_historical self cl g =
  lift (result_bind (np_percentile (returns self) (cl * 100))
          (fun var => OK (Fabs var))) g.
Proof.
  unfold var_historical, bind, lift, ret.
  destruct (np_percentile (returns self) (cl * 100)); reflexivity.
Qed.

Lemma var_historical_Fin (self : VaRCalculator) (qs : list Q) (cl : Q) (g : rng) :
  returns self = map Fin qs -> qs <> [] -> 0 <= cl -> cl <= 1 ->
  exists x, var_historical self cl g = OK (Fin x, g) /\
            x == Qabs (linear_percentile qs (cl * 100)).
Proof.
  intros Hr Hne H0 H1.
  destruct (percent_in_range cl H0 H1) as [P0 P1].
  destruct (np_percentile_Fin qs (cl * 100) Hne P0 P1) as [x [Hx Ex]].
  exists (Qabs x). split.
  - rewrite var_historical_pure, Hr, Hx. reflexivity.
  - now rewrite Ex.
Qed.

(** The historical estimator at a level written as a plain percentage. *)
Lemma var_historical_at (self : VaRCalculator) (qs : list Q) (cl p : Q) (g : rng) :
  returns self = map Fin qs -> qs <> [] -> 0 <= cl -> cl <= 1 ->
  cl * 100 == p ->
  exists x, var_historical self cl g = OK (Fin x, g) /\
            x == Qabs (linear_percentile qs p).
Proof.
  intros Hr Hne H0 H1 Hp.
  destruct (var_historical_Fin self qs cl g Hr Hne H0 H1) as [x [Hx Ex]].
  exists x. split; [assumption|].
  destruct (percent_in_range cl H0 H1) as [P0 P1].
  now rewrite Ex, (linear_percentile_comp qs (cl * 100) p Hne P0 P1 Hp).
Qed.

(** ** Lemmas: mean, standard deviation and the random samples *)

Lemma fold_left_Fadd_Fin (l : list Q) (a : Q) :
  fold_left Fadd (map Fin l) (Fin a) = Fin (fold_left Qplus l a).
Proof.
  revert a. induction l as [|x l IH]; intros a; simpl; [reflexivity|].
  apply IH.
Qed.

Lemma Fsum_Fin (l : list Q) : Fsum (map Fin l) = Fin (Qsum l).
Proof. apply fold_left_Fadd_Fin. Qed.

Lemma dropna_Fin (l : list Q) : dropna (map Fin l) = map Fin l.
Proof.
  unfold dropna. induction l as [|x l IH]; simpl; [reflexivity|].
  now rewrite IH.
Qed.

Lemma fold_left_Qplus_acc (l : list Q) (a : Q) :
  fold_left Qplus l a == a + Qsum l.
Proof.
  unfold Qsum. revert a. induction l as [|x l IH]; intros a; simpl.
  - ring.
  - rewrite (IH (a + x)), (IH (0 + x)). ring.
Qed.

Lemma Qsum_cons (x : Q) (l : list Q) : Qsum (x :: l) == x + Qsum l.
Proof. unfold Qsum at 1. simpl. rewrite fold_left_Qplus_acc. ring. Qed.

Lemma Qsum_map_ext (f g : Q -> Q) (l : list Q) :
  (forall x, f x == g x) -> Qsum (map f l) == Qsum (map g l).
Proof.
  intros H. induction l as [|x l IH]; simpl; [reflexivity|].
  now rewrite !Qsum_cons, IH, H.
Qed.

Lemma Qsquare_ge_0 (a : Q) : 0 <= a * a.
Proof.
  destruct (Qlt_le_dec a 0) as [Hneg | Hpos].
  - setoid_replace (a * a) with ((- a) * (- a)) by ring.
    apply Qmult_le_0_compat; lra.
  - apply Qmult_le_0_compat; lra.
Qed.

Lemma Qsum_squares_nonneg (f : Q -> Q) (l : list Q) :
  0 <= Qsum (map (fun x => f x * f x) l).
Proof.
  induction l as [|x l IH]; simpl.
  - unfold Qsum. simpl. lra.
  - rewrite Qsum_cons. pose proof (Qsquare_ge_0 (f x)) as Hs. lra.
Qed.

Lemma of_nat_pos (n : nat) : (1 <= n)%nat -> (of_nat n ?= 0) = Gt.
Proof.
  intros H. apply Qgt_alt. pose proof (of_nat_ge_1 n H). lra.
Qed.

Lemma Series_mean_Fin (qs : list Q) :
  qs <> [] -> Series_mean (map Fin qs) = Fin (sample_mean qs).
Proof.
  intros Hne. pose proof (nonempty_length qs Hne) as Hn.
  unfold Series_mean. rewrite dropna_Fin, Fsum_Fin, length_map.
  unfold Fdiv. now rewrite of_nat_pos.
Qed.

Lemma Series_std_Fin (qs : list Q) :
  (2 <= length qs)%nat -> Series_std (map Fin qs) = Fin (sample_std qs).
Proof.
  intros Hn. unfold Series_std.
  rewrite dropna_Fin, Fsum_Fin, length_map.
  destruct (Nat.leb_spec (length qs) 1) as [Hc | _]; [lia|].
  assert (Havg : Fdiv (Fin (Qsum qs)) (Fin (of_nat (length qs)))
                 = Fin (sample_mean qs)).
  { unfold Fdiv. now rewrite of_nat_pos by lia. }
  cbv zeta. rewrite Havg. set (mu := sample_mean qs).
  rewrite map_map. cbn [Fsub Fopp Fadd Fmul].
  rewrite <- (map_map (fun y => (mu + - y) * (mu + - y)) Fin), Fsum_Fin.
  pose proof (of_nat_ge_1 (length qs)) as Hc.
  assert (Hd : 0 < of_nat (length qs) - 1).
  { assert (2 <= of_nat (length qs)).
    { unfold of_nat. change 2 with (inject_Z 2). rewrite <- Zle_Qle. lia. }
    lra. }
  unfold Fdiv.
  destruct (of_nat (length qs) - 1 ?= 0) eqn:Hcmp.
  - apply Qeq_alt in Hcmp. lra.
  - apply Qlt_alt in Hcmp. lra.
  - set (v := Qsum (map (fun y : Q => (mu + - y) * (mu + - y)) qs)
              / (of_nat (length qs) - 1)).
    assert (Hv : 0 <= v).
    { unfold v. apply Qle_shift_div_l; [assumption|].
      rewrite Qmult_0_l.
      apply (Qsum_squares_nonneg (fun y => mu + - y)). }
    assert (Ev : v == sample_variance qs).
    { unfold v, sample_variance. fold mu.
      rewrite (Qsum_map_ext (fun y => (mu + - y) * (mu + - y))
                            (fun x => (x - mu) * (x - mu)));
        [reflexivity | intros x; ring]. }
    unfold Fsqrt. destruct (v ?= 0) eqn:Hv0.
    + unfold sample_std. now rewrite (Qred_complete _ _ Ev).
    + apply Qlt_alt in Hv0. lra.
    + unfold sample_std. now rewrite (Qred_complete _ _ Ev).
Qed.

Lemma draws_length (n : nat) (g : rng) : length (fst (draws n g)) = n.
Proof.
  revert g. induction n as [|n IH]; intros g; simpl; [reflexivity|].
  destruct (standard_normal g) as [z g1].
  specialize (IH g1). destruct (draws n g1) as [zs g2]. simpl in *.
  now rewrite IH.
Qed.

Lemma np_random_normal_ok (loc scale : float) (size : nat) (g : rng) :
  Fsign scale <> Some Lt ->
  np_random_normal loc scale size g =
  OK (map (fun z => Fadd loc (Fmul scale (Fin z))) (fst (draws size g)),
      snd (draws size g)).
Proof.
  intros Hs. unfold np_random_normal.
  destruct (draws size g) as [zs g'].
  destruct (Fsign scale) as [[]|]; try reflexivity. congruence.
Qed.

Lemma np_random_normal_nonempty (loc scale : float) (size : nat) (g : rng) :
  (1 <= size)%nat ->
  map (fun z => Fadd loc (Fmul scale (Fin z))) (fst (draws size g)) <> [].
Proof.
  intros Hn Hc. apply (f_equal (@length float)) in Hc.
  rewrite length_map, draws_length in Hc. simpl in Hc. lia.
Qed.

Lemma standard_sample_size_pos : (1 <= standard_sample_size)%nat.
Proof. unfold standard_sample_size. lia. Qed.

Lemma default_simulations_pos : (1 <= default_simulations)%nat.
Proof. unfold default_simulations. lia. Qed.

(** ** Lemmas: the percentile does not depend on how a rational is written *)

Lemma insertQ_Qeq (x x' : Q) (l l' : list Q) :
  x == x' -> Forall2 Qeq l l' -> Forall2 Qeq (insertQ x l) (insertQ x' l').
Proof.
  intros Hx Hl. induction Hl as [|y y' l l' Hy Hl IH]; simpl.
  - repeat constructor. assumption.
  - rewrite (Qleb_comp x x' Hx y y' Hy).
    destruct (Qle_bool x' y'); repeat constructor; assumption.
Qed.

Lemma sortQ_Qeq (l l' : list Q) :
  Forall2 Qeq l l' -> Forall2 Qeq (sortQ l) (sortQ l').
Proof.
  unfold sortQ. intros Hl. induction Hl as [|y y' l l' Hy Hl IH]; simpl.
  - constructor.
  - now apply insertQ_Qeq.
Qed.

Lemma nth_Qeq (s s' : list Q) :
  Forall2 Qeq s s' ->
  forall i d d', d == d' -> nth i s d == nth i s' d'.
Proof.
  intros Hs. induction Hs as [|y y' l l' Hy Hl IH]; intros [|i] d d' Hd;
    simpl; auto.
Qed.

Lemma interpolate_Qeq (s s' : list Q) (h : Q) :
  Forall2 Qeq s s' -> interpolate s h == interpolate s' h.
Proof.
  intros Hs. unfold interpolate.
  set (k := Z.to_nat (Qfloor h)).
  assert (Hlo : nth k s 0 == nth k s' 0) by (apply nth_Qeq; [assumption | reflexivity]).
  assert (Hhi : nth (S k) s (nth k s 0) == nth (S k) s' (nth k s' 0))
    by (apply nth_Qeq; assumption).
  generalize dependent (nth (S k) s (nth k s 0)).
  generalize dependent (nth (S k) s' (nth k s' 0)).
  intros hi' hi Hhi. now rewrite Hlo, Hhi.
Qed.

Lemma linear_percentile_ext (f : Q -> Q) (zs : list Q) (p : Q) :
  (forall z, f z == z) ->
  linear_percentile (map f zs) p == linear_percentile zs p.
Proof.
  intros Hf. unfold linear_percentile. rewrite length_map.
  apply interpolate_Qeq, sortQ_Qeq.
  induction zs as [|z zs IH]; simpl; constructor; auto.
Qed.

(** ** Lemmas: the two sampled estimators *)

Lemma Fsqrt_sign (x : float) : Fsign (Fsqrt x) <> Some Lt.
Proof using sqrtQ_nonneg.
  destruct x as [q| | |]; simpl; try discriminate.
  destruct (q ?= 0); simpl; try discriminate;
    intro Hc; injection Hc as Hc; apply Qlt_alt in Hc;
    pose proof (sqrtQ_nonneg (Qred q)); lra.
Qed.

Lemma Series_std_sign (s : Series) : Fsign (Series_std s) <> Some Lt.
Proof using sqrtQ_nonneg.
  unfold Series_std. destruct (_ <=? 1)%nat; [discriminate|].
  apply Fsqrt_sign.
Qed.

Lemma var_parametric_eq (self : VaRCalculator) (cl : Q) (g : rng) :
  0 <= cl -> cl <= 1 ->
  exists z,
    np_percentile (standard_sample g) (cl * 100) = OK z /\
    var_parametric self cl g =
    OK (Fabs (Fadd (Series_mean (returns self))
                   (Fmul (Series_std (returns self)) z)),
        snd (draws standard_sample_size g)).
Proof.
  intros H0 H1. destruct (percent_in_range cl H0 H1) as [P0 P1].
  destruct (np_percentile_total (standard_sample g) (cl * 100)) as [z Hz];
    try assumption.
  { apply np_random_normal_nonempty, standard_sample_size_pos. }
  exists z. split; [assumption|].
  unfold var_parametric, bind.
  rewrite np_random_normal_ok by (cbn; discriminate).
  fold (standard_sample g). unfold lift. rewrite Hz. reflexivity.
Qed.

Lemma var_monte_carlo_eq (self : VaRCalculator) (cl : Q) (simulations : nat)
    (g : rng) :
  (1 <= simulations)%nat -> 0 <= cl -> cl <= 1 ->
  exists z,
    np_percentile (simulated_sample self simulations g) (cl * 100) = OK z /\
    var_monte_carlo self cl simulations g =
    OK (Fabs z, snd (draws simulations g)).
Proof using sqrtQ_nonneg.
  intros Hn H0 H1. destruct (percent_in_range cl H0 H1) as [P0 P1].
  destruct (np_percentile_total (simulated_sample self simulations g) (cl * 100))
    as [z Hz]; try assumption.
  { now apply np_random_normal_nonempty. }
  exists z. split; [assumption|].
  unfold var_monte_carlo, bind.
  rewrite np_random_normal_ok by apply Series_std_sign.
  fold (simulated_sample self simulations g). unfold lift. rewrite Hz.
  reflexivity.
Qed.

Lemma var_historical_total (self : VaRCalculator) (cl : Q) (g : rng) :
  returns self <> [] -> 0 <= cl -> cl <= 1 ->
  exists v, var_historical self cl g = OK (v, g).
Proof.
  intros Hne H0 H1. destruct (percent_in_range cl H0 H1) as [P0 P1].
  destruct (np_percentile_total (returns self) (cl * 100) Hne P0 P1) as [z Hz].
  exists (Fabs z). rewrite var_historical_pure, Hz. reflexivity.
Qed.

Lemma var_parametric_Fin (self : VaRCalculator) (qs : list Q) (cl : Q) (g : rng) :
  returns self = map Fin qs -> (2 <= length qs)%nat -> 0 <= cl -> cl <= 1 ->
  exists x,
    var_parametric self cl g = OK (Fin x, snd (draws standard_sample_size g)) /\
    x == Qabs (sample_mean qs
               + sample_std qs
                 * linear_percentile (fst (draws standard_sample_size g)) (cl * 100)).
Proof.
  intros Hr Hn H0 H1. destruct (percent_in_range cl H0 H1) as [P0 P1].
  destruct (var_parametric_eq self cl g H0 H1) as [z [Hz Hv]].
  set (zs := fst (draws standard_sample_size g)) in *.
  assert (Hzs : zs <> []).
  { intro Hc. apply (f_equal (@length Q)) in Hc. unfold zs in Hc.
    rewrite draws_length in Hc. pose proof standard_sample_size_pos.
    simpl in Hc. lia. }
  assert (Hs : standard_sample g = map Fin (map (fun z => 0 + 1 * z) zs)).
  { unfold standard_sample. fold zs. now rewrite map_map. }
  assert (Hm : map (fun z => 0 + 1 * z) zs <> []).
  { intro Hc. apply map_eq_nil in Hc. contradiction. }
  destruct (np_percentile_Fin _ (cl * 100) Hm P0 P1) as [x0 [Hx0 Ex0]].
  rewrite Hs, Hx0 in Hz. injection Hz as <-.
  rewrite Hr, Series_mean_Fin, Series_std_Fin in Hv
    by (try assumption; intro Hc; subst qs; simpl in Hn; lia).
  eexists. split; [exact Hv|].
  rewrite Ex0, linear_percentile_ext by (intros z; ring). reflexivity.
Qed.

Lemma var_monte_carlo_Fin (self : VaRCalculator) (qs : list Q) (cl : Q)
    (simulations : nat) (g : rng) :
  returns self = map Fin qs -> (2 <= length qs)%nat ->
  (1 <= simulations)%nat -> 0 <= cl -> cl <= 1 ->
  exists x,
    var_monte_carlo self cl simulations g
    = OK (Fin x, snd (draws simulations g)) /\
    x == Qabs (linear_percentile
                 (map (fun z => sample_mean qs + sample_std qs * z)
                      (fst (draws simulations g)))
                 (cl * 100)).
Proof using sqrtQ_nonneg.
  intros Hr Hn Hsim H0 H1. destruct (percent_in_range cl H0 H1) as [P0 P1].
  destruct (var_monte_carlo_eq self cl simulations g Hsim H0 H1) as [z [Hz Hv]].
  set (zs := fst (draws simulations g)) in *.
  assert (Hs : simulated_sample self simulations g
               = map Fin (map (fun z => sample_mean qs + sample_std qs * z) zs)).
  { unfold simulated_sample. fold zs.
    rewrite Hr, Series_mean_Fin, Series_std_Fin
      by (try assumption; intro Hc; subst qs; simpl in Hn; lia).
    now rewrite map_map. }
  assert (Hm : map (fun z => sample_mean qs + sample_std qs * z) zs <> []).
  { intro Hc. apply map_eq_nil in Hc. apply (f_equal (@length Q)) in Hc.
    unfold zs in Hc. rewrite draws_length in Hc. simpl in Hc. lia. }
  destruct (np_percentile_Fin _ (cl * 100) Hm P0 P1) as [x0 [Hx0 Ex0]].
  rewrite Hs, Hx0 in Hz. injection Hz as <-.
  exists (Qabs x0). split; [exact Hv|]. now rewrite Ex0.
Qed.

(** ** Lemmas: construction *)

Lemma dropna_cons_Fin (q : Q) (l : Series) : dropna (Fin q :: l) = Fin q :: dropna l.
Proof. reflexivity. Qed.

Lemma dropna_cons_NaN (l : Series) : dropna (NaN :: l) = dropna l.
Proof. reflexivity. Qed.

Lemma pct_of_positive (cur prev : Q) :
  0 < prev -> Fsub (Fdiv (Fin cur) (Fin prev)) (Fin 1) = Fin (cur / prev - 1).
Proof.
  intros Hp. unfold Fdiv.
  replace (prev ?= 0) with Gt by (symmetry; now apply Qgt_alt).
  reflexivity.
Qed.

Lemma pct_change_tail (p0 : Q) (ps : list Q) :
  Forall (fun p => 0 < p) (p0 :: ps) ->
  dropna (map (fun '(cur, prev) => Fsub (Fdiv cur prev) (Fin 1))
              (combine (map Fin ps) (removelast (map Fin (p0 :: ps)))))
  = map Fin (simple_returns p0 ps).
Proof.
  revert p0. induction ps as [|p1 ps IH]; intros p0 Hpos; [reflexivity|].
  inversion Hpos as [|? ? Hp0 Hrest]; subst.
  change (removelast (map Fin (p0 :: p1 :: ps)))
    with (Fin p0 :: removelast (map Fin (p1 :: ps))).
  cbn [map combine simple_returns].
  rewrite (pct_of_positive p1 p0 Hp0), dropna_cons_Fin.
  f_equal. exact (IH p1 Hrest).
Qed.

Lemma returns_of_positive_prices (p0 : Q) (ps : list Q) :
  Forall (fun p => 0 < p) (p0 :: ps) ->
  dropna (pct_change (map Fin (p0 :: ps))) = map Fin (simple_returns p0 ps).
Proof.
  intros Hpos. unfold pct_change, shift.
  change (map Fin (p0 :: ps)) with (Fin p0 :: map Fin ps) at 1 2.
  cbn [combine map].
  change (Fsub (Fdiv (Fin p0) NaN) (Fin 1)) with NaN.
  rewrite dropna_cons_NaN. now apply pct_change_tail.
Qed.

Lemma simple_returns_length (prev : Q) (ps : list Q) :
  length (simple_returns prev ps) = length ps.
Proof.
  revert prev. induction ps as [|p ps IH]; intros prev; simpl; [reflexivity|].
  now rewrite IH.
Qed.

Lemma simple_returns_nth (prev : Q) (ps : list Q) (i : nat) :
  (i < length ps)%nat ->
  nth i (simple_returns prev ps) 0
  = nth (S i) (prev :: ps) 0 / nth i (prev :: ps) 0 - 1.
Proof.
  revert prev i. induction ps as [|p ps IH]; intros prev i Hi; simpl in Hi; [lia|].
  destruct i as [|i]; [reflexivity|].
  cbn [simple_returns nth]. rewrite IH by lia. reflexivity.
Qed.

Lemma init_ok_inv (ticker start_date end_date : string) (self : VaRCalculator) :
  __init__ ticker start_date end_date = OK self ->
  Adj_Close (yf_download ticker start_date end_date) <> [] /\
  data self = column_Adj_Close (yf_download ticker start_date end_date) /\
  returns self = dropna (pct_change (data self)) /\
  returns self <> [].
Proof.
  unfold __init__, _download_data, _calculate_returns, frame_empty.
  destruct (Adj_Close (yf_download ticker start_date end_date)) eqn:Hp;
    cbn [result_bind]; [discriminate|].
  destruct (dropna (pct_change _)) eqn:Hr; cbn [empty result_bind];
    [discriminate|].
  intros H. injection H as <-. cbn [data returns].
  repeat split; congruence.
Qed.

Lemma init_of_prices (ticker start_date end_date : string) (p0 : Q) (ps : list Q) :
  Adj_Close (yf_download ticker start_date end_date) = p0 :: ps ->
  __init__ ticker start_date end_date =
  result_bind (_calculate_returns (map Fin (p0 :: ps))) (fun returns =>
    OK (mkVaRCalculator ticker start_date end_date (map Fin (p0 :: ps)) returns)).
Proof.
  intros Hp. unfold __init__, _download_data, frame_empty, column_Adj_Close.
  rewrite Hp. reflexivity.
Qed.

(** ** Lemmas: the summary loop *)

Lemma summary_loop_rows (self : VaRCalculator) (levels : list Q) :
  returns self <> [] ->
  Forall (fun cl => 0 <= cl /\ cl <= 1) levels ->
  forall (acc : list SummaryRow) (g : rng),
  exists rows g',
    summary_loop self levels acc g = OK ((acc ++ rows)%list, g') /\
    Forall2 (row_computed self) levels rows.
Proof using sqrtQ_nonneg.
  intros Hne Hl. induction Hl as [|cl levels [H0 H1] Hl IH]; intros acc g.
  - exists [], g. split; [|constructor].
    cbn [summary_loop]. unfold ret. now rewrite app_nil_r.
  - destruct (level_label_valid cl (conj H0 H1))
      as [c [p [k [_ [_ [_ [_ [_ Hlab]]]]]]]].
    set (label := NilZero.string_of_int (Z.to_int k) ++ "%") in Hlab.
    destruct (var_parametric_eq self cl g H0 H1) as [z [_ Hp]].
    set (g1 := snd (draws standard_sample_size g)) in *.
    destruct (var_historical_total self cl g1 Hne H0 H1) as [h Hh].
    destruct (var_monte_carlo_eq self cl default_simulations g1
                default_simulations_pos H0 H1) as [m [_ Hm]].
    set (g2 := snd (draws default_simulations g1)) in *.
    set (row := mkRow label
                      (Fabs (Fadd (Series_mean (returns self))
                                  (Fmul (Series_std (returns self)) z)))
                      h (Fabs m)).
    destruct (IH (acc ++ [row])%list g2) as [rows [g' [Hloop Hrows]]].
    exists (row :: rows), g'. split.
    + cbn [summary_loop]. unfold bind at 1. unfold lift. rewrite Hlab.
      unfold bind at 1. rewrite Hp.
      unfold bind at 1. rewrite Hh. unfold bind at 1. rewrite Hm.
      fold row. rewrite Hloop, <- app_assoc. reflexivity.
    + constructor; [|assumption].
      unfold row_computed, row. cbn [Confidence_Level Parametric_VaR Historical_VaR
                                     Monte_Carlo_VaR].
      split; [exact Hlab|]. split; [now exists g, g1|].
      split; [now exists g1 | now exists g1, g2].
Qed.



(** ** Verified properties *)

Lemma valid_level_range (cl : Q) : valid_confidence_level cl -> 0 <= cl /\ cl <= 1.
Proof. intros [H0 H1]. split; lra. Qed.

(** C1 (amended): for a non-empty finite return series and a valid
    confidence level, [var_historical] returns the absolute value of the
    linearly interpolated percentile of the series at [cl * 100]; for the
    ten-point example series the value at level 0.1 is 0.021. *)
Theorem C1_historical_var_is_abs_percentile
    (self : VaRCalculator) (qs : list Q) (cl : Q) (g : rng) :
  returns self = map Fin qs -> qs <> [] -> valid_confidence_level cl ->
  exists x,
    var_historical self cl g = OK (Fin x, g) /\
    x == Qabs (linear_percentile qs (cl * 100)) /\
    (qs = example_returns -> cl == 1 # 10 -> x == 21 # 1000).
Proof.
  intros Hr Hne Hcl. destruct (valid_level_range cl Hcl) as [H0 H1].
  destruct (var_historical_Fin self qs cl g Hr Hne H0 H1) as [x [Hx Ex]].
  exists x. split; [assumption|]. split; [assumption|].
  intros -> Hten. destruct (percent_in_range cl H0 H1) as [P0 P1].
  assert (Hp : cl * 100 == 10) by (rewrite Hten; reflexivity).
  rewrite Ex, (linear_percentile_comp example_returns _ 10 Hne P0 P1 Hp).
  vm_compute. reflexivity.
Qed.

(** C2 (amended): for a finite return series, a valid confidence level and
    any state of the random generator, the historical estimator returns a
    non-negative float as soon as the series is non-empty, and the
    parametric and Monte Carlo estimators do so as soon as the series has
    at least two returns. *)
Theorem C2_var_nonnegative
    (self : VaRCalculator) (qs : list Q) (cl : Q) (simulations : nat) (g : rng) :
  returns self = map Fin qs -> qs <> [] -> valid_confidence_level cl ->
  (1 <= simulations)%nat ->
  (exists h, var_historical self cl g = OK (h, g) /\ Fnonneg h = true) /\
  ((2 <= length qs)%nat ->
   (exists p g', var_parametric self cl g = OK (p, g') /\ Fnonneg p = true) /\
   (exists m g', var_monte_carlo self cl simulations g = OK (m, g') /\
                 Fnonneg m = true)).
Proof using sqrtQ_nonneg.
  intros Hr Hne Hcl Hsim. destruct (valid_level_range cl Hcl) as [H0 H1].
  split; [|intros Hn; split].
  - destruct (var_historical_Fin self qs cl g Hr Hne H0 H1) as [x [Hx Ex]].
    exists (Fin x). split; [assumption|].
    apply Qle_bool_iff. rewrite Ex. apply Qabs_nonneg.
  - destruct (var_parametric_Fin self qs cl g Hr Hn H0 H1) as [x [Hx Ex]].
    exists (Fin x), (snd (draws standard_sample_size g)).
    split; [assumption|]. apply Qle_bool_iff. rewrite Ex. apply Qabs_nonneg.
  - destruct (var_monte_carlo_Fin self qs cl simulations g Hr Hn Hsim H0 H1)
      as [x [Hx Ex]].
    exists (Fin x), (snd (draws simulations g)).
    split; [assumption|]. apply Qle_bool_iff. rewrite Ex. apply Qabs_nonneg.
Qed.

(** C3: for every non-empty finite return series whose 1st, 5th and 10th
    percentiles are non-positive, the historical estimates are ordered
    [var_historical 0.01 >= var_historical 0.05 >= var_historical 0.10]. *)
Theorem C3_historical_var_antitone_on_tail
    (self : VaRCalculator) (qs : list Q) (g : rng) :
  returns self = map Fin qs -> qs <> [] ->
  linear_percentile qs 1 <= 0 ->
  linear_percentile qs 5 <= 0 ->
  linear_percentile qs 10 <= 0 ->
  exists v1 v5 v10,
    var_historical self (1 # 100) g = OK (Fin v1, g) /\
    var_historical self (5 # 100) g = OK (Fin v5, g) /\
    var_historical self (1 # 10) g = OK (Fin v10, g) /\
    v5 <= v1 /\ v10 <= v5.
Proof.
  intros Hr Hne N1 N5 N10.
  destruct (var_historical_at self qs (1 # 100) 1 g Hr Hne) as [v1 [Hv1 E1]];
    try reflexivity; try discriminate.
  destruct (var_historical_at self qs (5 # 100) 5 g Hr Hne) as [v5 [Hv5 E5]];
    try reflexivity; try discriminate.
  destruct (var_historical_at self qs (1 # 10) 10 g Hr Hne) as [v10 [Hv10 E10]];
    try reflexivity; try discriminate.
  exists v1, v5, v10. repeat (split; [assumption|]).
  rewrite (Qabs_neg _ N1) in E1. rewrite (Qabs_neg _ N5) in E5.
  rewrite (Qabs_neg _ N10) in E10.
  assert (M15 : linear_percentile qs 1 <= linear_percentile qs 5)
    by (apply linear_percentile_mono; try assumption; discriminate).
  assert (M510 : linear_percentile qs 5 <= linear_percentile qs 10)
    by (apply linear_percentile_mono; try assumption; discriminate).
  split; lra.
Qed.


(** C5: when the provider returns fewer than two prices, construction
    fails: with no price it raises the no-data error, with a single price
    the empty-returns error; and a successful construction never holds an
    empty return series. *)
Theorem C5_short_price_series_fails (ticker start_date end_date : string) :
  (length (Adj_Close (yf_download ticker start_date end_date)) < 2)%nat ->
  (Adj_Close (yf_download ticker start_date end_date) = [] /\
   __init__ ticker start_date end_date = Raise (DataUnavailableError ticker)
   \/
   length (Adj_Close (yf_download ticker start_date end_date)) = 1%nat /\
   __init__ ticker start_date end_date = Raise EmptyReturnsError) /\
  (forall self, __init__ ticker start_date end_date <> OK self) /\
  (forall t s e self, __init__ t s e = OK self -> returns self <> []).
Proof.
  intros Hlen.
  assert (Hfail :
    Adj_Close (yf_download ticker start_date end_date) = [] /\
    __init__ ticker start_date end_date = Raise (DataUnavailableError ticker)
    \/
    length (Adj_Close (yf_download ticker start_date end_date)) = 1%nat /\
    __init__ ticker start_date end_date = Raise EmptyReturnsError).
  { destruct (Adj_Close (yf_download ticker start_date end_date))
      as [|p [|p' ps]] eqn:Hp.
    - left. split; [reflexivity|].
      unfold __init__, _download_data, frame_empty. rewrite Hp. reflexivity.
    - right. split; [reflexivity|].
      rewrite (init_of_prices _ _ _ p [] Hp). reflexivity.
    - simpl in Hlen. lia. }
  split; [exact Hfail|]. split.
  - intros self Hc. destruct Hfail as [[_ H] | [_ H]]; congruence.
  - intros t s e self H. now apply init_ok_inv in H.
Qed.

(** C6: for a series of [n >= 2] positive prices, construction succeeds,
    the return series has [n-1] elements, it is non-empty, and its element
    at position [i-1] is [price_i / price_(i-1) - 1] for [i = 1..n-1]. *)
Theorem C6_returns_are_simple_percentage_changes
    (ticker start_date end_date : string) (prices : list Q) :
  Adj_Close (yf_download ticker start_date end_date) = prices ->
  (2 <= length prices)%nat ->
  Forall (fun p => 0 < p) prices ->
  exists self,
    __init__ ticker start_date end_date = OK self /\
    length (returns self) = (length prices - 1)%nat /\
    returns self <> [] /\
    forall i, (1 <= i < length prices)%nat ->
      nth (i - 1) (returns self) NaN
      = Fin (nth i prices 0 / nth (i - 1) prices 0 - 1).
Proof.
  intros Hp Hn Hpos.
  destruct prices as [|p0 [|p1 ps]]; simpl in Hn; try lia.
  pose proof (returns_of_positive_prices p0 (p1 :: ps) Hpos) as Hret.
  exists (mkVaRCalculator ticker start_date end_date
            (map Fin (p0 :: p1 :: ps))
            (map Fin (simple_returns p0 (p1 :: ps)))).
  split; [|split; [|split]].
  - rewrite (init_of_prices _ _ _ p0 (p1 :: ps) Hp).
    unfold _calculate_returns. rewrite Hret. reflexivity.
  - cbn [returns]. rewrite length_map, simple_returns_length. simpl. lia.
  - cbn [returns]. discriminate.
  - intros i Hi. cbn [returns].
    assert (Hlt : (i - 1 < length (p1 :: ps))%nat) by (simpl in *; lia).
    rewrite nth_map_Fin by now rewrite simple_returns_length.
    rewrite simple_returns_nth by assumption.
    replace (S (i - 1)) with i by lia. reflexivity.
Qed.

(** C7: for a finite return series with at least two returns and a valid
    confidence level, [var_parametric] returns [|mu + sigma * z_p|], with
    [mu] the sample mean, [sigma] the square root of the sample variance
    with denominator [n-1], and [z_p] the percentile at [cl * 100] of the
    standard-normal sample drawn by the call. *)
Theorem C7_parametric_var_formula
    (self : VaRCalculator) (qs : list Q) (cl : Q) (g : rng) :
  returns self = map Fin qs -> (2 <= length qs)%nat ->
  valid_confidence_level cl ->
  exists x g',
    var_parametric self cl g = OK (Fin x, g') /\
    x == Qabs (sample_mean qs
               + sample_std qs
                 * linear_percentile (fst (draws standard_sample_size g))
                                     (cl * 100)).
Proof.
  intros Hr Hn Hcl. destruct (valid_level_range cl Hcl) as [H0 H1].
  destruct (var_parametric_Fin self qs cl g Hr Hn H0 H1) as [x [Hx Ex]].
  exists x, (snd (draws standard_sample_size g)). split; assumption.
Qed.

(** C8: two calls of [var_historical] on estimators with the same return
    series and with the same confidence level give the same outcome,
    whatever the states of the random generator, and neither call changes
    that state. *)
Theorem C8_historical_var_deterministic
    (self1 self2 : VaRCalculator) (cl : Q) (g1 g2 : rng) :
  returns self1 = returns self2 ->
  exists r : result float,
    var_historical self1 cl g1 = lift r g1 /\
    var_historical self2 cl g2 = lift r g2.
Proof.
  intros Hr.
  exists (result_bind (np_percentile (returns self1) (cl * 100))
            (fun var => OK (Fabs var))).
  split; [apply var_historical_pure|].
  rewrite Hr. apply var_historical_pure.
Qed.

(** C9: the failure on an empty download and the failure on an empty
    return series are both raised as [ValueError]; the two exceptions
    differ in their message only. *)
Theorem C9_construction_failures_share_type
    (t1 s1 e1 t2 s2 e2 : string) :
  Adj_Close (yf_download t1 s1 e1) = [] ->
  Adj_Close (yf_download t2 s2 e2) <> [] ->
  dropna (pct_change (column_Adj_Close (yf_download t2 s2 e2))) = [] ->
  exists ex1 ex2,
    __init__ t1 s1 e1 = Raise ex1 /\
    __init__ t2 s2 e2 = Raise ex2 /\
    exc_type ex1 = ValueError /\
    exc_type ex2 = ValueError /\
    exc_msg ex1 <> exc_msg ex2.
Proof.
  intros H1 H2 H3.
  exists (DataUnavailableError t1), EmptyReturnsError.
  split; [|split; [|split; [|split]]]; try reflexivity.
  - unfold __init__, _download_data, frame_empty. rewrite H1. reflexivity.
  - unfold __init__, _download_data, frame_empty.
    destruct (Adj_Close (yf_download t2 s2 e2)) eqn:Hp; [congruence|].
    cbn [result_bind]. unfold _calculate_returns. rewrite H3. reflexivity.
  - cbn. discriminate.
Qed.

(** C10: levels 0 and 1, outside the open interval of valid confidence
    levels, are accepted: on a non-empty finite return series
    [var_historical 0] returns the absolute value of the smallest return
    and [var_historical 1] that of the largest, and the two sampled
    estimators return a value as well. *)
Theorem C10_boundary_levels_accepted
    (self : VaRCalculator) (qs : list Q) (g : rng) :
  returns self = map Fin qs -> qs <> [] ->
  ~ valid_confidence_level 0 /\ ~ valid_confidence_level 1 /\
  (exists lo hi,
     var_historical self 0 g = OK (Fin lo, g) /\ lo == Qabs (minimum qs) /\
     var_historical self 1 g = OK (Fin hi, g) /\ hi == Qabs (maximum qs)) /\
  (forall cl, cl = 0 \/ cl = 1 ->
     (exists p g', var_parametric self cl g = OK (p, g')) /\
     (exists m g', var_monte_carlo self cl default_simulations g = OK (m, g'))).
Proof using sqrtQ_nonneg.
  intros Hr Hne.
  split; [intros [H _]; lra|]. split; [intros [_ H]; lra|]. split.
  - destruct (var_historical_at self qs 0 0 g Hr Hne) as [lo [Hlo Elo]];
      try reflexivity; try discriminate.
    destruct (var_historical_at self qs 1 100 g Hr Hne) as [hi [Hhi Ehi]];
      try reflexivity; try discriminate.
    exists lo, hi. repeat split; try assumption.
    + now rewrite Elo, linear_percentile_0.
    + now rewrite Ehi, linear_percentile_100.
  - intros cl Hcl.
    assert (Hrange : 0 <= cl /\ cl <= 1)
      by (destruct Hcl; subst cl; split; discriminate).
    destruct Hrange as [H0 H1]. split.
    + destruct (var_parametric_eq self cl g H0 H1) as [z [_ Hp]].
      eexists _, _. exact Hp.
    + destruct (var_monte_carlo_eq self cl default_simulations g
                  default_simulations_pos H0 H1) as [z [_ Hm]].
      eexists _, _. exact Hm.
Qed.

(** ** Lemmas: a sorted sample is determined by its counts *)

Lemma count_cons (f : Q -> bool) (x : Q) (l : list Q) :
  count f (x :: l) = ((if f x then 1 else 0) + count f l)%nat.
Proof. unfold count. simpl. destruct (f x); reflexivity. Qed.

Lemma count_insertQ (f : Q -> bool) (x : Q) (l : list Q) :
  count f (insertQ x l) = count f (x :: l).
Proof.
  induction l as [|y l IH]; [reflexivity|].
  simpl insertQ. destruct (Qle_bool x y); [reflexivity|].
  rewrite (count_cons f y), IH, !count_cons. lia.
Qed.

Lemma count_sortQ (f : Q -> bool) (l : list Q) : count f (sortQ l) = count f l.
Proof.
  unfold sortQ. induction l as [|x l IH]; [reflexivity|].
  simpl fold_right. rewrite count_insertQ, !count_cons, IH. reflexivity.
Qed.

Lemma count_map (f : Q -> bool) (g : Q -> Q) (l : list Q) :
  count f (map g l) = count (fun x => f (g x)) l.
Proof.
  induction l as [|x l IH]; [reflexivity|].
  simpl map. rewrite !count_cons, IH. reflexivity.
Qed.

Lemma count_Permutation (f : Q -> bool) (l l' : list Q) :
  Permutation l l' -> count f l = count f l'.
Proof.
  intros H. induction H as [|x l l' H IH|x y l|l l' l'' H1 IH1 H2 IH2].
  - reflexivity.
  - rewrite !count_cons, IH. reflexivity.
  - rewrite !count_cons. lia.
  - now rewrite IH1.
Qed.

Lemma count_mono (f g : Q -> bool) (l : list Q) :
  (forall x, f x = true -> g x = true) -> (count f l <= count g l)%nat.
Proof.
  intros H. induction l as [|x l IH]; [apply Nat.le_refl|].
  rewrite !count_cons. specialize (H x).
  destruct (f x), (g x); lia.
Qed.

Lemma count_none (f : Q -> bool) (l : list Q) :
  Forall (fun x => f x = false) l -> count f l = 0%nat.
Proof.
  intros H. induction H as [|x l Hx Hl IH]; [reflexivity|].
  rewrite count_cons, Hx, IH. reflexivity.
Qed.

Lemma below_true (v x : Q) : below v x = true <-> x < v.
Proof.
  unfold below. rewrite negb_true_iff. split.
  - intros H. apply Qnot_le_lt. intro Hc. apply Qle_bool_iff in Hc. congruence.
  - intros H. destruct (Qle_bool v x) eqn:E; [|reflexivity].
    apply Qle_bool_iff in E. lra.
Qed.

Lemma at_most_true (v x : Q) : at_most v x = true <-> x <= v.
Proof. apply Qle_bool_iff. Qed.

Lemma sorted_count_below (s : list Q) :
  StronglySorted Qle s ->
  forall k, (k < length s)%nat -> (count (below (nth k s 0%Q)) s <= k)%nat.
Proof.
  intros Hs. induction Hs as [|a l Hs IH Ha]; intros k Hk; simpl in Hk; [lia|].
  destruct k as [|k].
  - cbn [nth]. rewrite count_none; [lia|].
    constructor.
    + destruct (below a a) eqn:E; [|reflexivity]. apply below_true in E. lra.
    + eapply Forall_impl; [|exact Ha]. intros x Hx.
      destruct (below a x) eqn:E; [|reflexivity]. apply below_true in E. lra.
  - cbn [nth]. rewrite count_cons. specialize (IH k ltac:(lia)).
    destruct (below (nth k l 0) a); lia.
Qed.

Lemma sorted_count_at_most (s : list Q) :
  StronglySorted Qle s ->
  forall k, (k < length s)%nat -> (k < count (at_most (nth k s 0%Q)) s)%nat.
Proof.
  intros Hs. induction Hs as [|a l Hs IH Ha]; intros k Hk; simpl in Hk; [lia|].
  destruct k as [|k].
  - cbn [nth]. rewrite count_cons.
    replace (at_most a a) with true; [lia|].
    symmetry. apply at_most_true. lra.
  - cbn [nth]. rewrite count_cons. specialize (IH k ltac:(lia)).
    replace (at_most (nth k l 0) a) with true; [lia|].
    symmetry. apply at_most_true.
    rewrite Forall_forall in Ha. apply Ha, nth_In. lia.
Qed.

Lemma sorted_nth_by_counts (s : list Q) (k : nat) (v : Q) :
  StronglySorted Qle s -> (k < length s)%nat ->
  (count (below v) s <= k)%nat -> (k < count (at_most v) s)%nat ->
  nth k s 0 == v.
Proof.
  intros Hs Hk Hlo Hhi.
  pose proof (sorted_count_below s Hs k Hk) as B.
  pose proof (sorted_count_at_most s Hs k Hk) as A.
  destruct (Q_dec (nth k s 0) v) as [[Hlt | Hgt] | Heq]; [| |exact Heq].
  - assert (count (at_most (nth k s 0%Q)) s <= count (below v) s)%nat.
    { apply count_mono. intros x Hx. apply at_most_true in Hx.
      apply below_true. lra. }
    lia.
  - assert (count (at_most v) s <= count (below (nth k s 0%Q)) s)%nat.
    { apply count_mono. intros x Hx. apply at_most_true in Hx.
      apply below_true. lra. }
    lia.
Qed.

Lemma Forall2_Qeq_of_nth (l l' : list Q) :
  length l = length l' ->
  (forall k, (k < length l)%nat -> nth k l 0 == nth k l' 0) ->
  Forall2 Qeq l l'.
Proof.
  revert l'. induction l as [|x l IH]; intros [|y l'] Hlen H; simpl in Hlen;
    try discriminate; constructor.
  - apply (H 0%nat). simpl. lia.
  - apply IH; [lia|]. intros k Hk. apply (H (S k)). simpl. lia.
Qed.

(** Two sorted samples with the same size and the same counts agree entry
    by entry. *)
Lemma sorted_same_counts (s1 s2 : list Q) :
  StronglySorted Qle s1 -> StronglySorted Qle s2 ->
  length s1 = length s2 ->
  (forall f, count f s1 = count f s2) ->
  Forall2 Qeq s1 s2.
Proof.
  intros H1 H2 Hlen Hc. apply Forall2_Qeq_of_nth; [assumption|].
  intros k Hk. symmetry.
  apply sorted_nth_by_counts; try assumption; try lia.
  - rewrite <- Hc. now apply sorted_count_below.
  - rewrite <- Hc. now apply sorted_count_at_most.
Qed.

Lemma map_sorted (f : Q -> Q) (s : list Q) :
  (forall x y, x <= y -> f x <= f y) ->
  StronglySorted Qle s -> StronglySorted Qle (map f s).
Proof.
  intros Hf Hs. induction Hs as [|a l Hs IH Ha]; simpl; constructor.
  - assumption.
  - apply Forall_map. eapply Forall_impl; [|exact Ha]. intros x Hx. now apply Hf.
Qed.

Lemma sortQ_Permutation (l l' : list Q) :
  Permutation l l' -> Forall2 Qeq (sortQ l) (sortQ l').
Proof.
  intros H. apply sorted_same_counts; try apply sortQ_sorted.
  - rewrite !sortQ_length. now apply Permutation_length.
  - intros f. rewrite !count_sortQ. now apply count_Permutation.
Qed.

Lemma sortQ_map_monotone (f : Q -> Q) (l : list Q) :
  (forall x y, x <= y -> f x <= f y) ->
  Forall2 Qeq (sortQ (map f l)) (map f (sortQ l)).
Proof.
  intros Hf. apply sorted_same_counts.
  - apply sortQ_sorted.
  - apply map_sorted; [assumption | apply sortQ_sorted].
  - now rewrite sortQ_length, !length_map, sortQ_length.
  - intros g. now rewrite count_sortQ, !count_map, count_sortQ.
Qed.

(** ** Lemmas: the percentile under reordering and under affine maps *)

Lemma linear_percentile_Permutation (qs qs' : list Q) (p : Q) :
  Permutation qs qs' -> linear_percentile qs p == linear_percentile qs' p.
Proof.
  intros H. unfold linear_percentile.
  rewrite (Permutation_length H).
  now apply interpolate_Qeq, sortQ_Permutation.
Qed.

Lemma linear_percentile_map_ext (f f' : Q -> Q) (qs : list Q) (p : Q) :
  (forall x, f x == f' x) ->
  linear_percentile (map f qs) p == linear_percentile (map f' qs) p.
Proof.
  intros Hf. unfold linear_percentile. rewrite !length_map.
  apply interpolate_Qeq, sortQ_Qeq.
  induction qs as [|x qs IH]; simpl; constructor; auto.
Qed.

Lemma interpolate_affine (a b : Q) (s : list Q) (h : Q) :
  (Z.to_nat (Qfloor h) < length s)%nat ->
  interpolate (map (fun x => a + b * x) s) h == a + b * interpolate s h.
Proof.
  intros Hk. unfold interpolate.
  set (k := Z.to_nat (Qfloor h)) in *. set (f := fun x => a + b * x).
  assert (Hlo : nth k (map f s) 0 = f (nth k s 0)).
  { rewrite (nth_indep _ 0 (f 0)) by now rewrite length_map. apply map_nth. }
  rewrite Hlo, (map_nth f). unfold f. ring.
Qed.

Lemma linear_percentile_affine (a b : Q) (qs : list Q) (p : Q) :
  0 <= b -> qs <> [] -> 0 <= p / 100 -> p / 100 <= 1 ->
  linear_percentile (map (fun x => a + b * x) qs) p
  == a + b * linear_percentile qs p.
Proof.
  intros Hb Hne H0 H1. unfold linear_percentile. rewrite length_map.
  pose proof (nonempty_length qs Hne) as Hn.
  destruct (rank_range (length qs) (p / 100) Hn H0 H1) as [A B].
  rewrite (interpolate_Qeq _ (map (fun x => a + b * x) (sortQ qs))).
  - apply interpolate_affine. rewrite sortQ_length.
    now apply rank_floor_in_range.
  - apply sortQ_map_monotone. intros x y Hxy.
    assert (0 <= b * (y - x)) by (apply Qmult_le_0_compat; lra). lra.
Qed.

Lemma linear_percentile_bounds (qs : list Q) (p : Q) :
  qs <> [] -> 0 <= p / 100 -> p / 100 <= 1 ->
  minimum qs <= linear_percentile qs p /\ linear_percentile qs p <= maximum qs.
Proof.
  intros Hne H0 H1.
  assert (E : p == 100 * (p / 100)) by field.
  assert (P : 0 <= p /\ p <= 100).
  { revert E H0 H1. generalize (p / 100). intros q E H0 H1. split; lra. }
  destruct P as [P0 P1].
  rewrite <- (linear_percentile_0 qs Hne), <- (linear_percentile_100 qs Hne).
  split; apply linear_percentile_mono; try assumption; discriminate.
Qed.

Lemma Qabs_between (lo v hi : Q) :
  lo <= v -> v <= hi -> Qabs v <= Qmax (Qabs lo) (Qabs hi).
Proof.
  intros H1 H2.
  pose proof (Q.le_max_l (Qabs lo) (Qabs hi)) as Ml.
  pose proof (Q.le_max_r (Qabs lo) (Qabs hi)) as Mr.
  pose proof (Qle_Qabs hi) as Ah.
  pose proof (Qle_Qabs (- lo)) as Al. rewrite Qabs_opp in Al.
  apply Qabs_case; intros Hv; lra.
Qed.

(** ** Further properties of the historical estimator *)

(** X3: The historical estimate never exceeds the largest absolute return of
    the series. *)
Theorem historical_var_bounded_by_extreme_return
    (self : VaRCalculator) (qs : list Q) (cl : Q) (g : rng) :
  returns self = map Fin qs -> qs <> [] -> 0 <= cl -> cl <= 1 ->
  exists x,
    var_historical self cl g = OK (Fin x, g) /\
    x <= Qmax (Qabs (minimum qs)) (Qabs (maximum qs)).
Proof.
  intros Hr Hne H0 H1.
  destruct (var_historical_Fin self qs cl g Hr Hne H0 H1) as [x [Hx Ex]].
  exists x. split; [assumption|]. rewrite Ex.
  destruct (percent_in_range cl H0 H1) as [P0 P1].
  destruct (linear_percentile_bounds qs (cl * 100) Hne P0 P1) as [L U].
  now apply Qabs_between.
Qed.

(** X4: Between two levels [cl1 <= cl2]: where the percentile at [cl2] is a
    loss (non-positive) the estimate at [cl1] is at least the one at [cl2];
    where the percentile at [cl1] is a gain (non-negative) the order is the
    opposite. *)
Theorem historical_var_monotone_in_level
    (self : VaRCalculator) (qs : list Q) (cl1 cl2 : Q) (g : rng) :
  returns self = map Fin qs -> qs <> [] ->
  0 <= cl1 -> cl1 <= cl2 -> cl2 <= 1 ->
  exists v1 v2,
    var_historical self cl1 g = OK (Fin v1, g) /\
    var_historical self cl2 g = OK (Fin v2, g) /\
    (linear_percentile qs (cl2 * 100) <= 0 -> v2 <= v1) /\
    (0 <= linear_percentile qs (cl1 * 100) -> v1 <= v2).
Proof.
  intros Hr Hne H0 H12 H1.
  destruct (var_historical_Fin self qs cl1 g Hr Hne) as [v1 [Hv1 E1]];
    [lra | lra |].
  destruct (var_historical_Fin self qs cl2 g Hr Hne) as [v2 [Hv2 E2]];
    [lra | lra |].
  exists v1, v2. split; [assumption|]. split; [assumption|].
  assert (M : linear_percentile qs (cl1 * 100) <= linear_percentile qs (cl2 * 100)).
  { apply linear_percentile_mono; try assumption.
    - rewrite percent_round_trip. assumption.
    - lra.
    - rewrite percent_round_trip. assumption. }
  split; intros Hs.
  - rewrite E1, E2, (Qabs_neg _ Hs), Qabs_neg by lra. lra.
  - rewrite E1, E2, (Qabs_pos _ Hs), Qabs_pos by lra. lra.
Qed.

(** X5: The historical estimate depends on the returns as a multiset: reordering
    the series does not change it. *)
Theorem historical_var_permutation_invariant
    (self self' : VaRCalculator) (qs qs' : list Q) (cl : Q) (g g' : rng) :
  returns self = map Fin qs -> returns self' = map Fin qs' ->
  Permutation qs qs' -> qs <> [] -> 0 <= cl -> cl <= 1 ->
  exists x x',
    var_historical self cl g = OK (Fin x, g) /\
    var_historical self' cl g' = OK (Fin x', g') /\
    x == x'.
Proof.
  intros Hr Hr' Hp Hne H0 H1.
  assert (Hne' : qs' <> []).
  { intro Hc. subst qs'. apply Permutation_sym, Permutation_nil in Hp.
    contradiction. }
  destruct (var_historical_Fin self qs cl g Hr Hne H0 H1) as [x [Hx Ex]].
  destruct (var_historical_Fin self' qs' cl g' Hr' Hne' H0 H1) as [x' [Hx' Ex']].
  exists x, x'. split; [assumption|]. split; [assumption|].
  now rewrite Ex, Ex', (linear_percentile_Permutation qs qs' _ Hp).
Qed.

(** X6: Scaling every return by a factor [c >= 0] scales the historical
    estimate by [c]. *)
Theorem historical_var_positively_homogeneous
    (self self' : VaRCalculator) (qs : list Q) (c cl : Q) (g g' : rng) :
  returns self = map Fin qs ->
  returns self' = map Fin (map (fun r => c * r) qs) ->
  0 <= c -> qs <> [] -> 0 <= cl -> cl <= 1 ->
  exists x x',
    var_historical self cl g = OK (Fin x, g) /\
    var_historical self' cl g' = OK (Fin x', g') /\
    x' == c * x.
Proof.
  intros Hr Hr' Hc Hne H0 H1.
  assert (Hne' : map (fun r => c * r) qs <> []).
  { intro E. apply map_eq_nil in E. contradiction. }
  destruct (var_historical_Fin self qs cl g Hr Hne H0 H1) as [x [Hx Ex]].
  destruct (var_historical_Fin self' _ cl g' Hr' Hne' H0 H1) as [x' [Hx' Ex']].
  exists x, x'. split; [assumption|]. split; [assumption|].
  destruct (percent_in_range cl H0 H1) as [P0 P1].
  rewrite Ex', Ex.
  assert (E : linear_percentile (map (fun r => c * r) qs) (cl * 100)
              == 0 + c * linear_percentile qs (cl * 100)).
  { rewrite <- (linear_percentile_affine 0 c qs _ Hc Hne P0 P1).
    apply linear_percentile_map_ext. intros r. ring. }
  rewrite E, Qplus_0_l, Qabs_Qmult, (Qabs_pos c Hc). reflexivity.
Qed.

(** ** Further properties of the sampled estimators *)

(** X7: On a finite series with at least two returns the Monte Carlo estimate
    is [|mu + sigma * z_p|], with [z_p] the percentile of the standard
    draws behind the simulated returns: the parametric formula on
    [simulations] draws. *)
Theorem monte_carlo_var_is_parametric_formula
    (self : VaRCalculator) (qs : list Q) (cl : Q) (simulations : nat) (g : rng) :
  returns self = map Fin qs -> (2 <= length qs)%nat ->
  (1 <= simulations)%nat -> 0 <= cl -> cl <= 1 ->
  exists x,
    var_monte_carlo self cl simulations g
    = OK (Fin x, snd (draws simulations g)) /\
    x == Qabs (sample_mean qs
               + sample_std qs
                 * linear_percentile (fst (draws simulations g)) (cl * 100)).
Proof using sqrtQ_nonneg.
  intros Hr Hn Hsim H0 H1.
  destruct (var_monte_carlo_Fin self qs cl simulations g Hr Hn Hsim H0 H1)
    as [x [Hx Ex]].
  exists x. split; [assumption|]. rewrite Ex.
  destruct (percent_in_range cl H0 H1) as [P0 P1].
  rewrite linear_percentile_affine; try assumption; try reflexivity.
  - apply sqrtQ_nonneg.
  - intro Hc. apply (f_equal (@length Q)) in Hc.
    rewrite draws_length in Hc. simpl in Hc. lia.
Qed.

Lemma np_percentile_out_of_range (a : ndarray) (cl : Q) :
  cl < 0 \/ 1 < cl ->
  np_percentile a (cl * 100) = Raise percentile_range_error.
Proof.
  intros Hcl. unfold np_percentile.
  destruct (_quantile_is_valid (cl * 100 / 100)) eqn:E; [|reflexivity].
  apply quantile_valid_iff in E. rewrite percent_round_trip in E. lra.
Qed.

(** X1: A level below 0 or above 1 makes each estimator raise the
    [ValueError] of [np.percentile], whatever the return series and the
    number of simulations. *)
Theorem estimators_reject_level_out_of_range
    (self : VaRCalculator) (cl : Q) (simulations : nat) (g : rng) :
  cl < 0 \/ 1 < cl ->
  var_historical self cl g = Raise percentile_range_error /\
  var_parametric self cl g = Raise percentile_range_error /\
  var_monte_carlo self cl simulations g = Raise percentile_range_error.
Proof using sqrtQ_nonneg.
  intros Hcl. split; [|split].
  - rewrite var_historical_pure, np_percentile_out_of_range by assumption.
    reflexivity.
  - unfold var_parametric, bind.
    rewrite np_random_normal_ok by (cbn; discriminate).
    unfold lift. rewrite np_percentile_out_of_range by assumption. reflexivity.
  - unfold var_monte_carlo, bind.
    rewrite np_random_normal_ok by apply Series_std_sign.
    unfold lift. rewrite np_percentile_out_of_range by assumption. reflexivity.
Qed.

(** ** Further properties of the summary *)

Lemma summary_loop_acc (self : VaRCalculator) (levels : list Q) :
  forall (acc : list SummaryRow) (g : rng),
    summary_loop self levels acc g =
    match summary_loop self levels [] g with
    | OK (rows, g') => OK ((acc ++ rows)%list, g')
    | Raise e => Raise e
    end.
Proof.
  induction levels as [|cl levels IH]; intros acc g.
  - cbn [summary_loop]. unfold ret. now rewrite app_nil_r.
  - cbn [summary_loop]. unfold bind, lift.
    destruct (level_label cl) as [label|e]; [|reflexivity].
    destruct (var_parametric self cl g) as [[p g1]|e]; [|reflexivity].
    destruct (var_historical self cl g1) as [[h g2]|e]; [|reflexivity].
    destruct (var_monte_carlo self cl default_simulations g2) as [[m g3]|e];
      [|reflexivity].
    rewrite (IH (acc ++ _)%list g3), (IH ([] ++ _)%list g3).
    destruct (summary_loop self levels [] g3) as [[rows g']|e]; [|reflexivity].
    now rewrite <- app_assoc.
Qed.

Lemma summary_loop_app (self : VaRCalculator) (l1 l2 : list Q) :
  forall (acc : list SummaryRow) (g : rng),
    summary_loop self (l1 ++ l2) acc g =
    match summary_loop self l1 acc g with
    | OK (rows, g') => summary_loop self l2 rows g'
    | Raise e => Raise e
    end.
Proof.
  induction l1 as [|cl l1 IH]; intros acc g.
  - reflexivity.
  - cbn [app summary_loop]. unfold bind, lift.
    destruct (level_label cl) as [label|e]; [|reflexivity].
    destruct (var_parametric self cl g) as [[p g1]|e]; [|reflexivity].
    destruct (var_historical self cl g1) as [[h g2]|e]; [|reflexivity].
    destruct (var_monte_carlo self cl default_simulations g2) as [[m g3]|e];
      [|reflexivity].
    apply IH.
Qed.

(** X8: The summary of a concatenated list of levels is the summary of the
    first part followed by the summary of the second part computed from the
    generator state the first one left; a failure of either part is the
    failure of the whole. *)
Theorem summary_of_concatenated_levels
    (self : VaRCalculator) (l1 l2 : list Q) (g : rng) :
  get_var_summary self (l1 ++ l2) g =
  match get_var_summary self l1 g with
  | OK (rows1, g1) =>
      match get_var_summary self l2 g1 with
      | OK (rows2, g2) => OK ((rows1 ++ rows2)%list, g2)
      | Raise e => Raise e
      end
  | Raise e => Raise e
  end.
Proof.
  unfold get_var_summary. rewrite summary_loop_app.
  destruct (summary_loop self l1 [] g) as [[rows1 g1]|e]; [|reflexivity].
  apply summary_loop_acc.
Qed.

Lemma level_product_cases (cl : Q) :
  (exists p, float_mul (binary64 cl) (Fin 100) = Fin p) \/
  float_mul (binary64 cl) (Fin 100) = PInf \/
  float_mul (binary64 cl) (Fin 100) = NInf.
Proof.
  assert (Hm : forall q, (exists r, round_magnitude q = Fin r) \/
                         round_magnitude q = PInf).
  { intros q. unfold round_magnitude.
    destruct (Qle_bool _ _); [now right | left; eexists; reflexivity]. }
  assert (Hb : forall q, (exists r, binary64 q = Fin r) \/
                         binary64 q = PInf \/ binary64 q = NInf).
  { intros q. unfold binary64. destruct (q ?= 0).
    - left. now exists 0.
    - destruct (Hm (- q)) as [[r ->] | ->]; [left; eexists; reflexivity|].
      right. now right.
    - destruct (Hm q) as [[r E] | E]; [left; now exists r | right; now left]. }
  unfold float_mul.
  destruct (Hb cl) as [[c ->] | [-> | ->]].
  - cbn [Fmul Fround]. apply Hb.
  - right. now left.
  - right. now right.
Qed.

Lemma summary_loop_rejects (self : VaRCalculator) (cl : Q) (rest : list Q) :
  cl < 0 \/ 1 < cl ->
  forall (acc : list SummaryRow) (g : rng),
    summary_loop self (cl :: rest) acc g =
    Raise (match level_label cl with
           | OK _ => percentile_range_error
           | Raise e => e
           end).
Proof using sqrtQ_nonneg.
  intros Hbad acc g. cbn [summary_loop]. unfold bind at 1. unfold lift.
  destruct (level_label cl) as [label|e]; [|reflexivity].
  unfold bind at 1.
  destruct (estimators_reject_level_out_of_range self cl O g Hbad) as [_ [-> _]].
  reflexivity.
Qed.

(** A list with a level outside [0, 1] splits at the first such level. *)
Lemma first_level_out_of_range (levels : list Q) :
  Exists (fun cl => cl < 0 \/ 1 < cl) levels ->
  exists before cl after,
    levels = (before ++ cl :: after)%list /\
    Forall (fun c => 0 <= c /\ c <= 1) before /\
    (cl < 0 \/ 1 < cl).
Proof.
  induction levels as [|c levels IH]; intros Hex; [inversion Hex|].
  destruct (Qlt_le_dec c 0) as [Hlo | Hlo].
  { exists [], c, levels. split; [reflexivity|]. split; [constructor | now left]. }
  destruct (Qlt_le_dec 1 c) as [Hhi | Hhi].
  { exists [], c, levels. split; [reflexivity|]. split; [constructor | now right]. }
  inversion Hex as [? ? Hbad | ? ? Htl]; subst; [lra|].
  destruct (IH Htl) as [before [cl [after [E [Hb Hc]]]]].
  exists (c :: before), cl, after. split; [now rewrite E|].
  split; [constructor; [split; assumption | exact Hb] | exact Hc].
Qed.

(** X2: If a requested level lies outside [0, 1] while the levels before it
    lie within, the summary raises and returns no table.  The label of a
    row is formed before the estimators are called: when the binary64
    product of the offending level with 100 is finite the exception is the
    [ValueError] of [np.percentile], and when it is infinite it is the
    [OverflowError] of [int]. *)
Theorem summary_rejects_level_out_of_range
    (self : VaRCalculator) (before : list Q) (cl : Q) (after : list Q) (g : rng) :
  returns self <> [] ->
  Forall (fun c => 0 <= c /\ c <= 1) before ->
  cl < 0 \/ 1 < cl ->
  exists e,
    get_var_summary self (before ++ cl :: after) g = Raise e /\
    (((exists p, float_mul (binary64 cl) (Fin 100) = Fin p) /\
      e = percentile_range_error) \/
     ((float_mul (binary64 cl) (Fin 100) = PInf \/
       float_mul (binary64 cl) (Fin 100) = NInf) /\
      e = float_overflow_error)).
Proof using sqrtQ_nonneg.
  intros Hne Hbefore Hbad.
  destruct (summary_loop_rows self before Hne Hbefore [] g) as [rows [g' [Hs _]]].
  unfold get_var_summary. rewrite summary_loop_app, Hs.
  rewrite summary_loop_rejects by exact Hbad.
  destruct (level_product_cases cl) as [[p Ep] | Einf].
  - exists percentile_range_error. split.
    + destruct (level_label_finite cl p Ep) as [l ->]. reflexivity.
    + left. split; [now exists p | reflexivity].
  - exists float_overflow_error. split.
    + now rewrite (level_label_infinite cl Einf).
    + right. split; [exact Einf | reflexivity].
Qed.

Lemma row_computed_label_and_historical
    (self : VaRCalculator) (levels : list Q) (rows rows' : list SummaryRow) :
  Forall2 (row_computed self) levels rows ->
  Forall2 (row_computed self) levels rows' ->
  map Confidence_Level rows = map Confidence_Level rows' /\
  map Historical_VaR rows = map Historical_VaR rows'.
Proof.
  intros H. revert rows'.
  induction H as [|cl row levels rows Hrow Hrows IH]; intros rows' H'.
  - inversion H'. split; reflexivity.
  - inversion H' as [|? row' ? rows'' Hrow' Hrows' E1 E2]; subst.
    destruct (IH rows'' Hrows') as [IHl IHh].
    destruct Hrow as [L [_ [[ga Ha] _]]]. destruct Hrow' as [L' [_ [[gb Hb] _]]].
    assert (EL : Confidence_Level row = Confidence_Level row') by congruence.
    cbn [map]. rewrite EL, IHl, IHh. split; [reflexivity|].
    f_equal. rewrite var_historical_pure in Ha, Hb. unfold lift in Ha, Hb.
    destruct (result_bind (np_percentile (returns self) (cl * 100))
                (fun var => OK (Fabs var))); congruence.
Qed.

(** X9: Two summaries of the same levels, computed from any two states of the
    random generator, carry the same labels and the same historical column;
    only the two sampled columns can differ. *)
Theorem summary_labels_and_historical_column_repeat
    (self : VaRCalculator) (levels : list Q) (g1 g2 : rng) :
  returns self <> [] ->
  Forall (fun cl => 0 <= cl /\ cl <= 1) levels ->
  exists rows1 rows2 g1' g2',
    get_var_summary self levels g1 = OK (rows1, g1') /\
    get_var_summary self levels g2 = OK (rows2, g2') /\
    map Confidence_Level rows1 = map Confidence_Level rows2 /\
    map Historical_VaR rows1 = map Historical_VaR rows2.
Proof using sqrtQ_nonneg.
  intros Hne Hl.
  destruct (summary_loop_rows self levels Hne Hl [] g1) as [rows1 [g1' [H1 F1]]].
  destruct (summary_loop_rows self levels Hne Hl [] g2) as [rows2 [g2' [H2 F2]]].
  exists rows1, rows2, g1', g2'. split; [exact H1|]. split; [exact H2|].
  now apply (row_computed_label_and_historical self levels).
Qed.

Lemma draws_snd_add (a b : nat) (g : rng) :
  snd (draws (a + b) g) = snd (draws b (snd (draws a g))).
Proof.
  revert g. induction a as [|a IH]; intros g; [reflexivity|].
  cbn [Nat.add draws]. destruct (standard_normal g) as [z g1].
  specialize (IH g1).
  destruct (draws (a + b) g1) as [zs g2], (draws a g1) as [zs' g2'].
  exact IH.
Qed.

Lemma summary_loop_final_state (self : VaRCalculator) (levels : list Q) :
  returns self <> [] ->
  Forall (fun cl => 0 <= cl /\ cl <= 1) levels ->
  forall (acc : list SummaryRow) (g : rng),
  exists rows,
    summary_loop self levels acc g
    = OK (rows,
          snd (draws (length levels * (standard_sample_size + default_simulations)) g)).
Proof using sqrtQ_nonneg.
  intros Hne Hl. induction Hl as [|cl levels [H0 H1] Hl IH]; intros acc g.
  - exists acc. reflexivity.
  - destruct (var_parametric_eq self cl g H0 H1) as [z [_ Hp]].
    set (g1 := snd (draws standard_sample_size g)) in *.
    destruct (var_historical_total self cl g1 Hne H0 H1) as [h Hh].
    destruct (var_monte_carlo_eq self cl default_simulations g1
                default_simulations_pos H0 H1) as [m [_ Hm]].
    set (g2 := snd (draws default_simulations g1)) in *.
    destruct (level_label_valid cl (conj H0 H1))
      as [c [p [k [_ [_ [_ [_ [_ Hlab]]]]]]]].
    destruct (IH (acc ++ [mkRow (NilZero.string_of_int (Z.to_int k) ++ "%")
                            (Fabs (Fadd (Series_mean (returns self))
                                        (Fmul (Series_std (returns self)) z)))
                            h (Fabs m)])%list g2) as [rows Hrows].
    exists rows. cbn [summary_loop]. unfold bind at 1. unfold lift. rewrite Hlab.
    unfold bind at 1. rewrite Hp.
    unfold bind at 1. rewrite Hh. unfold bind at 1. rewrite Hm.
    rewrite Hrows. do 2 f_equal.
    change (length (cl :: levels)) with (S (length levels)).
    rewrite Nat.mul_succ_l.
    rewrite (Nat.add_comm (length levels * _)%nat), draws_snd_add.
    rewrite (draws_snd_add standard_sample_size default_simulations g).
    reflexivity.
Qed.

(** X10: A summary over [n] levels in [0, 1] advances the random generator by
    exactly [n * (100000 + 10000)] standard-normal draws, whatever the return
    series holds. *)
Theorem summary_consumes_fixed_number_of_draws
    (self : VaRCalculator) (levels : list Q) (g : rng) :
  returns self <> [] ->
  Forall (fun cl => 0 <= cl /\ cl <= 1) levels ->
  exists rows,
    get_var_summary self levels g
    = OK (rows,
          snd (draws (length levels * (standard_sample_size + default_simulations)) g)).
Proof using sqrtQ_nonneg.
  intros Hne Hl. now apply summary_loop_final_state.
Qed.

(** ** Further properties of the construction *)

Lemma pct_change_head (x : float) (s : Series) :
  pct_change (x :: s)
  = NaN :: map (fun '(cur, prev) => Fsub (Fdiv cur prev) (Fin 1))
               (combine s (removelast (x :: s))).
Proof.
  unfold pct_change, shift. cbn [combine map]. f_equal.
  destruct x; reflexivity.
Qed.

Lemma dropna_length_le (s : Series) : (length (dropna s) <= length s)%nat.
Proof.
  unfold dropna. induction s as [|x s IH]; simpl; [lia|].
  destruct (negb (isnan x)); simpl; lia.
Qed.

Lemma returns_length_le (s : Series) :
  (length (dropna (pct_change s)) <= length s - 1)%nat.
Proof.
  destruct s as [|x s]; [simpl; lia|].
  rewrite pct_change_head, dropna_cons_NaN.
  eapply Nat.le_trans; [apply dropna_length_le|].
  rewrite length_map, length_combine. simpl. lia.
Qed.

Lemma dropna_no_nan (s : Series) : Forall (fun x => isnan x = false) (dropna s).
Proof.
  apply Forall_forall. intros x Hx. unfold dropna in Hx.
  apply filter_In in Hx as [_ Hx]. now apply negb_true_iff.
Qed.

(** X11: A successful construction keeps the ticker and the dates it was given
    and the downloaded price column; its return series holds no NaN, is not
    empty, and is at least one element shorter than the price column. *)
Theorem construction_invariants
    (ticker0 start0 end0 : string) (self : VaRCalculator) :
  __init__ ticker0 start0 end0 = OK self ->
  ticker self = ticker0 /\ start_date self = start0 /\ end_date self = end0 /\
  data self = column_Adj_Close (yf_download ticker0 start0 end0) /\
  Forall (fun r => isnan r = false) (returns self) /\
  (1 <= length (returns self) <= length (data self) - 1)%nat.
Proof.
  intros H.
  destruct (init_ok_inv _ _ _ _ H) as [_ [Hd [Hr Hne]]].
  assert (Hf : ticker self = ticker0 /\ start_date self = start0 /\
               end_date self = end0).
  { unfold __init__ in H.
    destruct (_download_data ticker0 start0 end0) as [d|]; [|discriminate].
    cbn [result_bind] in H.
    destruct (_calculate_returns d) as [r|]; [|discriminate].
    cbn [result_bind] in H. injection H as <-. repeat split. }
  destruct Hf as [F1 [F2 F3]].
  repeat (split; [assumption|]). split.
  - rewrite Hr. apply dropna_no_nan.
  - split; [now apply nonempty_length|].
    rewrite Hr. apply returns_length_le.
Qed.

Lemma simple_returns_above_minus_one (prev : Q) (ps : list Q) :
  Forall (fun p => 0 < p) (prev :: ps) ->
  Forall (fun r => -1 < r) (simple_returns prev ps).
Proof.
  revert prev. induction ps as [|p ps IH]; intros prev Hpos; simpl; [constructor|].
  inversion Hpos as [|? ? Hprev Hrest]; subst.
  inversion Hrest as [|? ? Hp _]; subst.
  constructor; [|now apply IH].
  assert (0 < p / prev) by (apply Qlt_shift_div_l; lra). lra.
Qed.

(** X12: With at least two positive prices construction succeeds, no
    return is below -1, and a historical estimate taken on a loss (a
    non-positive percentile) is at most 1: the reported loss never exceeds
    100%. *)
Theorem positive_prices_bound_the_loss
    (ticker0 start0 end0 : string) (prices : list Q) (cl : Q) (g : rng) :
  Adj_Close (yf_download ticker0 start0 end0) = prices ->
  (2 <= length prices)%nat ->
  Forall (fun p => 0 < p) prices ->
  0 <= cl -> cl <= 1 ->
  exists self rs x,
    __init__ ticker0 start0 end0 = OK self /\
    returns self = map Fin rs /\
    Forall (fun r => -1 <= r) rs /\
    var_historical self cl g = OK (Fin x, g) /\
    (linear_percentile rs (cl * 100) <= 0 -> x <= 1).
Proof.
  intros Hp Hn Hpos H0 H1.
  destruct prices as [|p0 [|p1 ps]]; simpl in Hn; try lia.
  set (rs := simple_returns p0 (p1 :: ps)).
  set (self := mkVaRCalculator ticker0 start0 end0
                 (map Fin (p0 :: p1 :: ps)) (map Fin rs)).
  assert (Hne : rs <> []) by discriminate.
  assert (Hgt : Forall (fun r => -1 < r) rs)
    by now apply simple_returns_above_minus_one.
  destruct (var_historical_Fin self rs cl g eq_refl Hne H0 H1) as [x [Hx Ex]].
  exists self, rs, x. split; [|split; [reflexivity|split; [|split]]].
  - rewrite (init_of_prices _ _ _ p0 (p1 :: ps) Hp).
    unfold _calculate_returns.
    rewrite (returns_of_positive_prices p0 (p1 :: ps) Hpos). reflexivity.
  - eapply Forall_impl; [|exact Hgt]. intros r Hr. cbv beta in Hr. lra.
  - assumption.
  - intros Hloss. rewrite Ex, (Qabs_neg _ Hloss).
    destruct (percent_in_range cl H0 H1) as [P0 P1].
    destruct (linear_percentile_bounds rs (cl * 100) Hne P0 P1) as [L _].
    destruct (minimum_spec rs Hne) as [_ [y [Hy Ey]]].
    rewrite Forall_forall in Hgt. specialize (Hgt y Hy). lra.
Qed.

(** ** The script *)

Lemma row_computed_labels (self : VaRCalculator) (levels : list Q)
    (rows : list SummaryRow) :
  Forall2 (row_computed self) levels rows ->
  map OK (map Confidence_Level rows) = map level_label levels.
Proof.
  intros H. induction H as [|cl row levels rows [L _] _ IH]; [reflexivity|].
  cbn [map]. now rewrite L, IH.
Qed.

Lemma default_labels :
  map level_label default_confidence_levels = map OK ["1%"; "5%"; "10%"].
Proof. vm_compute. reflexivity. Qed.

Lemma map_OK_inj {A : Type} (l l' : list A) : map OK l = map OK l' -> l = l'.
Proof.
  revert l'. induction l as [|a l IH]; intros [|a' l'] H; try discriminate.
  - reflexivity.
  - cbn [map] in H. injection H as Ea El. f_equal; [exact Ea | now apply IH].
Qed.

(** X13: The script never ends in an exception: with no data it prints the
    no-data message, with data but no return it prints the empty-returns
    message, and otherwise it prints a table of three rows labelled 1%, 5%
    and 10%. *)
Theorem main_prints_table_or_message (g : rng) :
  let prices := Adj_Close (yf_download "SPY" "2024-01-01" "2025-01-01") in
  (prices = [] /\
   main g = OK [print_str "No se encontraron datos para SPY en el periodo dado."])
  \/
  (prices <> [] /\ dropna (pct_change (map Fin prices)) = [] /\
   main g = OK [print_str
     "Serie de retornos vacía. Ajusta el período o activo seleccionado."])
  \/
  (dropna (pct_change (map Fin prices)) <> [] /\
   exists rows,
     main g = OK [print_frame rows] /\
     map Confidence_Level rows = ["1%"; "5%"; "10%"]).
Proof using sqrtQ_nonneg.
  intros prices. unfold main.
  destruct prices as [|p0 ps] eqn:Hp; subst prices.
  - left. split; [reflexivity|].
    unfold __init__, _download_data, frame_empty. rewrite Hp. reflexivity.
  - right. rewrite (init_of_prices _ _ _ p0 ps Hp). unfold _calculate_returns.
    destruct (dropna (pct_change (map Fin (p0 :: ps)))) as [|r rs] eqn:Hr.
    + left. split; [discriminate|]. split; reflexivity.
    + right. split; [discriminate|]. cbn [empty result_bind].
      set (self := mkVaRCalculator "SPY" "2024-01-01" "2025-01-01"
                     (map Fin (p0 :: ps)) (r :: rs)).
      assert (Hne : returns self <> []) by discriminate.
      assert (Hl : Forall (fun cl => 0 <= cl /\ cl <= 1) default_confidence_levels)
        by (repeat constructor; discriminate).
      destruct (summary_loop_rows self default_confidence_levels Hne Hl [] g)
        as [rows [g' [Hs Hrows]]].
      exists rows. unfold get_var_summary. rewrite Hs. split; [reflexivity|].
      apply map_OK_inj.
      rewrite (row_computed_labels self _ _ Hrows). apply default_labels.
Qed.

(** ** Lemmas: minimum, maximum and the grid of [np.linspace] *)

Lemma fold_left_Fmin_Fin (l : list Q) (a : Q) :
  exists m, fold_left Fmin (map Fin l) (Fin a) = Fin m /\
            In m (a :: l) /\ forall x, In x (a :: l) -> m <= x.
Proof.
  revert a. induction l as [|y l IH]; intros a.
  - exists a. split; [reflexivity|]. split; [now left|].
    intros x [<- | []]. lra.
  - cbn [map fold_left]. unfold Fmin at 2. cbn [isnan Fleb].
    destruct (Qle_bool a y) eqn:E.
    + apply Qle_bool_iff in E. destruct (IH a) as [m [Hm [Hin Hle]]].
      exists m. split; [assumption|]. split.
      * destruct Hin as [<- | Hin]; [now left | right; now right].
      * intros x [<- | [<- | Hx]].
        -- apply Hle. now left.
        -- eapply Qle_trans; [apply Hle; now left | assumption].
        -- apply Hle. now right.
    + assert (Hya : y <= a).
      { apply Qlt_le_weak, Qnot_le_lt. intro Hc.
        apply Qle_bool_iff in Hc. congruence. }
      destruct (IH y) as [m [Hm [Hin Hle]]].
      exists m. split; [assumption|]. split; [now right|].
      intros x [<- | [<- | Hx]].
      * eapply Qle_trans; [apply Hle; now left | assumption].
      * apply Hle. now left.
      * apply Hle. now right.
Qed.

Lemma fold_left_Fmax_Fin (l : list Q) (a : Q) :
  exists m, fold_left Fmax (map Fin l) (Fin a) = Fin m /\
            In m (a :: l) /\ forall x, In x (a :: l) -> x <= m.
Proof.
  revert a. induction l as [|y l IH]; intros a.
  - exists a. split; [reflexivity|]. split; [now left|].
    intros x [<- | []]. lra.
  - cbn [map fold_left]. unfold Fmax at 2. cbn [isnan Fleb].
    destruct (Qle_bool a y) eqn:E.
    + apply Qle_bool_iff in E. destruct (IH y) as [m [Hm [Hin Hle]]].
      exists m. split; [assumption|]. split; [now right|].
      intros x [<- | [<- | Hx]].
      * eapply Qle_trans; [eassumption | apply Hle; now left].
      * apply Hle. now left.
      * apply Hle. now right.
    + assert (Hya : y <= a).
      { apply Qlt_le_weak, Qnot_le_lt. intro Hc.
        apply Qle_bool_iff in Hc. congruence. }
      destruct (IH a) as [m [Hm [Hin Hle]]].
      exists m. split; [assumption|]. split.
      * destruct Hin as [<- | Hin]; [now left | right; now right].
      * intros x [<- | [<- | Hx]].
        -- apply Hle. now left.
        -- eapply Qle_trans; [eassumption | apply Hle; now left].
        -- apply Hle. now right.
Qed.

Lemma np_min_Fin (qs : list Q) :
  qs <> [] ->
  exists lo, np_min (map Fin qs) = OK (Fin lo) /\
             In lo qs /\ forall x, In x qs -> lo <= x.
Proof.
  destruct qs as [|a l]; [congruence|]. intros _.
  destruct (fold_left_Fmin_Fin l a) as [m [Hm H]]. exists m.
  split; [|exact H]. cbn [map np_min]. now rewrite Hm.
Qed.

Lemma np_max_Fin (qs : list Q) :
  qs <> [] ->
  exists hi, np_max (map Fin qs) = OK (Fin hi) /\
             In hi qs /\ forall x, In x qs -> x <= hi.
Proof.
  destruct qs as [|a l]; [congruence|]. intros _.
  destruct (fold_left_Fmax_Fin l a) as [m [Hm H]]. exists m.
  split; [|exact H]. cbn [map np_max]. now rewrite Hm.
Qed.

Lemma of_nat_nonneg (n : nat) : 0 <= of_nat n.
Proof.
  unfold of_nat. change 0 with (inject_Z 0). rewrite <- Zle_Qle. lia.
Qed.

Lemma of_nat_le (i j : nat) : (i <= j)%nat -> of_nat i <= of_nat j.
Proof. intros H. unfold of_nat. rewrite <- Zle_Qle. lia. Qed.

Lemma of_nat_S (n : nat) : of_nat (S n) == of_nat n + 1.
Proof.
  unfold of_nat. rewrite Nat2Z.inj_succ. unfold Z.succ.
  rewrite inject_Z_plus. reflexivity.
Qed.

(** The grid of [num = m + 1 >= 2] points between two finite ends: the
    points [a + i * (b - a) / m] for [i < m], then [b] itself. *)
Lemma np_linspace_Fin (a b : Q) (m : nat) :
  (1 <= m)%nat ->
  exists grid : nat -> Q,
    np_linspace (Fin a) (Fin b) (S m)
    = map Fin (map grid (seq 0 m) ++ [b])%list /\
    forall i, grid i == a + of_nat i * ((b - a) / of_nat m).
Proof.
  intros Hm. unfold np_linspace.
  assert (Hdiv : (Z.of_nat (S m) - 1)%Z = Z.of_nat m) by lia.
  rewrite Hdiv. fold (of_nat m).
  destruct (Z.ltb_spec 0 (Z.of_nat m)) as [_ | Hc]; [|lia].
  destruct (Nat.ltb_spec 1 (S m)) as [_ | Hc]; [|lia].
  pose proof (of_nat_pos m Hm) as Hpos.
  assert (Hm0 : ~ of_nat m == 0).
  { intro Hc. apply Qgt_alt in Hpos. lra. }
  cbn [Fsub Fopp Fadd]. unfold Fdiv at 1. rewrite Hpos.
  assert (Hshape : forall (F : float -> float) (f : nat -> Q),
            (forall i, F (Fin (of_nat i)) = Fin (f i)) ->
            set_last (map F (map (fun i => Fin (of_nat i)) (seq 0 (S m)))) (Fin b)
            = map Fin (map f (seq 0 m) ++ [b])%list).
  { intros F f HF. rewrite map_map.
    rewrite (map_ext _ (fun i => Fin (f i)) HF).
    rewrite seq_S, !map_app, !map_map. cbn [map Nat.add].
    unfold set_last.
    destruct (map (fun x => Fin (f x)) (seq 0 m) ++ [Fin (f m)])%list eqn:E.
    - destruct (map (fun x => Fin (f x)) (seq 0 m)); discriminate.
    - rewrite <- E, removelast_last. reflexivity. }
  destruct (Fis_zero (Fin ((b + - a) / of_nat m))) eqn:Ez.
  - exists (fun i => of_nat i / of_nat m * (b + - a) + a). split.
    + rewrite map_map. apply Hshape. intros i.
      unfold Fdiv. rewrite Hpos. reflexivity.
    + intros i. field. exact Hm0.
  - exists (fun i => of_nat i * ((b + - a) / of_nat m) + a). split.
    + rewrite map_map. apply Hshape. intros i.
      unfold Fdiv. rewrite Hpos. reflexivity.
    + intros i. field. exact Hm0.
Qed.

(** ** Lemmas: the order on floats and [np.argmax] *)

Lemma Fleb_refl (x : float) : Fleb x x = true.
Proof. destruct x; simpl; try reflexivity. apply Qle_bool_iff. lra. Qed.

Lemma Fleb_total (x y : float) : Fleb x y = false -> Fleb y x = true.
Proof.
  destruct x, y; simpl; try reflexivity; try discriminate.
  intros H. apply Qle_bool_iff. apply Qlt_le_weak, Qnot_le_lt.
  intro Hc. apply Qle_bool_iff in Hc. congruence.
Qed.

Lemma Fleb_trans (x y z : float) :
  Fleb x y = true -> Fleb y z = true -> Fleb x z = true.
Proof.
  destruct x, y, z; simpl; try reflexivity; try discriminate.
  rewrite !Qle_bool_iff. intros. lra.
Qed.

Lemma argmax_from_spec (l : ndarray) :
  forall (bi : nat) (b : float) (i : nat),
    (bi < i)%nat ->
    let r := argmax_from bi b i l in
    let v := if (r =? bi)%nat then b else nth (r - i) l NaN in
    (r = bi \/ (i <= r < i + length l)%nat) /\
    Fleb b v = true /\
    Forall (fun x => Fleb x v = true) l.
Proof.
  induction l as [|x l IH]; intros bi b i Hbi; cbn [argmax_from].
  - cbv zeta. rewrite Nat.eqb_refl. split; [now left|].
    split; [apply Fleb_refl | constructor].
  - destruct (Fleb x b) eqn:E; cbn [negb].
    + destruct (IH bi b (S i) ltac:(lia)) as [Hr [Hb Hall]]. cbv zeta in *.
      set (r := argmax_from bi b (S i) l) in *.
      assert (Hv : (if (r =? bi)%nat then b else nth (r - i) (x :: l) NaN)
                   = (if (r =? bi)%nat then b else nth (r - S i) l NaN)).
      { destruct (Nat.eqb_spec r bi) as [_ | Hne]; [reflexivity|].
        destruct Hr as [Hr | Hr]; [contradiction|].
        replace (r - i)%nat with (S (r - S i)) by lia. reflexivity. }
      rewrite Hv. split; [|split].
      * destruct Hr as [Hr | Hr]; [now left | right; simpl; lia].
      * assumption.
      * constructor; [|assumption]. eapply Fleb_trans; eassumption.
    + destruct (IH i x (S i) ltac:(lia)) as [Hr [Hb Hall]]. cbv zeta in *.
      set (r := argmax_from i x (S i) l) in *.
      assert (Hne : r <> bi) by (destruct Hr; lia).
      assert (Hv : (if (r =? bi)%nat then b else nth (r - i) (x :: l) NaN)
                   = (if (r =? i)%nat then x else nth (r - S i) l NaN)).
      { destruct (Nat.eqb_spec r bi) as [Hc | _]; [contradiction|].
        destruct (Nat.eqb_spec r i) as [-> | Hni].
        - rewrite Nat.sub_diag. reflexivity.
        - destruct Hr as [Hr | Hr]; [contradiction|].
          replace (r - i)%nat with (S (r - S i)) by lia. reflexivity. }
      rewrite Hv. split; [|split].
      * right. destruct Hr as [Hr | Hr]; simpl; lia.
      * eapply Fleb_trans; [apply Fleb_total; exact E | exact Hb].
      * constructor; assumption.
Qed.

Lemma np_argmax_spec (a : ndarray) :
  a <> [] ->
  exists r, np_argmax a = OK r /\ (r < length a)%nat /\
            Forall (fun x => Fleb x (nth r a NaN) = true) a.
Proof.
  destruct a as [|x l]; [congruence|]. intros _.
  exists (argmax_from 0 x 1 l). split; [reflexivity|].
  destruct (argmax_from_spec l 0%nat x 1%nat ltac:(lia)) as [Hr [Hb Hall]].
  cbv zeta in *. set (r := argmax_from 0 x 1 l) in *.
  assert (Hv : (if (r =? 0)%nat then x else nth (r - 1) l NaN) = nth r (x :: l) NaN).
  { destruct (Nat.eqb_spec r 0) as [-> | Hne]; [reflexivity|].
    destruct r as [|r]; [contradiction|]. simpl. now rewrite Nat.sub_0_r. }
  rewrite Hv in *. split; [|constructor; assumption].
  destruct Hr as [-> | Hr]; simpl in *; lia.
Qed.

(** ** Lemmas: the points of the grid *)

Lemma grid_nth (grid : nat -> Q) (a b : Q) (m i : nat) :
  (1 <= m)%nat -> (i <= m)%nat ->
  (forall j, grid j == a + of_nat j * ((b - a) / of_nat m)) ->
  nth i (map grid (seq 0 m) ++ [b])%list 0
  == a + of_nat i * ((b - a) / of_nat m).
Proof.
  intros Hm Hi Hg.
  assert (Hm0 : ~ of_nat m == 0).
  { pose proof (of_nat_ge_1 m Hm). lra. }
  destruct (Nat.eq_dec i m) as [-> | Hne].
  - rewrite app_nth2 by (rewrite length_map, length_seq; lia).
    rewrite length_map, length_seq, Nat.sub_diag. cbn [nth]. field. exact Hm0.
  - rewrite app_nth1 by (rewrite length_map, length_seq; lia).
    rewrite (nth_indep _ 0 (grid 0%nat)) by (rewrite length_map, length_seq; lia).
    rewrite map_nth, seq_nth by lia. apply Hg.
Qed.

Lemma grid_length (grid : nat -> Q) (b : Q) (m : nat) :
  length (map grid (seq 0 m) ++ [b])%list = S m.
Proof. rewrite length_app, length_map, length_seq. simpl. lia. Qed.

Lemma grid_between (grid : nat -> Q) (a b : Q) (m i : nat) :
  (1 <= m)%nat -> (i <= m)%nat -> a <= b ->
  (forall j, grid j == a + of_nat j * ((b - a) / of_nat m)) ->
  a <= nth i (map grid (seq 0 m) ++ [b])%list 0 /\
  nth i (map grid (seq 0 m) ++ [b])%list 0 <= b.
Proof.
  intros Hm Hi Hab Hg. rewrite (grid_nth grid a b m i Hm Hi Hg).
  pose proof (of_nat_ge_1 m Hm) as Hm1.
  pose proof (of_nat_nonneg i) as Hi0.
  pose proof (of_nat_le i m Hi) as Him.
  assert (Hs : 0 <= (b - a) / of_nat m)
    by (apply Qle_shift_div_l; lra).
  assert (E : b == a + of_nat m * ((b - a) / of_nat m)) by (field; lra).
  revert Hs E. generalize ((b - a) / of_nat m). intros s Hs E.
  assert (A : 0 <= of_nat i * s) by (apply Qmult_le_0_compat; assumption).
  assert (B : 0 <= (of_nat m - of_nat i) * s) by (apply Qmult_le_0_compat; lra).
  split; lra.
Qed.

Lemma grid_step (grid : nat -> Q) (a b : Q) (m i : nat) :
  (1 <= m)%nat -> (i < m)%nat ->
  (forall j, grid j == a + of_nat j * ((b - a) / of_nat m)) ->
  nth (S i) (map grid (seq 0 m) ++ [b])%list 0
  - nth i (map grid (seq 0 m) ++ [b])%list 0
  == (b - a) / of_nat m.
Proof.
  intros Hm Hi Hg.
  rewrite (grid_nth grid a b m (S i) Hm ltac:(lia) Hg).
  rewrite (grid_nth grid a b m i Hm ltac:(lia) Hg).
  rewrite of_nat_S. ring.
Qed.

Lemma Sorted_of_nth (l : list Q) :
  (forall i, (S i < length l)%nat -> nth i l 0 <= nth (S i) l 0) ->
  Sorted Qle l.
Proof.
  induction l as [|x l IH]; intros H; [constructor|].
  constructor.
  - apply IH. intros i Hi. apply (H (S i)). simpl. lia.
  - destruct l as [|y l]; constructor. apply (H 0%nat). simpl. lia.
Qed.

Lemma grid_sorted (grid : nat -> Q) (a b : Q) (m : nat) :
  (1 <= m)%nat -> a <= b ->
  (forall j, grid j == a + of_nat j * ((b - a) / of_nat m)) ->
  Sorted Qle (map grid (seq 0 m) ++ [b])%list.
Proof.
  intros Hm Hab Hg. apply Sorted_of_nth. intros i Hi.
  rewrite grid_length in Hi.
  pose proof (grid_step grid a b m i Hm ltac:(lia) Hg) as Hs.
  pose proof (of_nat_ge_1 m Hm) as Hm1.
  assert (0 <= (b - a) / of_nat m) by (apply Qle_shift_div_l; lra).
  lra.
Qed.

(** ** Lemmas: the histogram over sorted finite edges *)

Lemma cumulative_counts_single (sa : ndarray) (x : float) :
  cumulative_counts sa [x] = [searchsorted_right sa x].
Proof. reflexivity. Qed.

Lemma cumulative_counts_cons (sa : ndarray) (x y : float) (r : ndarray) :
  cumulative_counts sa (x :: y :: r)
  = searchsorted_left sa x :: cumulative_counts sa (y :: r).
Proof.
  unfold cumulative_counts.
  change (removelast (x :: y :: r)) with (x :: removelast (y :: r)).
  cbn [map app length Nat.sub skipn]. rewrite ?Nat.sub_0_r. reflexivity.
Qed.

Lemma monotone_check_sorted (es : list Q) :
  Sorted Qle es ->
  existsb (fun '(lo, hi) => Fgt lo hi)
          (combine (removelast (map Fin es)) (tl (map Fin es))) = false.
Proof.
  intros Hs. induction Hs as [|x l Hs IH Hd]; [reflexivity|].
  destruct l as [|y r]; [reflexivity|].
  change (removelast (map Fin (x :: y :: r)))
    with (Fin x :: removelast (map Fin (y :: r))).
  change (tl (map Fin (x :: y :: r))) with (Fin y :: tl (map Fin (y :: r))).
  cbn [combine existsb]. rewrite IH.
  inversion Hd as [|? ? Hxy]; subst.
  unfold Fgt. cbn [isnan negb andb Fleb].
  replace (Qle_bool x y) with true by (symmetry; now apply Qle_bool_iff).
  reflexivity.
Qed.

Lemma searchsorted_left_nonneg (sa : ndarray) (v : float) :
  (0 <= searchsorted_left sa v)%Z.
Proof.
  induction sa as [|x l IH]; cbn [searchsorted_left searchsorted_right map Fleb negb]; [lia|]. destruct (negb (Fleb v x)); lia.
Qed.

Lemma searchsorted_left_mono (s : list Q) (x y : Q) :
  x <= y ->
  (searchsorted_left (map Fin s) (Fin x) <= searchsorted_left (map Fin s) (Fin y))%Z.
Proof.
  intros Hxy. induction s as [|z s IH]; cbn [searchsorted_left searchsorted_right map Fleb negb]; [lia|].
  destruct (Qle_bool x z) eqn:E1; cbn [searchsorted_left searchsorted_right map Fleb negb].
  - destruct (Qle_bool y z); cbn [searchsorted_left searchsorted_right map Fleb negb]; [lia|].
    pose proof (searchsorted_left_nonneg (map Fin s) (Fin y)). lia.
  - destruct (Qle_bool y z) eqn:E2; cbn [searchsorted_left searchsorted_right map Fleb negb]; [|lia].
    apply Qle_bool_iff in E2.
    assert (Qle_bool x z = true) by (apply Qle_bool_iff; lra). congruence.
Qed.

Lemma searchsorted_left_le_right (s : list Q) (x y : Q) :
  x <= y ->
  (searchsorted_left (map Fin s) (Fin x) <= searchsorted_right (map Fin s) (Fin y))%Z.
Proof.
  intros Hxy. induction s as [|z s IH]; cbn [searchsorted_left searchsorted_right map Fleb negb]; [lia|].
  destruct (Qle_bool x z) eqn:E1; cbn [searchsorted_left searchsorted_right map Fleb negb].
  - destruct (Qle_bool z y); [|lia].
    assert (0 <= searchsorted_right (map Fin s) (Fin y))%Z; [|lia].
    clear. induction s as [|w s IH]; cbn [searchsorted_left searchsorted_right map Fleb negb]; [lia|].
    destruct (Qle_bool w y); lia.
  - assert (E2 : Qle_bool z y = true).
    { apply Qle_bool_iff. apply Qlt_le_weak.
      apply Qlt_le_trans with x; [|assumption].
      apply Qnot_le_lt. intro Hc. apply Qle_bool_iff in Hc. congruence. }
    rewrite E2. lia.
Qed.

Lemma searchsorted_left_below_all (s : list Q) (v : Q) :
  (forall z, In z s -> v <= z) -> searchsorted_left (map Fin s) (Fin v) = 0%Z.
Proof.
  intros H. destruct s as [|z s]; [reflexivity|]. cbn [searchsorted_left searchsorted_right map Fleb negb].
  replace (Qle_bool v z) with true; [reflexivity|].
  symmetry. apply Qle_bool_iff, H. now left.
Qed.

Lemma searchsorted_right_above_all (s : list Q) (v : Q) :
  (forall z, In z s -> z <= v) ->
  searchsorted_right (map Fin s) (Fin v) = Z.of_nat (length s).
Proof.
  intros H. induction s as [|z s IH]; [reflexivity|].
  cbn [map searchsorted_right Fleb length].
  replace (Qle_bool z v) with true
    by (symmetry; apply Qle_bool_iff, H; now left).
  rewrite IH by (intros w Hw; apply H; now right). lia.
Qed.

Lemma np_diff_cons (c0 c1 : Z) (cs : list Z) :
  np_diff (c0 :: c1 :: cs) = (c1 - c0)%Z :: np_diff (c1 :: cs).
Proof. reflexivity. Qed.

(** Counts taken over non-decreasing finite edges: one per bin, none
    negative, and their sum runs from the cumulative count at the first
    edge to the one at the last edge. *)
Lemma histogram_counts (s : list Q) (es : list Q) :
  Sorted Qle es -> es <> [] ->
  let c := cumulative_counts (map Fin s) (map Fin es) in
  (searchsorted_left (map Fin s) (Fin (hd 0%Q es)) <= hd 0%Z c)%Z /\
  ((2 <= length es)%nat -> hd 0%Z c = searchsorted_left (map Fin s) (Fin (hd 0%Q es))) /\
  length (np_diff c) = (length es - 1)%nat /\
  Forall (fun n => (0 <= n)%Z) (np_diff c) /\
  Zsum (np_diff c)
  = (searchsorted_right (map Fin s) (Fin (last es 0%Q)) - hd 0%Z c)%Z.
Proof.
  intros Hs. induction Hs as [|x l Hs IH Hd]; intros Hne; [congruence|].
  destruct l as [|y r].
  - cbn [map]. rewrite cumulative_counts_single. cbv zeta. cbn [hd last length].
    split; [apply searchsorted_left_le_right; lra|].
    split; [intros Hc; simpl in Hc; lia|].
    split; [reflexivity|]. split; [constructor|].
    unfold np_diff, Zsum. simpl. lia.
  - specialize (IH ltac:(discriminate)). cbv zeta in IH.
    destruct IH as [Hhd [_ [Hlen [Hall Hsum]]]].
    change (map Fin (x :: y :: r)) with (Fin x :: Fin y :: map Fin r).
    rewrite cumulative_counts_cons. cbv zeta.
    change (Fin y :: map Fin r) with (map Fin (y :: r)).
    set (c' := cumulative_counts (map Fin s) (map Fin (y :: r))) in *.
    inversion Hd as [|? ? Hxy]; subst.
    assert (Hc' : exists c1 cs, c' = c1 :: cs).
    { unfold c'. destruct r as [|z r'].
      - cbn [map]. rewrite cumulative_counts_single. eauto.
      - change (map Fin (y :: z :: r')) with (Fin y :: Fin z :: map Fin r').
        rewrite cumulative_counts_cons. eauto. }
    destruct Hc' as [c1 [cs Ec]]. rewrite Ec in *. cbn [hd] in *.
    rewrite np_diff_cons.
    assert (Hstep : (searchsorted_left (map Fin s) (Fin x) <= c1)%Z).
    { eapply Z.le_trans; [apply searchsorted_left_mono; exact Hxy | exact Hhd]. }
    split; [lia|]. split; [reflexivity|].
    split; [cbn [length] in *; lia|].
    split; [constructor; [lia | assumption]|].
    change (last (x :: y :: r) 0) with (last (y :: r) 0).
    unfold Zsum in *. cbn [fold_right]. lia.
Qed.

Lemma histogram_of_sorted_edges (qs es : list Q) (lo hi : Q) :
  Sorted Qle es -> (2 <= length es)%nat ->
  hd 0 es <= lo -> last es 0 == hi ->
  (forall x, In x qs -> lo <= x /\ x <= hi) ->
  exists counts,
    np_histogram (map Fin qs) (map Fin es) = OK counts /\
    length counts = (length es - 1)%nat /\
    Forall (fun n => (0 <= n)%Z) counts /\
    Zsum counts = Z.of_nat (length qs).
Proof.
  intros Hs Hlen Hhd Hlast Hrange.
  assert (Hne : es <> []) by (destruct es; simpl in Hlen; [lia | discriminate]).
  unfold np_histogram. rewrite (monotone_check_sorted es Hs).
  fold (cumulative_counts (np_sort (map Fin qs)) (map Fin es)).
  rewrite np_sort_Fin.
  destruct (histogram_counts (sortQ qs) es Hs Hne) as [_ [Hh [Hl [Hall Hsum]]]].
  cbv zeta in *. eexists. split; [reflexivity|].
  split; [assumption|]. split; [assumption|].
  rewrite Hsum, (Hh Hlen).
  rewrite searchsorted_left_below_all.
  - rewrite searchsorted_right_above_all, sortQ_length; [lia|].
    intros z Hz. apply (proj1 (sortQ_In z qs)) in Hz.
    destruct (Hrange z Hz). lra.
  - intros z Hz. apply (proj1 (sortQ_In z qs)) in Hz.
    destruct (Hrange z Hz). lra.
Qed.

(** ** Properties of Distribucion.py *)

Lemma price_ratios_length (prev : Q) (ps : list Q) :
  length (price_ratios prev ps) = length ps.
Proof.
  revert prev. induction ps as [|p ps IH]; intros prev; simpl; [reflexivity|].
  now rewrite IH.
Qed.

Lemma Fdiv_positive (cur prev : Q) :
  0 < prev -> Fdiv (Fin cur) (Fin prev) = Fin (cur / prev).
Proof.
  intros Hp. unfold Fdiv.
  replace (prev ?= 0) with Gt by (symmetry; now apply Qgt_alt). reflexivity.
Qed.

Lemma Flog_of_positive_not_nan (q : Q) : 0 < q -> isnan (Flog (Fin q)) = false.
Proof.
  intros Hq. cbn [Flog].
  replace (q ?= 0) with Gt by (symmetry; now apply Qgt_alt). reflexivity.
Qed.

Lemma download_data_tail (p0 : Q) (ps : list Q) :
  Forall (fun p => 0 < p) (p0 :: ps) ->
  filter (fun row : float * float => negb (isnan (snd row)))
    (combine (map Fin ps)
       (map (fun '(cur, prev) => Flog (Fdiv cur prev))
          (combine (map Fin ps) (removelast (map Fin (p0 :: ps))))))
  = combine (map Fin ps) (map (fun x => Flog (Fin x)) (price_ratios p0 ps)).
Proof.
  revert p0. induction ps as [|p1 ps IH]; intros p0 Hpos; [reflexivity|].
  inversion Hpos as [|? ? Hp0 Hrest]; subst.
  inversion Hrest as [|? ? Hp1 _]; subst.
  change (removelast (map Fin (p0 :: p1 :: ps)))
    with (Fin p0 :: removelast (map Fin (p1 :: ps))).
  cbn [map combine price_ratios filter snd].
  rewrite (Fdiv_positive p1 p0 Hp0).
  assert (Hn : isnan (Flog (Fin (p1 / p0))) = false).
  { apply Flog_of_positive_not_nan. apply Qlt_shift_div_l; lra. }
  rewrite Hn. cbn [negb]. f_equal. exact (IH p1 Hrest).
Qed.

(** X14: [download_data] on a column of positive prices keeps one row per
    price after the first and drops no other: row [i] holds the price [p_i]
    and the log return [log (p_i / p_(i-1))]. *)
Theorem download_data_log_returns
    (ticker0 start0 : string) (p0 : Q) (ps : list Q) :
  Adj_Close (yf_download_from ticker0 start0) = p0 :: ps ->
  Forall (fun p => 0 < p) (p0 :: ps) ->
  download_data ticker0 start0
  = combine (map Fin ps) (map (fun x => Flog (Fin x)) (price_ratios p0 ps)) /\
  length (download_data ticker0 start0) = length ps.
Proof.
  intros Hp Hpos.
  assert (E : download_data ticker0 start0
              = combine (map Fin ps)
                  (map (fun x => Flog (Fin x)) (price_ratios p0 ps))).
  { unfold download_data, column_Adj_Close, shift. rewrite Hp.
    change (map Fin (p0 :: ps)) with (Fin p0 :: map Fin ps) at 1 2 3.
    cbn [combine map filter snd Fdiv Flog isnan negb].
    now apply download_data_tail. }
  split; [exact E|].
  rewrite E, length_combine, !length_map, price_ratios_length.
  apply Nat.min_id.
Qed.

(** X15: With fewer than two prices the frame is left without rows and
    [compute_statistics] stops on the minimum of an empty array. *)
Theorem compute_statistics_needs_two_prices (ticker0 start0 : string) :
  (length (Adj_Close (yf_download_from ticker0 start0)) < 2)%nat ->
  download_data ticker0 start0 = [] /\
  compute_statistics (download_data ticker0 start0)
  = Raise (mkExc ValueError
      "zero-size array to reduction operation minimum which has no identity").
Proof.
  intros Hlen.
  assert (E : download_data ticker0 start0 = []).
  { unfold download_data, column_Adj_Close.
    destruct (Adj_Close (yf_download_from ticker0 start0)) as [|p [|p' ps]];
      [reflexivity | reflexivity | simpl in Hlen; lia]. }
  split; [exact E|]. rewrite E. reflexivity.
Qed.

Lemma kde_grid_size_S : kde_grid_size = S (Z.to_nat 1999).
Proof. unfold kde_grid_size. lia. Qed.

Lemma nth_map_default (f : float -> float) (l : ndarray) (r : nat) :
  (r < length l)%nat -> nth r (map f l) NaN = f (nth r l NaN).
Proof.
  intros H. rewrite (nth_indep _ NaN (f NaN)) by now rewrite length_map.
  apply map_nth.
Qed.

(** X16: On finite, non-empty log returns that the kernel estimate accepts,
    [compute_statistics] succeeds; [all_min] and [all_max] are the smallest
    and the largest log return, and [mode_val] is a point of the 2000-point
    grid between them where the estimated density is greatest on the grid. *)
Theorem compute_statistics_range_and_mode
    (df : LogFrame) (qs : list Q) (kde : float -> float) :
  map snd df = map Fin qs -> qs <> [] ->
  gaussian_kde (map Fin qs) = OK kde ->
  exists stats lo hi mode,
    compute_statistics df = OK stats /\
    all_min stats = Fin lo /\ all_max stats = Fin hi /\
    mode_val stats = Fin mode /\
    In lo qs /\ In hi qs /\ (forall x, In x qs -> lo <= x /\ x <= hi) /\
    lo <= mode /\ mode <= hi /\
    In (Fin mode) (np_linspace (Fin lo) (Fin hi) kde_grid_size) /\
    Forall (fun x => Fleb (kde x) (kde (Fin mode)) = true)
           (np_linspace (Fin lo) (Fin hi) kde_grid_size).
Proof.
  intros Hd Hne Hk.
  destruct (np_min_Fin qs Hne) as [lo [Hmin [Ilo Hlo]]].
  destruct (np_max_Fin qs Hne) as [hi [Hmax [Ihi Hhi]]].
  assert (Hlh : lo <= hi) by now apply Hlo.
  set (m := Z.to_nat 1999).
  assert (Hm : (1 <= m)%nat) by (unfold m; lia).
  destruct (np_linspace_Fin lo hi m Hm) as [grid [Hgrid Hg]].
  set (es := (map grid (seq 0 m) ++ [hi])%list) in *.
  assert (Hes : length es = S m) by apply grid_length.
  assert (Hx : map kde (map Fin es) <> []).
  { intro Hc. apply (f_equal (@length float)) in Hc.
    rewrite !length_map, Hes in Hc. discriminate. }
  destruct (np_argmax_spec _ Hx) as [r [Hr [Hrl Hall]]].
  rewrite !length_map, Hes in Hrl.
  exists (mkStatistics (Series_mean (map snd df)) (Series_std (map snd df))
            (skew (map snd df)) (kurtosis (map snd df))
            (Fin (nth r es 0)) (Fin lo) (Fin hi)),
         lo, hi, (nth r es 0).
  assert (Hgrid' : np_linspace (Fin lo) (Fin hi) kde_grid_size = map Fin es)
    by (rewrite kde_grid_size_S; exact Hgrid).
  split.
  { unfold compute_statistics. rewrite Hd, Hmin, Hmax. cbn [result_bind].
    rewrite Hk. cbn [result_bind]. rewrite Hgrid', Hr. cbn [result_bind].
    rewrite take_nonneg by (rewrite length_map, Hes; lia).
    rewrite Nat2Z.id, nth_map_Fin by lia. reflexivity. }
  cbn [all_min all_max mode_val]. repeat (split; [reflexivity|]).
  split; [assumption|]. split; [assumption|].
  split; [intros x Hxin; split; [now apply Hlo | now apply Hhi]|].
  destruct (grid_between grid lo hi m r Hm ltac:(lia) Hlh Hg) as [B1 B2].
  fold es in B1, B2. split; [assumption|]. split; [assumption|].
  rewrite Hgrid'. split.
  - rewrite <- (nth_map_Fin es r) by lia. apply nth_In.
    rewrite length_map. lia.
  - rewrite nth_map_default in Hall by (rewrite length_map; lia).
    rewrite nth_map_Fin in Hall by lia.
    rewrite Forall_map in Hall. exact Hall.
Qed.

Lemma set_last_length (y : ndarray) (v : float) : length (set_last y v) = length y.
Proof.
  destruct y as [|x l]; [reflexivity|]. unfold set_last.
  rewrite length_app, removelast_firstn_len, length_firstn. simpl. lia.
Qed.

Lemma np_linspace_length (start stop : float) (num : nat) :
  length (np_linspace start stop num) = num.
Proof.
  unfold np_linspace.
  assert (H : forall (F G H : float -> float) (b1 b2 : bool),
            length (map (fun v => Fadd v start)
                      (if b1
                       then if b2
                            then map F (map (fun i => Fin (of_nat i)) (seq 0 num))
                            else map G (map (fun i => Fin (of_nat i)) (seq 0 num))
                       else map H (map (fun i => Fin (of_nat i)) (seq 0 num))))
            = num).
  { intros F G H b1 b2. destruct b1, b2; now rewrite !length_map, length_seq. }
  destruct (1 <? num)%nat; [rewrite set_last_length|]; apply H.
Qed.

(** X17: With finite ends [lo <= hi] and at least one bin, [prepare_plot_data]
    produces [num_bins + 1] finite edges that start at [all_min] and end at
    [all_max]; in exact arithmetic edge [i] is [all_min + i * w], where
    [w = (all_max - all_min) / num_bins] is the very bin width the two
    densities are scaled with; both scaled densities have one value per
    grid point. *)
Theorem prepare_plot_data_bin_edges
    (df : LogFrame) (stats : Statistics) (num_bins : nat) (lo hi : Q)
    (kde : float -> float) :
  all_min stats = Fin lo -> all_max stats = Fin hi -> lo <= hi ->
  (1 <= num_bins)%nat ->
  gaussian_kde (map snd df) = OK kde ->
  exists plot es w,
    prepare_plot_data df stats num_bins = OK plot /\
    bin_edges plot = map Fin es /\
    length es = (num_bins + 1)%nat /\
    nth 0 es 0 == lo /\ nth num_bins es 0 == hi /\
    bin_width stats num_bins = Fin w /\ 0 <= w /\
    (forall i, (i <= num_bins)%nat -> nth i es 0 == lo + of_nat i * w) /\
    length (pdf_normal_scaled plot) = kde_grid_size /\
    length (pdf_kde_scaled plot) = kde_grid_size.
Proof.
  intros Hlo Hhi Hlh Hn Hk.
  destruct (np_linspace_Fin lo hi num_bins Hn) as [grid [Hgrid Hg]].
  set (es := (map grid (seq 0 num_bins) ++ [hi])%list) in *.
  pose proof (of_nat_ge_1 num_bins Hn) as Hn1.
  eexists _, es, ((hi - lo) / of_nat num_bins).
  split.
  { unfold prepare_plot_data. rewrite Hk. cbn [result_bind]. reflexivity. }
  cbn [bin_edges pdf_normal_scaled pdf_kde_scaled].
  rewrite Hlo, Hhi, Nat.add_1_r.
  split; [exact Hgrid|]. split; [apply grid_length|].
  split.
  { unfold es. rewrite (grid_nth grid lo hi num_bins 0 Hn ltac:(lia) Hg).
    change (of_nat 0) with 0. ring. }
  split.
  { unfold es. rewrite (grid_nth grid lo hi num_bins num_bins Hn ltac:(lia) Hg).
    field. lra. }
  split.
  { unfold bin_width. rewrite Hlo, Hhi. cbn [Fsub Fopp Fadd]. unfold Fdiv.
    rewrite of_nat_pos by assumption. reflexivity. }
  split; [apply Qle_shift_div_l; lra|].
  split.
  { intros i Hi. now apply (grid_nth grid lo hi num_bins i Hn Hi Hg). }
  split; now rewrite !length_map, np_linspace_length.
Qed.

(** X18: The histogram the three panels draw, taken over the edges of
    [prepare_plot_data], loses no observation: it has one count per bin,
    no count is negative and the counts add up to the number of log
    returns. *)
Theorem histogram_counts_every_observation
    (df : LogFrame) (qs : list Q) (kde : float -> float) (num_bins : nat) :
  map snd df = map Fin qs -> qs <> [] ->
  gaussian_kde (map Fin qs) = OK kde ->
  (1 <= num_bins)%nat ->
  exists stats plot counts,
    compute_statistics df = OK stats /\
    prepare_plot_data df stats num_bins = OK plot /\
    np_histogram (map snd df) (bin_edges plot) = OK counts /\
    length counts = num_bins /\
    Forall (fun n => (0 <= n)%Z) counts /\
    Zsum counts = Z.of_nat (length qs).
Proof.
  intros Hd Hne Hk Hn.
  destruct (compute_statistics_range_and_mode df qs kde Hd Hne Hk)
    as [stats [lo [hi [mode [Hc [Hlo [Hhi [_ [Ilo [Ihi [Hr _]]]]]]]]]]].
  assert (Hlh : lo <= hi) by (destruct (Hr hi Ihi); assumption).
  destruct (np_linspace_Fin lo hi num_bins Hn) as [grid [Hgrid Hg]].
  set (es := (map grid (seq 0 num_bins) ++ [hi])%list) in *.
  assert (Hk' : gaussian_kde (map snd df) = OK kde) by now rewrite Hd.
  destruct (histogram_of_sorted_edges qs es lo hi) as [counts [Hh [Hl [Hp Hs]]]].
  - now apply (grid_sorted grid lo hi num_bins Hn Hlh Hg).
  - unfold es. rewrite grid_length. lia.
  - pose proof (grid_nth grid lo hi num_bins 0 Hn ltac:(lia) Hg) as H0.
    fold es in H0.
    assert (E : hd 0 es = nth 0 es 0) by (destruct es; reflexivity).
    rewrite E, H0. change (of_nat 0) with 0. lra.
  - unfold es. rewrite last_last. reflexivity.
  - exact Hr.
  - eexists stats, _, counts. split; [exact Hc|]. split.
    { unfold prepare_plot_data. rewrite Hk'. cbn [result_bind]. reflexivity. }
    cbn [bin_edges]. rewrite Hlo, Hhi, Nat.add_1_r, Hgrid, Hd.
    split; [exact Hh|]. split; [|split; assumption].
    rewrite Hl. unfold es. rewrite grid_length. lia.
Qed.

End Estimator.

(** ** Instances of the verified properties on concrete inputs *)

Lemma sqrt_milli_nonneg (q : Q) : 0 <= sqrt_milli q.
Proof.
  unfold sqrt_milli, Qle. cbn [Qnum Qden]. rewrite Z.mul_1_r.
  apply Z.sqrt_nonneg.
Qed.

Lemma C1_witness :
  valid_confidence_level (1 # 10) /\
  exists x,
    var_historical nat (estimator_of example_returns) (1 # 10) 0%nat
    = OK (Fin x, 0%nat) /\
    x == Qabs (linear_percentile example_returns ((1 # 10) * 100)) /\
    (example_returns = example_returns -> 1 # 10 == 1 # 10 -> x == 21 # 1000).
Proof.
  split; [split; reflexivity|].
  apply (C1_historical_var_is_abs_percentile nat (estimator_of example_returns)
           example_returns (1 # 10) 0%nat).
  - reflexivity.
  - discriminate.
  - split; reflexivity.
Defined.

(** The example of the specification evaluated: the result is 0.021, at
    distance 0.0069 from 0.0279. *)
Lemma C1_counterexample :
  exists x,
    var_historical nat (estimator_of example_returns) (1 # 10) 0%nat
    = OK (Fin x, 0%nat) /\
    x == 21 # 1000 /\
    ~ Qabs (x - (279 # 10000)) < 1 # 1000.
Proof.
  eexists. split; [vm_compute; reflexivity|]. split.
  - vm_compute. reflexivity.
  - intro H. vm_compute in H. discriminate.
Qed.

Lemma C2_witness :
  valid_confidence_level (5 # 100) /\
  (1 <= default_simulations)%nat /\
  (exists h,
     var_historical nat (estimator_of example_returns) (5 # 100) 0%nat
     = OK (h, 0%nat) /\ Fnonneg h = true) /\
  ((2 <= length example_returns)%nat ->
   (exists p g',
      var_parametric sqrt_milli nat cycle_normal (estimator_of example_returns)
        (5 # 100) 0%nat = OK (p, g') /\ Fnonneg p = true) /\
   (exists m g',
      var_monte_carlo sqrt_milli nat cycle_normal (estimator_of example_returns)
        (5 # 100) default_simulations 0%nat = OK (m, g') /\ Fnonneg m = true)).
Proof.
  split; [split; reflexivity|].
  split; [unfold default_simulations; lia|].
  apply (C2_var_nonnegative sqrt_milli sqrt_milli_nonneg nat cycle_normal
           (estimator_of example_returns) example_returns).
  - reflexivity.
  - discriminate.
  - split; reflexivity.
  - unfold default_simulations; lia.
Defined.

(** A two-price series gives a one-element return series, on which the
    sample standard deviation is NaN and so is the parametric estimate. *)
Lemma C2_counterexample :
  let self := mkVaRCalculator "SPY" "2024-01-01" "2025-01-01"
                [Fin 100; Fin 101] [Fin (1 # 100)] in
  __init__ (provider_of [100; 101]) "SPY" "2024-01-01" "2025-01-01" = OK self /\
  returns self <> [] /\
  valid_confidence_level (5 # 100) /\
  Fnonneg NaN = false /\
  exists g',
    var_parametric sqrt_milli nat cycle_normal self (5 # 100) 0%nat
    = OK (NaN, g').
Proof.
  intros self.
  split; [vm_compute; reflexivity|].
  split; [discriminate|].
  split; [split; reflexivity|].
  split; [reflexivity|].
  assert (H0 : 0 <= 5 # 100) by discriminate.
  assert (H1 : 5 # 100 <= 1) by discriminate.
  destruct (var_parametric_eq sqrt_milli nat cycle_normal self
              (5 # 100) 0%nat H0 H1) as [z [_ Hp]].
  exists (snd (draws nat cycle_normal standard_sample_size 0%nat)).
  rewrite Hp. change (Series_std sqrt_milli (returns self)) with NaN.
  assert (E : Fabs (Fadd (Series_mean (returns self)) (Fmul NaN z)) = NaN)
    by (destruct z; reflexivity).
  rewrite E. reflexivity.
Qed.

Lemma C3_witness :
  linear_percentile example_returns 1 <= 0 /\
  linear_percentile example_returns 5 <= 0 /\
  linear_percentile example_returns 10 <= 0 /\
  exists v1 v5 v10,
    var_historical nat (estimator_of example_returns) (1 # 100) 0%nat
    = OK (Fin v1, 0%nat) /\
    var_historical nat (estimator_of example_returns) (5 # 100) 0%nat
    = OK (Fin v5, 0%nat) /\
    var_historical nat (estimator_of example_returns) (1 # 10) 0%nat
    = OK (Fin v10, 0%nat) /\
    v5 <= v1 /\ v10 <= v5.
Proof.
  assert (N1 : linear_percentile example_returns 1 <= 0)
    by (apply Qle_bool_iff; vm_compute; reflexivity).
  assert (N5 : linear_percentile example_returns 5 <= 0)
    by (apply Qle_bool_iff; vm_compute; reflexivity).
  assert (N10 : linear_percentile example_returns 10 <= 0)
    by (apply Qle_bool_iff; vm_compute; reflexivity).
  repeat (split; [assumption|]).
  apply (C3_historical_var_antitone_on_tail nat (estimator_of example_returns)
           example_returns 0%nat); try assumption.
  - reflexivity.
  - discriminate.
Defined.


(** The labels of that summary: the duplicate level gives a duplicate row,
    and the level 0.29 is labelled 28%. *)
Lemma summary_labels_example :
  exists rows g',
    get_var_summary sqrt_milli nat cycle_normal (estimator_of example_returns)
      [5 # 100; 29 # 100; 5 # 100] 0%nat = OK (rows, g') /\
    map Confidence_Level rows = ["5%"; "28%"; "5%"].
Proof.
  assert (Hl : Forall (fun cl => 0 <= cl /\ cl <= 1) [5 # 100; 29 # 100; 5 # 100])
    by (repeat constructor; discriminate).
  destruct (summary_loop_rows sqrt_milli sqrt_milli_nonneg nat cycle_normal
              (estimator_of example_returns) [5 # 100; 29 # 100; 5 # 100]
              ltac:(discriminate) Hl [] 0%nat) as [rows [g' [Hs Hrows]]].
  exists rows, g'. split; [exact Hs|].
  apply map_OK_inj.
  rewrite (row_computed_labels sqrt_milli nat cycle_normal _ _ _ Hrows).
  vm_compute. reflexivity.
Qed.

Lemma C5_witness :
  (Adj_Close (provider_of [100] "SPY" "2024-01-01" "2025-01-01") = [] /\
   __init__ (provider_of [100]) "SPY" "2024-01-01" "2025-01-01"
   = Raise (DataUnavailableError "SPY")
   \/
   length (Adj_Close (provider_of [100] "SPY" "2024-01-01" "2025-01-01")) = 1%nat /\
   __init__ (provider_of [100]) "SPY" "2024-01-01" "2025-01-01"
   = Raise EmptyReturnsError) /\
  (forall self,
     __init__ (provider_of [100]) "SPY" "2024-01-01" "2025-01-01" <> OK self) /\
  (forall t s e self,
     __init__ (provider_of [100]) t s e = OK self -> returns self <> []).
Proof.
  apply (C5_short_price_series_fails (provider_of [100])
           "SPY" "2024-01-01" "2025-01-01").
  simpl. lia.
Defined.

Lemma C6_witness :
  exists self,
    __init__ (provider_of [100; 101; 99]) "SPY" "2024-01-01" "2025-01-01"
    = OK self /\
    length (returns self) = (length [100; 101; 99] - 1)%nat /\
    returns self <> [] /\
    forall i, (1 <= i < length [100; 101; 99])%nat ->
      nth (i - 1) (returns self) NaN
      = Fin (nth i [100; 101; 99] 0 / nth (i - 1) [100; 101; 99] 0 - 1).
Proof.
  apply (C6_returns_are_simple_percentage_changes (provider_of [100; 101; 99])
           "SPY" "2024-01-01" "2025-01-01" [100; 101; 99]).
  - reflexivity.
  - simpl. lia.
  - repeat constructor.
Defined.

Lemma C7_witness :
  exists x g',
    var_parametric sqrt_milli nat cycle_normal (estimator_of example_returns)
      (5 # 100) 0%nat = OK (Fin x, g') /\
    x == Qabs (sample_mean example_returns
               + sample_std sqrt_milli example_returns
                 * linear_percentile
                     (fst (draws nat cycle_normal standard_sample_size 0%nat))
                     ((5 # 100) * 100)).
Proof.
  apply (C7_parametric_var_formula sqrt_milli nat cycle_normal
           (estimator_of example_returns) example_returns (5 # 100) 0%nat).
  - reflexivity.
  - simpl. lia.
  - split; reflexivity.
Defined.

Lemma C8_witness :
  exists r : result float,
    var_historical nat (estimator_of example_returns) (5 # 100) 0%nat
    = lift nat r 0%nat /\
    var_historical nat (estimator_of example_returns) (5 # 100) 7%nat
    = lift nat r 7%nat.
Proof.
  apply (C8_historical_var_deterministic nat (estimator_of example_returns)
           (estimator_of example_returns) (5 # 100) 0%nat 7%nat).
  reflexivity.
Defined.

Lemma C9_witness :
  exists ex1 ex2,
    __init__ sparse_provider "NONE" "2024-01-01" "2025-01-01" = Raise ex1 /\
    __init__ sparse_provider "SPY" "2024-01-01" "2025-01-01" = Raise ex2 /\
    exc_type ex1 = ValueError /\
    exc_type ex2 = ValueError /\
    exc_msg ex1 <> exc_msg ex2.
Proof.
  apply (C9_construction_failures_share_type sparse_provider
           "NONE" "2024-01-01" "2025-01-01" "SPY" "2024-01-01" "2025-01-01").
  - reflexivity.
  - discriminate.
  - reflexivity.
Defined.

Lemma C10_witness :
  ~ valid_confidence_level 0 /\ ~ valid_confidence_level 1 /\
  (exists lo hi,
     var_historical nat (estimator_of example_returns) 0 0%nat
     = OK (Fin lo, 0%nat) /\
     lo == Qabs (minimum example_returns) /\
     var_historical nat (estimator_of example_returns) 1 0%nat
     = OK (Fin hi, 0%nat) /\
     hi == Qabs (maximum example_returns)) /\
  (forall cl, cl = 0 \/ cl = 1 ->
     (exists p g',
        var_parametric sqrt_milli nat cycle_normal (estimator_of example_returns)
          cl 0%nat = OK (p, g')) /\
     (exists m g',
        var_monte_carlo sqrt_milli nat cycle_normal (estimator_of example_returns)
          cl default_simulations 0%nat = OK (m, g'))).
Proof.
  apply (C10_boundary_levels_accepted sqrt_milli sqrt_milli_nonneg
           nat cycle_normal (estimator_of example_returns) example_returns 0%nat).
  - reflexivity.
  - discriminate.
Defined.

(** ** Instances of the further properties *)

Lemma historical_var_bounded_witness :
  exists x,
    var_historical nat (estimator_of example_returns) (5 # 100) 0%nat
    = OK (Fin x, 0%nat) /\
    x <= Qmax (Qabs (minimum example_returns)) (Qabs (maximum example_returns)).
Proof.
  apply (historical_var_bounded_by_extreme_return nat
           (estimator_of example_returns) example_returns (5 # 100) 0%nat).
  - reflexivity.
  - discriminate.
  - discriminate.
  - discriminate.
Defined.

Lemma historical_var_monotone_witness :
  exists v1 v2,
    var_historical nat (estimator_of example_returns) (1 # 100) 0%nat
    = OK (Fin v1, 0%nat) /\
    var_historical nat (estimator_of example_returns) (1 # 10) 0%nat
    = OK (Fin v2, 0%nat) /\
    (linear_percentile example_returns ((1 # 10) * 100) <= 0 -> v2 <= v1) /\
    (0 <= linear_percentile example_returns ((1 # 100) * 100) -> v1 <= v2).
Proof.
  apply (historical_var_monotone_in_level nat (estimator_of example_returns)
           example_returns (1 # 100) (1 # 10) 0%nat).
  - reflexivity.
  - discriminate.
  - discriminate.
  - discriminate.
  - discriminate.
Defined.

Lemma historical_var_permutation_witness :
  exists x x',
    var_historical nat (estimator_of example_returns) (5 # 100) 0%nat
    = OK (Fin x, 0%nat) /\
    var_historical nat (estimator_of (rev example_returns)) (5 # 100) 3%nat
    = OK (Fin x', 3%nat) /\
    x == x'.
Proof.
  apply (historical_var_permutation_invariant nat
           (estimator_of example_returns) (estimator_of (rev example_returns))
           example_returns (rev example_returns) (5 # 100) 0%nat 3%nat).
  - reflexivity.
  - reflexivity.
  - apply Permutation_rev.
  - discriminate.
  - discriminate.
  - discriminate.
Defined.

Lemma historical_var_homogeneous_witness :
  exists x x',
    var_historical nat (estimator_of example_returns) (5 # 100) 0%nat
    = OK (Fin x, 0%nat) /\
    var_historical nat
      (estimator_of (map (fun r => 2 * r) example_returns)) (5 # 100) 0%nat
    = OK (Fin x', 0%nat) /\
    x' == 2 * x.
Proof.
  apply (historical_var_positively_homogeneous nat
           (estimator_of example_returns)
           (estimator_of (map (fun r => 2 * r) example_returns))
           example_returns 2 (5 # 100) 0%nat 0%nat).
  - reflexivity.
  - reflexivity.
  - discriminate.
  - discriminate.
  - discriminate.
  - discriminate.
Defined.

Lemma monte_carlo_formula_witness :
  exists x,
    var_monte_carlo sqrt_milli nat cycle_normal (estimator_of example_returns)
      (5 # 100) default_simulations 0%nat
    = OK (Fin x, snd (draws nat cycle_normal default_simulations 0%nat)) /\
    x == Qabs (sample_mean example_returns
               + sample_std sqrt_milli example_returns
                 * linear_percentile
                     (fst (draws nat cycle_normal default_simulations 0%nat))
                     ((5 # 100) * 100)).
Proof.
  apply (monte_carlo_var_is_parametric_formula sqrt_milli sqrt_milli_nonneg
           nat cycle_normal (estimator_of example_returns) example_returns
           (5 # 100) default_simulations 0%nat).
  - reflexivity.
  - simpl. lia.
  - unfold default_simulations. lia.
  - discriminate.
  - discriminate.
Defined.

Lemma estimators_reject_level_witness :
  var_historical nat (estimator_of example_returns) (3 # 2) 0%nat
  = Raise percentile_range_error /\
  var_parametric sqrt_milli nat cycle_normal (estimator_of example_returns)
    (3 # 2) 0%nat = Raise percentile_range_error /\
  var_monte_carlo sqrt_milli nat cycle_normal (estimator_of example_returns)
    (3 # 2) default_simulations 0%nat = Raise percentile_range_error.
Proof.
  apply (estimators_reject_level_out_of_range sqrt_milli sqrt_milli_nonneg
           nat cycle_normal (estimator_of example_returns) (3 # 2)
           default_simulations 0%nat).
  right. reflexivity.
Defined.

Lemma summary_rejects_level_witness :
  exists e,
    get_var_summary sqrt_milli nat cycle_normal (estimator_of example_returns)
      ([5 # 100] ++ (3 # 2) :: [1 # 10]) 0%nat = Raise e /\
    (((exists p, float_mul (binary64 (3 # 2)) (Fin 100) = Fin p) /\
      e = percentile_range_error) \/
     ((float_mul (binary64 (3 # 2)) (Fin 100) = PInf \/
       float_mul (binary64 (3 # 2)) (Fin 100) = NInf) /\
      e = float_overflow_error)).
Proof.
  apply (summary_rejects_level_out_of_range sqrt_milli sqrt_milli_nonneg
           nat cycle_normal (estimator_of example_returns)
           [5 # 100] (3 # 2) [1 # 10] 0%nat).
  - discriminate.
  - repeat constructor; discriminate.
  - right. reflexivity.
Defined.

(** The two exceptions on concrete levels: 1.5 has the finite product 150
    and is refused by [np.percentile]; 1e307 has an infinite product and is
    refused by [int] before any estimator runs. *)
Lemma summary_rejects_level_examples :
  get_var_summary sqrt_milli nat cycle_normal (estimator_of example_returns)
    [3 # 2] 0%nat = Raise percentile_range_error /\
  get_var_summary sqrt_milli nat cycle_normal (estimator_of example_returns)
    [inject_Z (10 ^ 307)] 0%nat = Raise float_overflow_error.
Proof.
  unfold get_var_summary. split.
  - rewrite (summary_loop_rejects sqrt_milli sqrt_milli_nonneg)
      by (right; reflexivity).
    vm_compute. reflexivity.
  - rewrite (summary_loop_rejects sqrt_milli sqrt_milli_nonneg)
      by (right; reflexivity).
    vm_compute. reflexivity.
Qed.

Lemma summary_repeat_witness :
  exists rows1 rows2 g1' g2',
    get_var_summary sqrt_milli nat cycle_normal (estimator_of example_returns)
      default_confidence_levels 0%nat = OK (rows1, g1') /\
    get_var_summary sqrt_milli nat cycle_normal (estimator_of example_returns)
      default_confidence_levels 5%nat = OK (rows2, g2') /\
    map Confidence_Level rows1 = map Confidence_Level rows2 /\
    map Historical_VaR rows1 = map Historical_VaR rows2.
Proof.
  apply (summary_labels_and_historical_column_repeat sqrt_milli
           sqrt_milli_nonneg nat cycle_normal (estimator_of example_returns)
           default_confidence_levels 0%nat 5%nat).
  - discriminate.
  - repeat constructor; discriminate.
Defined.

Lemma summary_draws_witness :
  exists rows,
    get_var_summary sqrt_milli nat cycle_normal (estimator_of example_returns)
      default_confidence_levels 0%nat
    = OK (rows,
          snd (draws nat cycle_normal
                 (length default_confidence_levels
                  * (standard_sample_size + default_simulations)) 0%nat)).
Proof.
  apply (summary_consumes_fixed_number_of_draws sqrt_milli sqrt_milli_nonneg
           nat cycle_normal (estimator_of example_returns)
           default_confidence_levels 0%nat).
  - discriminate.
  - repeat constructor; discriminate.
Defined.

Lemma construction_invariants_witness :
  exists self,
    __init__ (provider_of [100; 101; 99]) "SPY" "2024-01-01" "2025-01-01"
    = OK self /\
    ticker self = "SPY" /\ start_date self = "2024-01-01" /\
    end_date self = "2025-01-01" /\
    data self
    = column_Adj_Close (provider_of [100; 101; 99] "SPY" "2024-01-01" "2025-01-01") /\
    Forall (fun r => isnan r = false) (returns self) /\
    (1 <= length (returns self) <= length (data self) - 1)%nat.
Proof.
  eexists. split; [vm_compute; reflexivity|].
  apply (construction_invariants (provider_of [100; 101; 99])
           "SPY" "2024-01-01" "2025-01-01").
  vm_compute. reflexivity.
Defined.

Lemma positive_prices_bound_witness :
  exists self rs x,
    __init__ (provider_of [100; 101; 99]) "SPY" "2024-01-01" "2025-01-01"
    = OK self /\
    returns self = map Fin rs /\
    Forall (fun r => -1 <= r) rs /\
    var_historical nat self (5 # 100) 0%nat = OK (Fin x, 0%nat) /\
    (linear_percentile rs ((5 # 100) * 100) <= 0 -> x <= 1).
Proof.
  apply (positive_prices_bound_the_loss nat (provider_of [100; 101; 99])
           "SPY" "2024-01-01" "2025-01-01" [100; 101; 99] (5 # 100) 0%nat).
  - reflexivity.
  - simpl. lia.
  - repeat constructor.
  - discriminate.
  - discriminate.
Defined.

Lemma main_witness :
  let prices :=
    Adj_Close (provider_of [100; 101; 99] "SPY" "2024-01-01" "2025-01-01") in
  (prices = [] /\
   main sqrt_milli nat cycle_normal (provider_of [100; 101; 99]) 0%nat
   = OK [print_str "No se encontraron datos para SPY en el periodo dado."])
  \/
  (prices <> [] /\ dropna (pct_change (map Fin prices)) = [] /\
   main sqrt_milli nat cycle_normal (provider_of [100; 101; 99]) 0%nat
   = OK [print_str
     "Serie de retornos vacía. Ajusta el período o activo seleccionado."])
  \/
  (dropna (pct_change (map Fin prices)) <> [] /\
   exists rows,
     main sqrt_milli nat cycle_normal (provider_of [100; 101; 99]) 0%nat
     = OK [print_frame rows] /\
     map Confidence_Level rows = ["1%"; "5%"; "10%"]).
Proof.
  exact (main_prints_table_or_message sqrt_milli sqrt_milli_nonneg nat
           cycle_normal (provider_of [100; 101; 99]) 0%nat).
Defined.

Lemma download_data_witness :
  download_data log_linear (provider_from [100; 101; 99]) "SPY" "2000-01-01"
  = combine (map Fin [101; 99])
      (map (fun x => Flog log_linear (Fin x)) (price_ratios 100 [101; 99])) /\
  length (download_data log_linear (provider_from [100; 101; 99])
            "SPY" "2000-01-01") = length [101; 99].
Proof.
  apply (download_data_log_returns log_linear (provider_from [100; 101; 99])
           "SPY" "2000-01-01" 100 [101; 99]).
  - reflexivity.
  - repeat constructor.
Defined.

Lemma compute_statistics_short_witness :
  download_data log_linear (provider_from [100]) "SPY" "2000-01-01" = [] /\
  compute_statistics sqrt_milli flat_moment flat_moment kde_peak_at_zero
    (download_data log_linear (provider_from [100]) "SPY" "2000-01-01")
  = Raise (mkExc ValueError
      "zero-size array to reduction operation minimum which has no identity").
Proof.
  apply (compute_statistics_needs_two_prices sqrt_milli log_linear flat_moment
           flat_moment kde_peak_at_zero (provider_from [100])
           "SPY" "2000-01-01").
  simpl. lia.
Defined.

Lemma compute_statistics_witness :
  exists stats lo hi mode,
    compute_statistics sqrt_milli flat_moment flat_moment kde_peak_at_zero
      example_frame = OK stats /\
    all_min stats = Fin lo /\ all_max stats = Fin hi /\
    mode_val stats = Fin mode /\
    In lo [1 # 100; -2 # 100] /\ In hi [1 # 100; -2 # 100] /\
    (forall x, In x [1 # 100; -2 # 100] -> lo <= x /\ x <= hi) /\
    lo <= mode /\ mode <= hi /\
    In (Fin mode) (np_linspace (Fin lo) (Fin hi) kde_grid_size) /\
    Forall (fun x => Fleb (Fopp (Fabs x)) (Fopp (Fabs (Fin mode))) = true)
           (np_linspace (Fin lo) (Fin hi) kde_grid_size).
Proof.
  apply (compute_statistics_range_and_mode sqrt_milli flat_moment flat_moment
           kde_peak_at_zero example_frame [1 # 100; -2 # 100]
           (fun x => Fopp (Fabs x))).
  - reflexivity.
  - discriminate.
  - reflexivity.
Defined.

Lemma prepare_plot_data_witness :
  exists plot es w,
    prepare_plot_data kde_peak_at_zero flat_pdf example_frame
      (mkStatistics (Fin 0) (Fin 0) (Fin 0) (Fin 0) (Fin 0)
                    (Fin (-2 # 100)) (Fin (1 # 100))) 4 = OK plot /\
    bin_edges plot = map Fin es /\
    length es = (4 + 1)%nat /\
    nth 0 es 0 == -2 # 100 /\ nth 4 es 0 == 1 # 100 /\
    bin_width (mkStatistics (Fin 0) (Fin 0) (Fin 0) (Fin 0) (Fin 0)
                 (Fin (-2 # 100)) (Fin (1 # 100))) 4 = Fin w /\
    0 <= w /\
    (forall i, (i <= 4)%nat -> nth i es 0 == (-2 # 100) + of_nat i * w) /\
    length (pdf_normal_scaled plot) = kde_grid_size /\
    length (pdf_kde_scaled plot) = kde_grid_size.
Proof.
  apply (prepare_plot_data_bin_edges kde_peak_at_zero flat_pdf example_frame
           (mkStatistics (Fin 0) (Fin 0) (Fin 0) (Fin 0) (Fin 0)
                         (Fin (-2 # 100)) (Fin (1 # 100)))
           4 (-2 # 100) (1 # 100) (fun x => Fopp (Fabs x))).
  - reflexivity.
  - reflexivity.
  - discriminate.
  - lia.
  - reflexivity.
Defined.

Lemma histogram_witness :
  exists stats plot counts,
    compute_statistics sqrt_milli flat_moment flat_moment kde_peak_at_zero
      example_frame = OK stats /\
    prepare_plot_data kde_peak_at_zero flat_pdf example_frame stats 4
    = OK plot /\
    np_histogram (map snd example_frame) (bin_edges plot) = OK counts /\
    length counts = 4%nat /\
    Forall (fun n => (0 <= n)%Z) counts /\
    Zsum counts = Z.of_nat (length [1 # 100; -2 # 100]).
Proof.
  apply (histogram_counts_every_observation sqrt_milli flat_moment flat_moment
           kde_peak_at_zero flat_pdf example_frame [1 # 100; -2 # 100]
           (fun x => Fopp (Fabs x)) 4).
  - reflexivity.
  - discriminate.
  - reflexivity.
  - lia.
Defined.
